(** * StreamConn: the connection router of [alpaca_trade_api/stream2.py]

    A shallow embedding of the [StreamConn] class: channel classification,
    lazy connection set-up with the authentication handshake, the read loop,
    pattern-matched dispatch, and shutdown.

    Modelling conventions.
    - Python objects that the code compares by identity (web-socket
      connections) are natural numbers handed out by an allocator.
    - Every coroutine is a function in a state-and-exception monad over the
      router's fields and the outside world.  A raised exception keeps the
      state reached so far, as in Python.
    - The outside world (network peers, user handlers) answers through an
      oracle indexed by the number of effects performed so far, so each
      effect gets an answer of its own and every behaviour of the peers can
      be expressed.
    - A call of [subscribe] and each run of a read loop is taken as one
      uninterrupted transition; the read loops are interleaved between
      them, which is what the event loop of [run] does with them.
    - [close] is not uninterrupted: closing a connection wakes the read
      loop that waits on it, so each [await] of [close] is a point at which
      the event loop runs read loops before [close] goes on.  Which loops
      run there, and for how long, is a parameter of [close].  A read loop
      that has been woken but has not reached the end of its [finally]
      block when [close] returns is one that runs after [close].
    - Calls of the public coroutines do not overlap, and a handler does
      nothing to the router but return or raise. *)

From Stdlib Require Import List String Ascii Bool Arith Lia Setoid.
Import ListNotations.
Local Open Scope string_scope.
Local Open Scope list_scope.

(** ** Decoded JSON values *)

Set Warnings "-register-all".

(** What [json.loads] returns.  A Python [dict] is an association list whose
    first binding of a key is the one that counts. *)
Inductive json : Type :=
| JNull
| JBool (b : bool)
| JNum (n : nat)          (* numbers are never inspected by the router *)
| JStr (s : string)
| JArr (l : list json)
| JObj (kv : list (string * json)).

Fixpoint assoc {A : Type} (k : string) (kv : list (string * A)) : option A :=
  match kv with
  | [] => None
  | (k', v) :: rest => if String.eqb k k' then Some v else assoc k rest
  end.

(** [x == s] for a decoded value [x] and a string literal [s]. *)
Definition json_is_str (s : string) (x : json) : bool :=
  match x with
  | JStr s' => String.eqb s s'
  | _ => false
  end.

(** [needle in hay] on Python strings. *)
Fixpoint contains (needle hay : string) : bool :=
  String.prefix needle hay ||
  match hay with
  | EmptyString => false
  | String _ rest => contains needle rest
  end.

(** ** Channel classifier ([subscribe], lines 94-103) *)

Inductive conn_class : Type := EventsClass | DataClass | FeedClass.

Definition conn_class_eqb (a b : conn_class) : bool :=
  match a, b with
  | EventsClass, EventsClass | DataClass, DataClass | FeedClass, FeedClass => true
  | _, _ => false
  end.

(** [c.startswith(prefixes)] with a tuple of prefixes. *)
Definition startswith (c : string) (prefixes : list string) : bool :=
  existsb (fun p => String.prefix p c) prefixes.

Definition nats_prefixes : list string := ["Q."; "T."; "A."; "AM."].
Definition data_prefixes : list string := ["bars/"; "iex/"; "sip/"].

Definition classify (c : string) : conn_class :=
  if startswith c nats_prefixes then FeedClass
  else if startswith c data_prefixes then DataClass
  else EventsClass.

(** The three lists built by the [for c in channels] loop. *)
Record partitions : Type := mkPartitions {
  ws_channels : list string;
  data_channels : list string;
  nats_channels : list string
}.

Definition partition_step (acc : partitions) (c : string) : partitions :=
  if startswith c nats_prefixes then
    mkPartitions (ws_channels acc) (data_channels acc) (nats_channels acc ++ [c])
  else if startswith c data_prefixes then
    mkPartitions (ws_channels acc) (data_channels acc ++ [c]) (nats_channels acc)
  else
    mkPartitions (ws_channels acc ++ [c]) (data_channels acc) (nats_channels acc).

Definition partition_channels (channels : list string) : partitions :=
  fold_left partition_step channels (mkPartitions [] [] []).

Definition in_class (k : conn_class) (c : string) : bool :=
  conn_class_eqb (classify c) k.

(** ** Exceptions, events and the outside world *)

(** Python object identity of a [websockets] connection. *)
Definition sock : Type := nat.

(** A regular expression, identified by its text: [re.compile] of equal
    texts yields equal keys of the handler table. *)
Definition pattern : Type := string.

(** What is passed to [register]; [asyncio.iscoroutinefunction] tells the
    two apart. *)
Inductive callable : Type :=
| AsyncDef (name : nat)
| PlainDef (name : nat).

Definition iscoroutinefunction (f : callable) : bool :=
  match f with AsyncDef _ => true | PlainDef _ => false end.

Inductive exn : Type :=
| ValueError (message : string) (arg : option json)
| KeyError (key : string)
| TypeError
| AttributeError
| DecodeError           (* UnicodeDecodeError or json.JSONDecodeError *)
| ConnectionClosed      (* websockets: the connection is closed *)
| OtherError (code : nat).

Definition auth_failure (msg : json) : exn :=
  ValueError "Invalid Alpaca API credentials, Failed to authenticate: {}"
             (Some msg).

(** Modelled from the spec: [entity.Account] and [entity.Entity] are not
    among the sources; the spec describes them as simple data-holding
    objects constructed from decoded payloads, with an account-update entity
    and a generic entity. *)
Inductive entity : Type :=
| Account (raw : json)
| Entity (raw : json).

(** One payload delivered by [ws.recv()]: either it decodes (utf-8, then
    [json.loads]) to a value, or decoding raises. *)
Inductive frame : Type :=
| Frame (decoded : option json).

(** Effects visible outside the router, in the order they are attempted. *)
Inductive event : Type :=
| EvConnect (k : conn_class) (url : string)      (* websockets.connect(url) *)
| EvSend (ws : sock) (payload : json)            (* ws.send(json.dumps(payload)) *)
| EvRecv (ws : sock)                             (* ws.recv() *)
| EvClose (ws : sock)                            (* ws.close() *)
| EvSpawn (ws : sock)                            (* ensure_future(_consume_msg(ws)) *)
| EvHandler (f : callable) (channel : string) (ent : entity)
| EvHandlerNats (f : callable) (subject : string) (data : json)
| EvPolygonStream (key_id : string)              (* polygon.Stream(key_id) *)
| EvPolygonRegister (pat : pattern)
| EvPolygonConnect
| EvPolygonSubscribe (channels : list string)
| EvPolygonClose.

(** Answers of the peers and of the user's handlers, by time (the number of
    effects performed before the one that is answered). *)
Record Env : Type := mkEnv {
  on_connect : nat -> option exn;      (* [None]: the connection is opened *)
  on_send : nat -> option exn;
  on_recv : nat -> exn + frame;
  on_handler : nat -> option exn;      (* [None]: the handler returns *)
  on_polygon : nat -> option exn
}.

Record World : Type := mkWorld {
  events : list event;                 (* newest first *)
  fresh : sock;                        (* identity of the next connection *)
  closed : list sock;
  tasks : list sock;                   (* connections whose read loop is alive *)
  opened_for : list (sock * conn_class) (* which _ensure_* opened a connection *)
}.

(** The instance fields of [StreamConn]. *)
Record StreamConn : Type := mkStreamConn {
  _key_id : string;
  _secret_key : string;
  _endpoint : string;
  _data_endpoint : string;
  _handlers : list (pattern * callable);
  _base_url : string;
  _data_url : string;
  _ws : option sock;
  _data_ws : option sock;
  polygon : option string   (* the polygon.Stream client and its key id *)
}.

Record state : Type := mkState {
  self : StreamConn;
  world : World
}.

Definition clock (s : state) : nat := List.length (events (world s)).

Definition set_ws (v : option sock) (c : StreamConn) : StreamConn :=
  mkStreamConn (_key_id c) (_secret_key c) (_endpoint c) (_data_endpoint c)
    (_handlers c) (_base_url c) (_data_url c) v (_data_ws c) (polygon c).

Definition set_data_ws (v : option sock) (c : StreamConn) : StreamConn :=
  mkStreamConn (_key_id c) (_secret_key c) (_endpoint c) (_data_endpoint c)
    (_handlers c) (_base_url c) (_data_url c) (_ws c) v (polygon c).

Definition set_polygon (v : option string) (c : StreamConn) : StreamConn :=
  mkStreamConn (_key_id c) (_secret_key c) (_endpoint c) (_data_endpoint c)
    (_handlers c) (_base_url c) (_data_url c) (_ws c) (_data_ws c) v.

Definition set_handlers (v : list (pattern * callable)) (c : StreamConn)
  : StreamConn :=
  mkStreamConn (_key_id c) (_secret_key c) (_endpoint c) (_data_endpoint c)
    v (_base_url c) (_data_url c) (_ws c) (_data_ws c) (polygon c).

Definition log (e : event) (w : World) : World :=
  mkWorld (e :: events w) (fresh w) (closed w) (tasks w) (opened_for w).

(** [re.sub(r'^http', 'ws', url)] *)
Definition http_to_ws (url : string) : string :=
  if String.prefix "http" url
  then ("ws" ++ String.substring 4 (String.length url - 4) url)%string
  else url.

(** [__init__], with the credentials and the two base URLs already resolved
    ([get_credentials], [get_base_url] and [get_data_url] live outside the
    sources at hand). *)
Definition __init__ (key_id secret_key base_url data_url : string) : state :=
  let base_url := http_to_ws base_url in
  let data_url := http_to_ws data_url in
  mkState
    (mkStreamConn key_id secret_key (base_url ++ "/stream")%string
       (data_url ++ "/stream")%string [] base_url data_url None None None)
    (mkWorld [] 0 [] [] []).

(** ** The state-and-exception monad *)

Inductive result (A : Type) : Type :=
| Ok (a : A)
| Raise (e : exn).
Arguments Ok {A} a.
Arguments Raise {A} e.

Definition M (A : Type) : Type := state -> result A * state.

Definition ret {A : Type} (a : A) : M A := fun s => (Ok a, s).

Definition raise {A : Type} (e : exn) : M A := fun s => (Raise e, s).

Definition bind {A B : Type} (m : M A) (k : A -> M B) : M B :=
  fun s =>
    match m s with
    | (Ok a, s') => k a s'
    | (Raise e, s') => (Raise e, s')
    end.

Declare Scope py_scope.
Delimit Scope py_scope with py.
Notation "x <- m ;; k" := (bind m (fun x => k))
  (at level 61, m at next level, right associativity) : py_scope.
Notation "m ;; k" := (bind m (fun _ => k))
  (at level 61, right associativity) : py_scope.
Local Open Scope py_scope.

Definition modify_self (f : StreamConn -> StreamConn) : M unit :=
  fun s => (Ok tt, mkState (f (self s)) (world s)).

Definition modify_world (f : World -> World) : M unit :=
  fun s => (Ok tt, mkState (self s) (f (world s))).

Definition emit (e : event) : M unit := modify_world (log e).

Definition answer (a : option exn) : M unit :=
  match a with
  | None => ret tt
  | Some e => raise e
  end.

Definition gets {A : Type} (f : StreamConn -> A) : M A :=
  fun s => (Ok (f (self s)), s).

Definition now : M nat := fun s => (Ok (clock s), s).

(** ** Python operations on decoded values *)

(** [k in x] *)
Definition py_in (k : string) (x : json) : M bool :=
  match x with
  | JObj kv => ret (match assoc k kv with Some _ => true | None => false end)
  | JArr l => ret (existsb (json_is_str k) l)
  | JStr s => ret (contains k s)
  | _ => raise TypeError
  end.

(** [x[k]] for a string key [k] *)
Definition getitem (x : json) (k : string) : M json :=
  match x with
  | JObj kv =>
      match assoc k kv with
      | Some v => ret v
      | None => raise (KeyError k)
      end
  | _ => raise TypeError
  end.

(** [x.get(k)]; Python's [None] is [JNull]. *)
Definition dict_get (x : json) (k : string) : M json :=
  match x with
  | JObj kv =>
      match assoc k kv with
      | Some v => ret v
      | None => ret JNull
      end
  | _ => raise AttributeError
  end.

(** [r.decode('utf-8')] when [r] is bytes, then [json.loads(r)]. *)
Definition loads (r : frame) : M json :=
  match r with
  | Frame (Some msg) => ret msg
  | Frame None => raise DecodeError
  end.

Definition authenticate_request (key_id secret_key : string) : json :=
  JObj [("action", JStr "authenticate");
        ("data", JObj [("key_id", JStr key_id);
                       ("secret_key", JStr secret_key)])].

Definition listen_request (streams : list string) : json :=
  JObj [("action", JStr "listen");
        ("data", JObj [("streams", JArr (map JStr streams))])].

(** [_cast] *)
Definition _cast (channel : string) (msg : json) : entity :=
  if String.eqb channel "account_updates" then Account msg else Entity msg.

(** [self._handlers[pat] = func]: an existing key keeps its place. *)
Fixpoint dict_set (pat : pattern) (func : callable)
  (d : list (pattern * callable)) : list (pattern * callable) :=
  match d with
  | [] => [(pat, func)]
  | (p, f) :: rest =>
      if String.eqb pat p then (p, func) :: rest
      else (p, f) :: dict_set pat func rest
  end.

Fixpoint dict_del (pat : pattern) (d : list (pattern * callable))
  : list (pattern * callable) :=
  match d with
  | [] => []
  | (p, f) :: rest =>
      if String.eqb pat p then rest else (p, f) :: dict_del pat rest
  end.

(** ** The router *)

Section Router.

(** [re.compile(pat).match(s) is not None]: the regular-expression engine is
    a parameter of the development. *)
Variable re_match : pattern -> string -> bool.

Variable env : Env.

Definition is_closed (ws : sock) : M bool :=
  fun s => (Ok (existsb (Nat.eqb ws) (closed (world s))), s).

(** [await websockets.connect(url)] *)
Definition websockets_connect (k : conn_class) (url : string) : M sock :=
  t <- now;;
  emit (EvConnect k url);;
  answer (on_connect env t);;
  fun s =>
    let w := world s in
    (Ok (fresh w),
     mkState (self s)
       (mkWorld (events w) (S (fresh w)) (closed w) (tasks w)
          ((fresh w, k) :: opened_for w))).

(** [await ws.send(json.dumps(payload))] *)
Definition ws_send (ws : sock) (payload : json) : M unit :=
  t <- now;;
  emit (EvSend ws payload);;
  c <- is_closed ws;;
  if c then raise ConnectionClosed else answer (on_send env t).

(** [await ws.recv()] *)
Definition ws_recv (ws : sock) : M frame :=
  t <- now;;
  emit (EvRecv ws);;
  c <- is_closed ws;;
  if c then raise ConnectionClosed
  else match on_recv env t with
       | inl e => raise e
       | inr r => ret r
       end.

(** [await ws.close()]: idempotent, and it does not raise. *)
Definition ws_close (ws : sock) : M unit :=
  emit (EvClose ws);;
  modify_world (fun w =>
    mkWorld (events w) (fresh w) (ws :: closed w) (tasks w) (opened_for w)).

(** [asyncio.ensure_future(self._consume_msg(ws))] *)
Definition ensure_future (ws : sock) : M unit :=
  emit (EvSpawn ws);;
  modify_world (fun w =>
    mkWorld (events w) (fresh w) (closed w) (ws :: tasks w) (opened_for w)).

(** [await handler(self, channel, ent)] *)
Definition call_handler (handler : callable) (channel : string) (ent : entity)
  : M unit :=
  t <- now;;
  emit (EvHandler handler channel ent);;
  answer (on_handler env t).

(** [await handler(self, subject, data)] *)
Definition call_handler_nats (handler : callable) (subject : string)
  (data : json) : M unit :=
  t <- now;;
  emit (EvHandlerNats handler subject data);;
  answer (on_handler env t).

(** A network operation of the polygon client. *)
Definition polygon_call (e : event) : M unit :=
  t <- now;;
  emit e;;
  answer (on_polygon env t).

(** The [for pat, handler in self._handlers.items()] loop of [_dispatch]. *)
Fixpoint dispatch_items (items : list (pattern * callable))
  (channel : string) (msg : json) : M unit :=
  match items with
  | [] => ret tt
  | (pat, handler) :: rest =>
      (if re_match pat channel then
         data <- getitem msg "data";;
         let ent := _cast channel data in
         call_handler handler channel ent
       else ret tt);;
      dispatch_items rest channel msg
  end.

Definition _dispatch (channel : string) (msg : json) : M unit :=
  items <- gets _handlers;;
  dispatch_items items channel msg.

(** The loop of [_dispatch_nats]. *)
Fixpoint dispatch_nats_items (items : list (pattern * callable))
  (subject : string) (data : json) : M unit :=
  match items with
  | [] => ret tt
  | (pat, handler) :: rest =>
      (if re_match pat subject then call_handler_nats handler subject data
       else ret tt);;
      dispatch_nats_items rest subject data
  end.


Definition _connect (ws : sock) : M unit :=
  key_id <- gets _key_id;;
  secret_key <- gets _secret_key;;
  ws_send ws (authenticate_request key_id secret_key);;
  r <- ws_recv ws;;
  msg <- loads r;;
  present <- py_in "data" msg;;
  refused <- (if negb present then ret true
              else
                data <- getitem msg "data";;
                status <- getitem data "status";;
                ret (negb (json_is_str "authorized" status)));;
  (if refused : bool then raise (auth_failure msg) else ret tt);;
  modify_self (set_ws (Some ws));;
  _dispatch "authorized" msg;;
  ensure_future ws.

Definition _ensure_nats : M unit :=
  p <- gets polygon;;
  match p with
  | Some _ => ret tt
  | None =>
      key_id <- gets _key_id;;
      base_url <- gets _base_url;;
      let key_id :=
        if contains "staging" base_url then (key_id ++ "-staging")%string
        else key_id in
      emit (EvPolygonStream key_id);;
      modify_self (set_polygon (Some key_id));;
      emit (EvPolygonRegister ".*");;
      polygon_call EvPolygonConnect
  end.

Definition _ensure_ws : M unit :=
  w <- gets _ws;;
  match w with
  | Some _ => ret tt
  | None =>
      url <- gets _endpoint;;
      ws <- websockets_connect EventsClass url;;
      _connect ws;;
      modify_self (set_ws (Some ws))
  end.

Definition _ensure_data_ws : M unit :=
  w <- gets _data_ws;;
  match w with
  | Some _ => ret tt
  | None =>
      url <- gets _data_endpoint;;
      data_ws <- websockets_connect DataClass url;;
      _connect data_ws;;
      modify_self (set_data_ws (Some data_ws))
  end.

(** [await obj.send(...)] where [obj] is read from a field that may hold
    [None]. *)
Definition field_send (field : StreamConn -> option sock) (payload : json)
  : M unit :=
  w <- gets field;;
  match w with
  | Some ws => ws_send ws payload
  | None => raise AttributeError
  end.

(** The three [if len(...) > 0] blocks of [subscribe]. *)
Definition subscribe_ws (chans : list string) : M unit :=
  if (0 <? List.length chans)%nat then
    _ensure_ws;;
    field_send _ws (listen_request chans)
  else ret tt.

Definition subscribe_data (chans : list string) : M unit :=
  if (0 <? List.length chans)%nat then
    _ensure_data_ws;;
    field_send _data_ws (listen_request chans)
  else ret tt.

(** [await self.polygon.subscribe(chans)]: the client is read from a field
    that may hold [None]. *)
Definition feed_subscribe (chans : list string) : M unit :=
  p <- gets polygon;;
  match p with
  | Some _ => polygon_call (EvPolygonSubscribe chans)
  | None => raise AttributeError
  end.

Definition subscribe_nats (chans : list string) : M unit :=
  if (0 <? List.length chans)%nat then
    _ensure_nats;;
    feed_subscribe chans
  else ret tt.

Definition subscribe (channels : list string) : M unit :=
  let p := partition_channels channels in
  subscribe_ws (ws_channels p);;
  subscribe_data (data_channels p);;
  subscribe_nats (nats_channels p).

Definition register (channel_pat : pattern) (func : callable) : M unit :=
  if negb (iscoroutinefunction func) then
    raise (ValueError "handler must be a coroutine function" None)
  else
    modify_self (fun c => set_handlers (dict_set channel_pat func (_handlers c)) c).


Definition deregister (channel_pat : pattern) : M unit :=
  items <- gets _handlers;;
  match assoc channel_pat items with
  | Some _ => modify_self (set_handlers (dict_del channel_pat items))
  | None => raise (KeyError channel_pat)
  end.

(** One pass through the body of [while True] in [_consume_msg].  When the
    [stream] field is neither a string nor [None], [pat.match] raises on the
    first table entry, and nothing happens when the table is empty. *)
Definition consume_once (ws : sock) : M unit :=
  r <- ws_recv ws;;
  msg <- loads r;;
  stream <- dict_get msg "stream";;
  match stream with
  | JNull => ret tt
  | JStr channel => _dispatch channel msg
  | _ =>
      items <- gets _handlers;;
      match items with
      | [] => ret tt
      | _ :: _ => raise TypeError
      end
  end.

(** The [while True] loop, for at most [fuel] passes.  [Ok tt] means that
    the loop is still running after [fuel] passes: the Python loop has no
    other exit than an exception. *)
Fixpoint consume_loop (fuel : nat) (ws : sock) : M unit :=
  match fuel with
  | O => ret tt
  | S fuel' => consume_once ws;; consume_loop fuel' ws
  end.

Definition option_sock_eqb (a : option sock) (b : sock) : bool :=
  match a with
  | Some x => Nat.eqb x b
  | None => false
  end.

(** The [finally] block of [_consume_msg]; the task is over after it. *)
Definition consume_finally (ws : sock) : M unit :=
  ws_close ws;;
  d <- gets _data_ws;;
  (if option_sock_eqb d ws then modify_self (set_data_ws None)
   else modify_self (set_ws None));;
  modify_world (fun w =>
    mkWorld (events w) (fresh w) (closed w)
      (filter (fun x => negb (Nat.eqb x ws)) (tasks w)) (opened_for w)).

(** [_consume_msg]: the [finally] block runs when the loop is left, and the
    exception that ended the loop is raised again. *)
Definition _consume_msg (fuel : nat) (ws : sock) : M unit :=
  fun s =>
    match consume_loop fuel ws s with
    | (Ok tt, s') => (Ok tt, s')
    | (Raise e, s') => (Raise e, snd (consume_finally ws s'))
    end.

(** What the event loop does while a coroutine is suspended: the read-loop
    tasks that are alive run, here in the order and for the number of passes
    that [schedule] gives; what a task raises stays in the task. *)
Fixpoint serve (schedule : list (sock * nat)) : M unit :=
  match schedule with
  | [] => ret tt
  | (ws, fuel) :: rest =>
      fun s =>
        if existsb (Nat.eqb ws) (tasks (world s))
        then serve rest (snd (_consume_msg fuel ws s))
        else serve rest s
  end.

(** [await op] at a point where the read loops get to run: [op] takes
    effect, the event loop serves [schedule], and the coroutine goes on with
    the outcome of [op]. *)
Definition awaiting {A : Type} (op : M A) (schedule : list (sock * nat))
  : M A :=
  fun s =>
    match op s with
    | (r, s1) => (r, snd (serve schedule s1))
    end.

(** What the event loop serves at each of the three awaits of [close]. *)
Record interleaving : Type := mkInterleaving {
  during_ws : list (sock * nat);
  during_data_ws : list (sock * nat);
  during_polygon : list (sock * nat)
}.

(** [close]: each field is read when its turn comes, after the awaits
    before it. *)
Definition close (i : interleaving) : M unit :=
  w <- gets _ws;;
  (match w with
   | Some ws => awaiting (ws_close ws) (during_ws i)
   | None => ret tt
   end);;
  d <- gets _data_ws;;
  (match d with
   | Some ws => awaiting (ws_close ws) (during_data_ws i)
   | None => ret tt
   end);;
  p <- gets polygon;;
  match p with
  | Some _ => awaiting (polygon_call EvPolygonClose) (during_polygon i)
  | None => ret tt
  end.

End Router.

(** No read loop runs while [close] waits. *)
Definition undisturbed : interleaving := mkInterleaving [] [] [].

(** ** The router as a transition system *)

Inductive action : Type :=
| Subscribe (channels : list string)
| Register (channel_pat : pattern) (func : callable)
| Deregister (channel_pat : pattern)
| Close (i : interleaving)
| ReadLoop (ws : sock) (fuel : nat).   (* the read loop of [ws] runs on *)

Definition run_action (re_match : pattern -> string -> bool) (env : Env)
  (a : action) : M unit :=
  match a with
  | Subscribe channels => subscribe re_match env channels
  | Register channel_pat func => register channel_pat func
  | Deregister channel_pat => deregister channel_pat
  | Close i => close re_match env i
  | ReadLoop ws fuel => _consume_msg re_match env fuel ws
  end.

(** A read loop can only run for a connection whose task was started and
    has not finished. *)
Definition enabled (a : action) (s : state) : Prop :=
  match a with
  | ReadLoop ws _ => In ws (tasks (world s))
  | _ => True
  end.

Inductive reachable (re_match : pattern -> string -> bool) (env : Env)
  : state -> Prop :=
| reachable_init : forall key_id secret_key base_url data_url,
    reachable re_match env (__init__ key_id secret_key base_url data_url)
| reachable_step : forall s a,
    reachable re_match env s ->
    enabled a s ->
    reachable re_match env (snd (run_action re_match env a s)).

(** The stored handle of a connection class, as "present or absent". *)
Definition handle_present (k : conn_class) (c : StreamConn) : bool :=
  match k with
  | EventsClass => match _ws c with Some _ => true | None => false end
  | DataClass => match _data_ws c with Some _ => true | None => false end
  | FeedClass => match polygon c with Some _ => true | None => false end
  end.

(** [ensureConnected] of the spec, per class. *)
Definition ensure_connected (env : Env) (re_match : pattern -> string -> bool)
  (k : conn_class) : M unit :=
  match k with
  | EventsClass => _ensure_ws re_match env
  | DataClass => _ensure_data_ws re_match env
  | FeedClass => _ensure_nats env
  end.

(** The effects performed between two states, oldest first. *)
Definition trace_between (s s' : state) : list event :=
  rev (firstn (clock s' - clock s) (events (world s'))).

(** ** A small regular-expression engine for the worked instances

    It covers literal characters, [.], a starred character, a leading [^]
    and a trailing [$], matched from the start of the text as [re.match]
    does. *)

Definition char_ok (c t : ascii) : bool :=
  Ascii.eqb c "."%char || Ascii.eqb c t.

Fixpoint match_here (fuel : nat) (re text : string) {struct fuel} : bool :=
  match fuel with
  | O => false
  | S n =>
      match re with
      | EmptyString => true
      | String c (String "*"%char re') =>
          match_here n re' text ||
          match text with
          | String t text' => char_ok c t && match_here n re text'
          | EmptyString => false
          end
      | String "$"%char EmptyString =>
          match text with EmptyString => true | _ => false end
      | String c re' =>
          match text with
          | String t text' => char_ok c t && match_here n re' text'
          | EmptyString => false
          end
      end
  end.

Definition simple_match (pat : pattern) (text : string) : bool :=
  let re := match pat with
            | String "^"%char re' => re'
            | _ => pat
            end in
  match_here (S (String.length re + String.length text)) re text.

(** An environment in which every peer cooperates: connections open, sends
    succeed, every received payload is the answer [reply], handlers return. *)
Definition steady_env (reply : json) : Env :=
  mkEnv (fun _ => None) (fun _ => None) (fun _ => inr (Frame (Some reply)))
        (fun _ => None) (fun _ => None).

Definition authorized_reply : json :=
  JObj [("stream", JStr "authorization");
        ("data", JObj [("status", JStr "authorized");
                       ("action", JStr "authenticate")])].

Definition unauthorized_reply : json :=
  JObj [("stream", JStr "authorization");
        ("data", JObj [("status", JStr "unauthorized");
                       ("action", JStr "authenticate")])].

Definition demo : state :=
  __init__ "KEY" "SECRET" "https://api.alpaca.markets" "https://data.alpaca.markets".

(** ** Vocabulary of the statements *)

(** [extend tr s]: the state [s] after the effects [tr] (oldest first) have
    been recorded, nothing else changed. *)
Definition extend (tr : list event) (s : state) : state :=
  mkState (self s)
    (mkWorld (rev tr ++ events (world s)) (fresh (world s))
       (closed (world s)) (tasks (world s)) (opened_for (world s))).

(** The table entries whose pattern matches a routing key, in table order. *)
Definition matching (re_match : pattern -> string -> bool)
  (items : list (pattern * callable)) (key : string)
  : list (pattern * callable) :=
  filter (fun entry => re_match (fst entry) key) items.



(** The class whose [_ensure_*] method opened a connection. *)
Definition class_of (w : World) (ws : sock) : option conn_class :=
  match find (fun entry => Nat.eqb (fst entry) ws) (opened_for w) with
  | Some (_, k) => Some k
  | None => None
  end.

(** The listen requests of a trace, with the connection each was sent on. *)
Definition listen_sends (tr : list event) : list (sock * json) :=
  flat_map (fun ev =>
              match ev with
              | EvSend ws (JObj kv) =>
                  match assoc "action" kv with
                  | Some (JStr "listen") => [(ws, JObj kv)]
                  | _ => []
                  end
              | _ => []
              end) tr.

(** The subscribe calls made on the feed client in a trace. *)
Definition feed_subscribes (tr : list event) : list (list string) :=
  flat_map (fun ev =>
              match ev with
              | EvPolygonSubscribe chans => [chans]
              | _ => []
              end) tr.

(** The handler invocations that a full fan-out of [_dispatch] makes. *)
Definition fanout (re_match : pattern -> string -> bool)
  (items : list (pattern * callable)) (channel : string) (data : json)
  : list event :=
  map (fun entry => EvHandler (snd entry) channel (_cast channel data))
      (matching re_match items channel).


(** The state right after [websockets.connect(url)] has opened a connection
    for class [k]. *)
Definition after_connect (k : conn_class) (url : string) (s : state) : state :=
  mkState (self s)
    (mkWorld (EvConnect k url :: events (world s)) (S (fresh (world s)))
       (closed (world s)) (tasks (world s))
       ((fresh (world s), k) :: opened_for (world s))).

(** The state after the two messages of the authentication handshake. *)
Definition after_handshake (ws : sock) (s : state) : state :=
  extend [EvSend ws (authenticate_request (_key_id (self s))
                                          (_secret_key (self s)));
          EvRecv ws] s.

(** The endpoint of a socket class. *)
Definition endpoint_of (k : conn_class) (c : StreamConn) : string :=
  match k with
  | DataClass => _data_endpoint c
  | _ => _endpoint c
  end.

Definition with_ws (ws : sock) (s : state) : state :=
  mkState (set_ws (Some ws) (self s)) (world s).

Definition with_data_ws (ws : sock) (s : state) : state :=
  mkState (set_data_ws (Some ws) (self s)) (world s).

(** The state after [ensure_future] has started the read loop of [ws]. *)
Definition with_task (ws : sock) (s : state) : state :=
  mkState (self s)
    (mkWorld (EvSpawn ws :: events (world s)) (fresh (world s))
       (closed (world s)) (ws :: tasks (world s)) (opened_for (world s))).

(** Connection identities are handed out in increasing order: a closed
    connection was opened before. *)
Definition closed_are_old (s : state) : Prop :=
  forall ws, In ws (closed (world s)) -> ws < fresh (world s).

(** A reply that passes the check of [_connect]. *)
Definition authorizes (kv : list (string * json)) (data : json) : Prop :=
  assoc "data" kv = Some data /\
  exists dkv, data = JObj dkv /\ assoc "status" dkv = Some (JStr "authorized").

(** The state in which [_connect ws] ends when the peer authorizes with the
    reply [JObj kv] and the handlers of the authorized event return. *)
Definition connected (re_match : pattern -> string -> bool) (ws : sock)
  (data : json) (s : state) : state :=
  with_task ws
    (extend (fanout re_match (_handlers (self s)) "authorized" data)
       (with_ws ws (after_handshake ws s))).

(** ** A program logic for the monad *)

(** [hoare P m Q E]: from a state in [P], [m] either returns [a] in a state
    in [Q a] or raises in a state in [E]. *)
Definition hoare {A : Type} (P : state -> Prop) (m : M A)
  (Q : A -> state -> Prop) (E : state -> Prop) : Prop :=
  forall s, P s ->
    match m s with
    | (Ok a, s') => Q a s'
    | (Raise _, s') => E s'
    end.

(** A computation that does nothing but record effects. *)
Definition only_logs {A : Type} (m : M A) : Prop :=
  forall s, exists tr, snd (m s) = extend tr s.

(** A state predicate that does not look at the recorded effects. *)
Definition stable (P : state -> Prop) : Prop :=
  forall tr s, P s -> P (extend tr s).

(** The invariant of the router.  [pending] is a data connection whose read
    loop may already be started while [_ensure_data_ws] has not stored it
    yet. *)
Record InvX (pending : option sock) (s : state) : Prop := mkInvX {
  inv_closed_old :
    forall ws, In ws (closed (world s)) -> ws < fresh (world s);
  inv_opened_old :
    forall ws k, In (ws, k) (opened_for (world s)) -> ws < fresh (world s);
  inv_tasks_class :
    forall ws, In ws (tasks (world s)) ->
      class_of (world s) ws = Some EventsClass \/
      class_of (world s) ws = Some DataClass;
  inv_ws_old :
    forall ws, _ws (self s) = Some ws -> ws < fresh (world s);
  inv_data_ws_class :
    forall ws, _data_ws (self s) = Some ws ->
      class_of (world s) ws = Some DataClass;
  inv_data_tasks :
    forall ws, In ws (tasks (world s)) ->
      class_of (world s) ws = Some DataClass ->
      _data_ws (self s) = Some ws \/ pending = Some ws;
  inv_pending :
    pending <> None -> _data_ws (self s) = None
}.

Definition Inv : state -> Prop := InvX None.

(** The connection that [_ensure_data_ws] is about to store, if any. *)
Definition pend (k : conn_class) (ws : sock) : option sock :=
  match k with
  | DataClass => Some ws
  | _ => None
  end.

(** What holds between [websockets.connect] and the end of [_connect] for
    the connection [ws] opened for the socket class [k]. *)
Definition ready (k : conn_class) (ws : sock) (s : state) : Prop :=
  InvX None s /\ ws < fresh (world s) /\ class_of (world s) ws = Some k /\
  k <> FeedClass /\ (k = DataClass -> _data_ws (self s) = None).

(** ** Vocabulary of the statements, continued *)

(** The state in which the [finally] block of [_consume_msg] leaves the
    router when the read loop of [ws] ends in state [s]. *)
Definition after_loop_exit (ws : sock) (s : state) : state :=
  mkState
    (if option_sock_eqb (_data_ws (self s)) ws
     then set_data_ws None (self s)
     else set_ws None (self s))
    (mkWorld (EvClose ws :: events (world s)) (fresh (world s))
       (ws :: closed (world s))
       (filter (fun x => negb (Nat.eqb x ws)) (tasks (world s)))
       (opened_for (world s))).

(** [emits P m]: [m] only adds effects to the record, all of them in [P]. *)
Definition emits {A : Type} (P : event -> Prop) (m : M A) : Prop :=
  forall s, exists tr,
    events (world (snd (m s))) = rev tr ++ events (world s) /\ Forall P tr.

(** The effects that bringing up a socket class [k] and sending it the
    listen request for [chans] can perform. *)
Definition socket_phase_event (k : conn_class) (chans : list string)
  (ev : event) : Prop :=
  match ev with
  | EvConnect k' _ => k' = k
  | EvSend _ payload =>
      (exists key_id secret_key,
          payload = authenticate_request key_id secret_key)
      \/ payload = listen_request chans
  | EvRecv _ | EvSpawn _ | EvHandler _ _ _ => True
  | _ => False
  end.

(** A received payload that passes the check of [_connect]. *)
Definition authorizing (r : exn + frame) : Prop :=
  exists kv data, r = inr (Frame (Some (JObj kv))) /\ authorizes kv data.

(** From time [from] on, connections open, sends succeed, every received
    payload authorizes, handlers return and the feed client succeeds. *)
Definition cooperative (env : Env) (from : nat) : Prop :=
  forall t, from <= t ->
    on_connect env t = None /\ on_send env t = None /\
    authorizing (on_recv env t) /\ on_handler env t = None /\
    on_polygon env t = None.

(** The key id that [_ensure_nats] hands to [polygon.Stream]. *)
Definition feed_key (c : StreamConn) : string :=
  if contains "staging" (_base_url c) then (_key_id c ++ "-staging")%string
  else _key_id c.

(** The effects of one successful [if len(...) > 0] block of [subscribe]
    for a socket class whose connection has to be opened. *)
Definition socket_phase_trace (re_match : pattern -> string -> bool)
  (k : conn_class) (ws : sock) (data : json) (chans : list string)
  (c : StreamConn) : list event :=
  [EvConnect k (endpoint_of k c);
   EvSend ws (authenticate_request (_key_id c) (_secret_key c));
   EvRecv ws]
  ++ fanout re_match (_handlers c) "authorized" data
  ++ [EvSpawn ws; EvSend ws (listen_request chans)].

(** The effects of the feed block of [subscribe] when the feed client has to
    be created. *)
Definition feed_phase_trace (chans : list string) (c : StreamConn)
  : list event :=
  [EvPolygonStream (feed_key c); EvPolygonRegister ".*"; EvPolygonConnect;
   EvPolygonSubscribe chans].

(** [attempts k chans ev]: the effect [ev] belongs to the work that
    [subscribe] does for the partition [chans] of class [k]: opening the
    class's connection, sending the listen request for [chans], or calling
    the feed client. *)
Definition attempts (k : conn_class) (chans : list string) (ev : event)
  : Prop :=
  match ev with
  | EvConnect k' _ => k' = k /\ k <> FeedClass
  | EvSend _ payload => k <> FeedClass /\ payload = listen_request chans
  | EvPolygonStream _ | EvPolygonRegister _ | EvPolygonConnect
  | EvPolygonSubscribe _ => k = FeedClass
  | _ => False
  end.

(** ** States and environments of the worked instances *)

(** Peers that cooperate until time [n]; from then on every receive fails
    because the peer has closed the stream. *)
Definition dropping_env (reply : json) (n : nat) : Env :=
  mkEnv (fun _ => None) (fun _ => None)
        (fun t => if (t <? n)%nat then inr (Frame (Some reply))
                  else inl ConnectionClosed)
        (fun _ => None) (fun _ => None).

(** Peers that cooperate, with a first handler that raises. *)
Definition failing_handler_env (reply : json) (n : nat) : Env :=
  mkEnv (fun _ => None) (fun _ => None) (fun _ => inr (Frame (Some reply)))
        (fun t => if (t =? n)%nat then Some (OtherError 1) else None)
        (fun _ => None).

Definition account_message : json :=
  JObj [("stream", JStr "account_updates");
        ("data", JObj [("cash", JStr "100")])].

Definition trade_message : json :=
  JObj [("stream", JStr "T.AAPL"); ("data", JObj [("p", JNum 190)])].

(** A router with three handlers, two of which match T.AAPL. *)
Definition routed : state :=
  snd (register "Q.*" (AsyncDef 3)
         (snd (register "T.*" (AsyncDef 2)
                 (snd (register ".*" (AsyncDef 1) demo))))).

(** A router listening on the events socket. *)
Definition listening (env : Env) : state :=
  snd (subscribe simple_match env ["trade_updates"] demo).

(** A router with an account handler, listening on the events socket. *)
Definition account_listening : state :=
  snd (subscribe simple_match (steady_env authorized_reply) ["account_updates"]
         (snd (register "account_updates" (AsyncDef 7) demo))).

(** The runs that the worked instances look at. *)

Definition refused_run : result unit * state :=
  subscribe simple_match (steady_env unauthorized_reply)
    ["trade_updates"; "bars/AAPL"] demo.

Definition shared_run : result unit * state :=
  _ensure_data_ws simple_match (steady_env authorized_reply) demo.

Definition dropped_run : result unit * state :=
  _consume_msg simple_match (dropping_env authorized_reply 5) 1 0
    (listening (dropping_env authorized_reply 5)).

Definition statusless_reply : json := JObj [("data", JObj [])].

Definition statusless_run : result unit * state :=
  ensure_connected (steady_env statusless_reply) simple_match EventsClass demo.

Definition round_trip_run : result unit * state :=
  subscribe simple_match (steady_env authorized_reply)
    ["trade_updates"; "T.AAPL"; "bars/AAPL"] demo.


Definition aborted_fanout_run : result unit * state :=
  _dispatch simple_match (failing_handler_env authorized_reply 0) "T.AAPL"
    trade_message routed.

Definition account_run : result unit * state :=
  consume_once simple_match (steady_env account_message) 0 account_listening.

(** A router that has subscribed to an events channel and to a data
    channel, and the round trip from there. *)
Definition both_sockets : state :=
  snd (subscribe simple_match (steady_env authorized_reply)
         ["trade_updates"; "bars/AAPL"] demo).

Definition second_round_trip_run : result unit * state :=
  subscribe simple_match (steady_env authorized_reply)
    ["trade_updates"; "T.AAPL"; "bars/AAPL"] both_sockets.

Definition closed_router : state :=
  snd (close simple_match (steady_env authorized_reply) undisturbed
         (listening (steady_env authorized_reply))).

(** [close] during which the read loop of the events connection gets to
    run, and the [subscribe] that follows. *)
Definition woken_close_run : result unit * state :=
  close simple_match (steady_env authorized_reply)
    (mkInterleaving [(0, 1)] [] [])
    (listening (steady_env authorized_reply)).

Definition reconnect_run : result unit * state :=
  subscribe simple_match (steady_env authorized_reply) ["trade_updates"]
    (snd woken_close_run).

(** ** Frames, and the driver [run] *)

(** [keeps_self g m]: [m] leaves the part [g] of the router's fields as it
    was. *)
Definition keeps_self {A B : Type} (g : StreamConn -> B) (m : M A) : Prop :=
  forall s, g (self (snd (m s))) = g (self s).

(** [keeps_closed m]: [m] closes no connection. *)
Definition keeps_closed {A : Type} (m : M A) : Prop :=
  forall s, closed (world (snd (m s))) = closed (world s).

(** The handler table as [register] maintains it: one entry per pattern,
    coroutine functions only. *)
Definition table_ok (items : list (pattern * callable)) : Prop :=
  NoDup (map fst items) /\
  forall pat f, In (pat, f) items -> iscoroutinefunction f = true.



(** The read loops of one class that are alive. *)
Definition live_loops (k : conn_class) (s : state) : list sock :=
  filter (fun ws =>
            match class_of (world s) ws with
            | Some k' => conn_class_eqb k' k
            | None => false
            end) (tasks (world s)).

(** No two live read loops serve the events class, and none does while the
    events handle is absent; a task is started once. *)
Record EventsInv (s : state) : Prop := mkEventsInv {
  einv_one :
    forall x y, In x (tasks (world s)) -> In y (tasks (world s)) ->
      class_of (world s) x = Some EventsClass ->
      class_of (world s) y = Some EventsClass -> x = y;
  einv_none :
    _ws (self s) = None ->
    forall x, In x (tasks (world s)) ->
      class_of (world s) x <> Some EventsClass;
  einv_nodup : NoDup (tasks (world s))
}.

(** The two invariants together. *)
Definition Inv2 (s : state) : Prop := InvX None s /\ EventsInv s.

(** [ready] with what [EventsInv] needs between [websockets.connect] and the
    start of the read loop of [ws]. *)
Definition ready2 (k : conn_class) (ws : sock) (s : state) : Prop :=
  ready k ws s /\ EventsInv s /\ ~ In ws (tasks (world s)) /\
  (k = EventsClass ->
   forall x, In x (tasks (world s)) ->
     class_of (world s) x <> Some EventsClass).

(** [try: body finally: fin]: [fin] runs whatever [body] did; an exception of
    [fin] replaces the outcome of [body]. *)
Definition try_finally {A : Type} (body : M A) (fin : M unit) : M A :=
  fun s =>
    match body s with
    | (r, s1) =>
        match fin s1 with
        | (Ok _, s2) => (r, s2)
        | (Raise e, s2) => (Raise e, s2)
        end
    end.

(** [loop.run_forever()]: the event loop serves the read loops.  The call
    ends when the loop is stopped ([stop = None]) or interrupted by an
    exception. *)
Definition run_forever (re_match : pattern -> string -> bool) (env : Env)
  (schedule : list (sock * nat)) (stop : option exn) : M unit :=
  serve re_match env schedule;;
  answer stop.

(** [run] *)
Definition run (re_match : pattern -> string -> bool) (env : Env)
  (initial_channels : list string) (schedule : list (sock * nat))
  (stop : option exn) (i : interleaving) : M unit :=
  try_finally
    (subscribe re_match env initial_channels;;
     run_forever re_match env schedule stop)
    (close re_match env i).

(** ** Vocabulary of shutdown *)

(** The state after [ws.close()]. *)
Definition after_ws_close (ws : sock) (s : state) : state :=
  mkState (self s)
    (mkWorld (EvClose ws :: events (world s)) (fresh (world s))
       (ws :: closed (world s)) (tasks (world s)) (opened_for (world s))).

(** The state after the block of [close] for one socket field: nothing when
    the field is empty; otherwise the connection is closed and the event
    loop serves [schedule]. *)
Definition closing (re_match : pattern -> string -> bool) (env : Env)
  (field : StreamConn -> option sock) (schedule : list (sock * nat))
  (s : state) : state :=
  match field (self s) with
  | Some ws => snd (serve re_match env schedule (after_ws_close ws s))
  | None => s
  end.

(** [close()] has been called on the feed client. *)
Definition feed_closed (s : state) : bool :=
  existsb (fun ev => match ev with EvPolygonClose => true | _ => false end)
    (events (world s)).

(** [winds_down s s']: between [s] and [s'] effects were recorded,
    connections were closed and read loops ended, and nothing else
    happened.  A socket field is as before or empty; every other field is as
    before; connections stay closed and finished tasks stay finished; and
    the fields are untouched when every read loop is still alive. *)
Record winds_down (s s' : state) : Prop := mkWindsDown {
  wd_rest :
    set_ws None (set_data_ws None (self s')) =
    set_ws None (set_data_ws None (self s));
  wd_ws : _ws (self s') = _ws (self s) \/ _ws (self s') = None;
  wd_data_ws :
    _data_ws (self s') = _data_ws (self s) \/ _data_ws (self s') = None;
  wd_closed :
    forall x, In x (closed (world s)) -> In x (closed (world s'));
  wd_tasks : forall x, In x (tasks (world s')) -> In x (tasks (world s));
  wd_alive :
    (forall x, In x (tasks (world s)) -> In x (tasks (world s'))) ->
    self s' = self s;
  wd_data_closed :
    forall d, _data_ws (self s) = Some d ->
      _data_ws (self s') = Some d \/ In d (closed (world s'));
  wd_events : exists tr, events (world s') = rev tr ++ events (world s);
  wd_fresh : fresh (world s') = fresh (world s);
  wd_opened : opened_for (world s') = opened_for (world s)
}.

(** The effects of bringing a socket class up: opening the connection and
    the authentication handshake. *)
Definition handshake_event (k : conn_class) (ev : event) : Prop :=
  match ev with
  | EvConnect k' _ => k' = k
  | EvSend _ payload =>
      exists key_id secret_key,
        payload = authenticate_request key_id secret_key
  | EvRecv _ | EvSpawn _ | EvHandler _ _ _ => True
  | _ => False
  end.


(** ** Vocabulary of the round trip *)

(** The handle field of a socket class. *)
Definition socket_handle (k : conn_class) (c : StreamConn) : option sock :=
  match k with
  | DataClass => _data_ws c
  | _ => _ws c
  end.

(** The connection on which the block of [subscribe] for the socket class
    [k] sends its listen request when it starts in [s]: the one that the
    handle field holds, or the one that the block is going to open. *)
Definition phase_target (k : conn_class) (s : state) : sock :=
  match socket_handle k (self s) with
  | Some ws => ws
  | None => fresh (world s)
  end.

Definition store (k : conn_class) (ws : sock) (s : state) : state :=
  match k with
  | DataClass => with_data_ws ws s
  | _ => with_ws ws s
  end.

(** The state in which [_ensure_ws] (for the data class,
    [_ensure_data_ws]) returns when it had to open a connection in [s]; [tr]
    are the effects of the handshake. *)
Definition brought_up (k : conn_class) (tr : list event) (s : state) : state :=
  store k (fresh (world s))
    (with_task (fresh (world s))
       (extend tr
          (with_ws (fresh (world s))
             (after_connect k (endpoint_of k (self s)) s)))).

(** The connections held in the two socket fields are open. *)
Definition stored_open (s : state) : Prop :=
  forall ws,
    _ws (self s) = Some ws \/ _data_ws (self s) = Some ws ->
    existsb (Nat.eqb ws) (closed (world s)) = false.

(** What the block of [subscribe] for the socket class [k] has done between
    [s] and [s1] when it returns; [t] are its effects. *)
Record socket_phase_done (k : conn_class) (chans : list string)
  (s s1 : state) (t : list event) : Prop := mkSocketPhaseDone {
  spd_events : events (world s1) = rev t ++ events (world s);
  spd_listen : listen_sends t = [(phase_target k s, listen_request chans)];
  spd_feed : feed_subscribes t = [];
  spd_handle : socket_handle k (self s1) = Some (phase_target k s);
  spd_rest :
    set_ws None (set_data_ws None (self s1)) =
    set_ws None (set_data_ws None (self s));
  spd_data : k = EventsClass -> _data_ws (self s1) = _data_ws (self s);
  spd_fresh :
    fresh (world s1) =
    match socket_handle k (self s) with
    | Some _ => fresh (world s)
    | None => S (fresh (world s))
    end;
  spd_opened :
    opened_for (world s1) =
    match socket_handle k (self s) with
    | Some _ => opened_for (world s)
    | None => (fresh (world s), k) :: opened_for (world s)
    end;
  spd_closed : closed (world s1) = closed (world s);
  spd_connect :
    socket_handle k (self s) = None ->
    In (EvConnect k (endpoint_of k (self s))) t
}.

(** The same for the feed block. *)
Record feed_phase_done (chans : list string) (s s1 : state)
  (t : list event) : Prop := mkFeedPhaseDone {
  fpd_events : events (world s1) = rev t ++ events (world s);
  fpd_listen : listen_sends t = [];
  fpd_feed : feed_subscribes t = [chans];
  fpd_polygon :
    polygon (self s1) =
    Some (match polygon (self s) with
          | Some key => key
          | None => feed_key (self s)
          end);
  fpd_ws : _ws (self s1) = _ws (self s);
  fpd_data_ws : _data_ws (self s1) = _data_ws (self s);
  fpd_opened : opened_for (world s1) = opened_for (world s);
  fpd_created :
    polygon (self s) = None ->
    In (EvPolygonStream (feed_key (self s))) t /\ In EvPolygonConnect t
}.

(** ** States and runs of the further worked instances *)


Definition staging_demo : state :=
  __init__ "KEY" "SECRET" "https://staging-api.alpaca.markets"
    "https://data.alpaca.markets".

(** Peers that cooperate, with a feed whose call at time [n] fails. *)
Definition feed_down_env (n : nat) : Env :=
  mkEnv (fun _ => None) (fun _ => None)
        (fun _ => inr (Frame (Some authorized_reply)))
        (fun _ => None)
        (fun t => if (t =? n)%nat then Some (OtherError 2) else None).

Definition feed_down_run : result unit * state :=
  _ensure_nats (feed_down_env 2) staging_demo.

Definition bodiless_message : json := JObj [("stream", JStr "T.AAPL")].

Definition heartbeat : json := JObj [("stream", JNull)].

Definition heartbeat_run : result unit * state :=
  consume_once simple_match (steady_env heartbeat) 0
    (listening (steady_env authorized_reply)).

Definition refused_connect : result unit * state :=
  _ensure_ws simple_match (steady_env unauthorized_reply) demo.

Definition shutdown_run : result unit * state :=
  _consume_msg simple_match (steady_env authorized_reply) 1 0 closed_router.

Definition refused_driver_run : result unit * state :=
  run simple_match (steady_env unauthorized_reply) ["trade_updates"] [] None
    undisturbed demo.


(** A router with a handler of the authorized event, and the run in which
    that handler raises while the events socket is brought up. *)
Definition greeted : state := snd (register "authorized" (AsyncDef 9) demo).

Definition greeting_fails_run : result unit * state :=
  _ensure_ws simple_match (failing_handler_env authorized_reply 3) greeted.

(** * Properties *)

(** ** The classifier *)

Lemma prefix_iff_append (p c : string) :
  String.prefix p c = true <-> exists r, c = (p ++ r)%string.
Proof.
  revert c; induction p as [|a p IH]; intros c.
  - split; [intros _; exists c; reflexivity | intros _; now destruct c].
  - destruct c as [|b c]; simpl.
    + split; [discriminate | intros [r Hr]; discriminate].
    + destruct (ascii_dec a b) as [->|Hab].
      * rewrite IH. split; intros [r Hr]; exists r; [now subst | now inversion Hr].
      * split; [discriminate | intros [r Hr]; inversion Hr; congruence].
Qed.

Lemma startswith_iff (c : string) (prefixes : list string) :
  startswith c prefixes = true <->
  exists p, In p prefixes /\ exists r, c = (p ++ r)%string.
Proof.
  unfold startswith. rewrite existsb_exists.
  split; intros [p [Hin Hp]]; exists p; split; auto; now apply prefix_iff_append.
Qed.

Lemma partition_fold (channels : list string) (acc : partitions) :
  fold_left partition_step channels acc =
  mkPartitions
    (ws_channels acc ++ filter (in_class EventsClass) channels)
    (data_channels acc ++ filter (in_class DataClass) channels)
    (nats_channels acc ++ filter (in_class FeedClass) channels).
Proof.
  revert acc; induction channels as [|c l IH]; intros [w d n].
  - cbn. now rewrite !app_nil_r.
  - cbn [fold_left filter]. rewrite IH.
    assert (Hc : forall k, in_class k c =
              conn_class_eqb
                (if startswith c nats_prefixes then FeedClass
                 else if startswith c data_prefixes then DataClass
                 else EventsClass) k) by reflexivity.
    rewrite !Hc. unfold partition_step.
    destruct (startswith c nats_prefixes);
      [|destruct (startswith c data_prefixes)];
      cbn [conn_class_eqb ws_channels data_channels nats_channels];
      rewrite <- ?app_assoc; reflexivity.
Qed.

Lemma partition_channels_filter (channels : list string) :
  partition_channels channels =
  mkPartitions (filter (in_class EventsClass) channels)
               (filter (in_class DataClass) channels)
               (filter (in_class FeedClass) channels).
Proof. unfold partition_channels. now rewrite partition_fold. Qed.

Lemma classify_cases (c : string) :
  (classify c = FeedClass <-> startswith c nats_prefixes = true)
  /\ (classify c = DataClass <->
        startswith c nats_prefixes = false /\ startswith c data_prefixes = true)
  /\ (classify c = EventsClass <->
        startswith c nats_prefixes = false /\ startswith c data_prefixes = false).
Proof.
  unfold classify.
  destruct (startswith c nats_prefixes), (startswith c data_prefixes);
    repeat split; intros; try discriminate; try tauto;
    match goal with H : _ /\ _ |- _ => destruct H; discriminate end.
Qed.

(** C6: a channel name belongs to the feed class exactly when it starts
    with one of Q., T., A., AM.; otherwise to the data class exactly when it
    starts with one of bars/, iex/, sip/; otherwise to the events class.  A
    feed prefix at the start decides whatever follows it, and each of the
    three lists built from a batch is the batch filtered by class, hence in
    the requested order. *)
Theorem classifier_prefix_rules (channels : list string) (c rest : string) :
  (classify c = FeedClass <->
     exists p, In p ["Q."; "T."; "A."; "AM."] /\ exists r, c = (p ++ r)%string)
  /\ (classify c = DataClass <->
        classify c <> FeedClass /\
        exists p, In p ["bars/"; "iex/"; "sip/"] /\ exists r, c = (p ++ r)%string)
  /\ (classify c = EventsClass <->
        ~ (exists p, In p ["Q."; "T."; "A."; "AM."] /\ exists r, c = (p ++ r)%string)
        /\ ~ (exists p, In p ["bars/"; "iex/"; "sip/"] /\ exists r, c = (p ++ r)%string))
  /\ classify ("Q." ++ rest) = FeedClass
  /\ classify ("T." ++ rest) = FeedClass
  /\ classify ("A." ++ rest) = FeedClass
  /\ classify ("AM." ++ rest) = FeedClass
  /\ partition_channels channels =
     mkPartitions (filter (fun x => conn_class_eqb (classify x) EventsClass) channels)
                  (filter (fun x => conn_class_eqb (classify x) DataClass) channels)
                  (filter (fun x => conn_class_eqb (classify x) FeedClass) channels).
Proof.
  destruct (classify_cases c) as (HF & HD & HE).
  pose proof (startswith_iff c nats_prefixes) as Hn.
  pose proof (startswith_iff c data_prefixes) as Hd.
  change ["Q."; "T."; "A."; "AM."] with nats_prefixes.
  change ["bars/"; "iex/"; "sip/"] with data_prefixes.
  split; [now rewrite HF|].
  split.
  { rewrite HD, HF, <- Hd. split; intros [H1 H2]; split; auto.
    - congruence.
    - now destruct (startswith c nats_prefixes). }
  split.
  { rewrite HE, <- Hn, <- Hd. split; intros [H1 H2]; split.
    - congruence.
    - congruence.
    - now destruct (startswith c nats_prefixes).
    - now destruct (startswith c data_prefixes). }
  repeat (split; [now destruct rest|]).
  apply partition_channels_filter.
Qed.

(** ** Traces *)

Lemma extend_nil (s : state) : extend [] s = s.
Proof. now destruct s as [c [ev f cl t o]]. Qed.

Lemma extend_extend (t1 t2 : list event) (s : state) :
  extend t2 (extend t1 s) = extend (t1 ++ t2) s.
Proof. unfold extend; cbn. now rewrite rev_app_distr, app_assoc. Qed.

Lemma clock_extend (tr : list event) (s : state) :
  clock (extend tr s) = List.length tr + clock s.
Proof. unfold clock, extend; cbn. now rewrite length_app, length_rev. Qed.

Lemma trace_between_events (s s' : state) (tr : list event) :
  events (world s') = rev tr ++ events (world s) ->
  trace_between s s' = tr.
Proof.
  intros H. unfold trace_between, clock. rewrite H, length_app, length_rev.
  replace (List.length tr + List.length (events (world s))
           - List.length (events (world s))) with (List.length (rev tr))
    by (rewrite length_rev; lia).
  rewrite firstn_app, Nat.sub_diag, firstn_all. cbn.
  now rewrite app_nil_r, rev_involutive.
Qed.

Lemma trace_between_extend (tr : list event) (s : state) :
  trace_between s (extend tr s) = tr.
Proof. now apply trace_between_events. Qed.

(** ** Dispatch *)

Section DispatchFacts.

Variable re_match : pattern -> string -> bool.
Variable env : Env.

Lemma dispatch_items_returns items channel kv data :
  assoc "data" kv = Some data ->
  forall s,
    (forall t, clock s <= t -> on_handler env t = None) ->
    dispatch_items re_match env items channel (JObj kv) s =
    (Ok tt, extend (fanout re_match items channel data) s).
Proof.
  intros Hdata. induction items as [|[pat h] rest IH]; intros s Hret.
  - cbn. now rewrite extend_nil.
  - cbn [dispatch_items]. unfold fanout, matching. cbn [filter fst snd].
    unfold bind at 1.
    destruct (re_match pat channel).
    + cbn [getitem]. rewrite Hdata.
      unfold bind, ret, call_handler, now, emit, modify_world; cbn.
      rewrite (Hret (clock s)) by lia. cbn.
      change (mkState (self s) (log (EvHandler h channel (_cast channel data)) (world s)))
        with (extend [EvHandler h channel (_cast channel data)] s).
      rewrite IH, extend_extend; [reflexivity|].
      intros t Ht. apply Hret. rewrite clock_extend in Ht. cbn in Ht. lia.
    + unfold ret. now apply IH.
Qed.

Lemma dispatch_items_prefix items channel kv data :
  assoc "data" kv = Some data ->
  forall s, exists n,
    snd (dispatch_items re_match env items channel (JObj kv) s) =
    extend (firstn n (fanout re_match items channel data)) s.
Proof.
  intros Hdata. induction items as [|[pat h] rest IH]; intros s.
  - exists 0. cbn. now rewrite extend_nil.
  - cbn [dispatch_items]. unfold fanout, matching. cbn [filter fst snd].
    unfold bind at 1.
    destruct (re_match pat channel).
    + cbn [getitem]. rewrite Hdata.
      unfold bind, ret, call_handler, now, emit, modify_world; cbn.
      change (mkState (self s) (log (EvHandler h channel (_cast channel data)) (world s)))
        with (extend [EvHandler h channel (_cast channel data)] s).
      destruct (on_handler env (clock s)); cbn.
      * exists 1. reflexivity.
      * destruct (IH (extend [EvHandler h channel (_cast channel data)] s))
          as [n Hn].
        exists (S n). rewrite Hn, extend_extend. reflexivity.
    + unfold ret. apply IH.
Qed.


Lemma _dispatch_items channel msg s :
  _dispatch re_match env channel msg s =
  dispatch_items re_match env (_handlers (self s)) channel msg s.
Proof. reflexivity. Qed.


End DispatchFacts.







Lemma in_firstn_in {A : Type} (x : A) (n : nat) (l : list A) :
  In x (firstn n l) -> In x l.
Proof.
  revert l; induction n as [|n IH]; intros [|a l]; cbn; try tauto.
  intros [H|H]; auto.
Qed.

Lemma consume_once_dispatches re_match env ws s channel kv :
  existsb (Nat.eqb ws) (closed (world s)) = false ->
  on_recv env (clock s) = inr (Frame (Some (JObj kv))) ->
  assoc "stream" kv = Some (JStr channel) ->
  consume_once re_match env ws s =
  dispatch_items re_match env (_handlers (self s)) channel (JObj kv)
    (extend [EvRecv ws] s).
Proof.
  intros Hopen Hrecv Hstream.
  unfold consume_once, ws_recv, bind, now, emit, modify_world, is_closed; cbn.
  rewrite Hopen, Hrecv; cbn. rewrite Hstream. reflexivity.
Qed.

(** C9: an inbound socket message with stream field [channel] and data body
    [data] reaches handlers only with that channel and with the entity
    [Account data] when the channel is account_updates, [Entity data] for
    every other channel; when the handlers return, every entry whose pattern
    matches receives exactly that entity. *)
Theorem account_updates_cast (re_match : pattern -> string -> bool)
  (env : Env) (s : state) (ws : sock) (channel : string)
  (kv : list (string * json)) (data : json) :
  existsb (Nat.eqb ws) (closed (world s)) = false ->
  on_recv env (clock s) = inr (Frame (Some (JObj kv))) ->
  assoc "stream" kv = Some (JStr channel) ->
  assoc "data" kv = Some data ->
  let tr := trace_between s (snd (consume_once re_match env ws s)) in
  let ent := if String.eqb channel "account_updates"
             then Account data else Entity data in
  (forall f c e, In (EvHandler f c e) tr -> c = channel /\ e = ent)
  /\ ((forall t, clock s < t -> on_handler env t = None) ->
      tr = EvRecv ws ::
           map (fun entry => EvHandler (snd entry) channel ent)
               (filter (fun entry => re_match (fst entry) channel)
                       (_handlers (self s)))).
Proof.
  intros Hopen Hrecv Hstream Hdata tr ent.
  unfold tr. rewrite (consume_once_dispatches _ _ _ _ _ _ Hopen Hrecv Hstream).
  split.
  - destruct (dispatch_items_prefix re_match env (_handlers (self s)) channel
                kv data Hdata (extend [EvRecv ws] s)) as [n Hn].
    rewrite Hn, extend_extend, trace_between_extend.
    intros f c e [Hin|Hin]; [discriminate|].
    apply in_firstn_in in Hin. unfold fanout in Hin.
    apply in_map_iff in Hin. destruct Hin as [entry [Heq _]].
    inversion Heq; subst. split; reflexivity.
  - intros Hret.
    rewrite (dispatch_items_returns re_match env _ _ _ _ Hdata).
    + cbn [snd]. rewrite extend_extend, trace_between_extend. reflexivity.
    + intros t Ht. apply Hret. rewrite clock_extend in Ht. cbn in Ht. lia.
Qed.

(** ** Lazy connection and shutdown *)

Lemma trace_between_same (s : state) : trace_between s s = [].
Proof. unfold trace_between. now rewrite Nat.sub_diag. Qed.

Lemma ensure_present re_match env k s :
  handle_present k (self s) = true ->
  ensure_connected env re_match k s = (Ok tt, s).
Proof.
  destruct k; cbn; unfold _ensure_ws, _ensure_data_ws, _ensure_nats, bind, gets.
  - destruct (_ws (self s)); [reflexivity | discriminate].
  - destruct (_data_ws (self s)); [reflexivity | discriminate].
  - destruct (polygon (self s)); [reflexivity | discriminate].
Qed.

(** C8: when the handle of a connection class is present, bringing that
    class up returns at once in the same state: no effect is performed (no
    connect, no handshake, no read loop started), for the events socket,
    the data socket and the feed client alike; doing it twice is the same
    as doing it once. *)
Theorem ensure_connected_idempotent (re_match : pattern -> string -> bool)
  (env : Env) (k : conn_class) (s : state) :
  handle_present k (self s) = true ->
  ensure_connected env re_match k s = (Ok tt, s)
  /\ trace_between s (snd (ensure_connected env re_match k s)) = []
  /\ tasks (world (snd (ensure_connected env re_match k s))) = tasks (world s)
  /\ bind (ensure_connected env re_match k)
          (fun _ => ensure_connected env re_match k) s
     = ensure_connected env re_match k s.
Proof.
  intros H. pose proof (ensure_present re_match env k s H) as E.
  unfold bind. rewrite !E. cbn [snd].
  repeat split; auto using trace_between_same.
Qed.

Lemma send_on_closed env ws payload s :
  existsb (Nat.eqb ws) (closed (world s)) = true ->
  ws_send env ws payload s = (Raise ConnectionClosed, extend [EvSend ws payload] s).
Proof.
  intros H. unfold ws_send, bind, now, emit, modify_world, is_closed; cbn.
  now rewrite H.
Qed.

Lemma subscribe_ws_on_closed re_match env s ws chans :
  chans <> [] ->
  _ws (self s) = Some ws ->
  existsb (Nat.eqb ws) (closed (world s)) = true ->
  subscribe_ws re_match env chans s =
  (Raise ConnectionClosed, extend [EvSend ws (listen_request chans)] s).
Proof.
  intros Hne Hws Hcl. destruct chans as [|c chans]; [congruence|].
  unfold subscribe_ws, bind, _ensure_ws, field_send, gets, ret; cbn.
  rewrite !Hws. now apply send_on_closed.
Qed.

Lemma subscribe_data_on_closed re_match env s ws chans :
  chans <> [] ->
  _data_ws (self s) = Some ws ->
  existsb (Nat.eqb ws) (closed (world s)) = true ->
  subscribe_data re_match env chans s =
  (Raise ConnectionClosed, extend [EvSend ws (listen_request chans)] s).
Proof.
  intros Hne Hws Hcl. destruct chans as [|c chans]; [congruence|].
  unfold subscribe_data, bind, _ensure_data_ws, field_send, gets, ret; cbn.
  rewrite !Hws. now apply send_on_closed.
Qed.

(** ** The authentication handshake *)

Ltac run_monad :=
  unfold bind, ret, raise, gets, now, emit, modify_world, modify_self,
    is_closed, answer, clock in *;
  cbn;
  repeat match goal with
         | H : ?l = _ |- context [?l] => rewrite H; cbn
         end.

Lemma fresh_is_open (s : state) :
  closed_are_old s ->
  existsb (Nat.eqb (fresh (world s))) (closed (world s)) = false.
Proof.
  intros H. destruct (existsb _ _) eqn:E; [|reflexivity].
  apply existsb_exists in E. destruct E as [x [Hin Hx]].
  apply Nat.eqb_eq in Hx. subst x. apply H in Hin. lia.
Qed.

Section Handshake.

Variable re_match : pattern -> string -> bool.
Variable env : Env.

Lemma _connect_refused_no_data ws s kv :
  existsb (Nat.eqb ws) (closed (world s)) = false ->
  on_send env (clock s) = None ->
  on_recv env (S (clock s)) = inr (Frame (Some (JObj kv))) ->
  assoc "data" kv = None ->
  _connect re_match env ws s =
  (Raise (auth_failure (JObj kv)), after_handshake ws s).
Proof.
  intros Hopen Hsend Hrecv Hdata.
  unfold _connect, ws_send, ws_recv, loads, py_in, getitem.
  run_monad. reflexivity.
Qed.

Lemma _connect_refused_status ws s kv dkv status :
  existsb (Nat.eqb ws) (closed (world s)) = false ->
  on_send env (clock s) = None ->
  on_recv env (S (clock s)) = inr (Frame (Some (JObj kv))) ->
  assoc "data" kv = Some (JObj dkv) ->
  assoc "status" dkv = Some status ->
  json_is_str "authorized" status = false ->
  _connect re_match env ws s =
  (Raise (auth_failure (JObj kv)), after_handshake ws s).
Proof.
  intros Hopen Hsend Hrecv Hdata Hstatus Hno.
  unfold _connect, ws_send, ws_recv, loads, py_in, getitem.
  run_monad. reflexivity.
Qed.

Lemma _connect_status_missing ws s kv dkv :
  existsb (Nat.eqb ws) (closed (world s)) = false ->
  on_send env (clock s) = None ->
  on_recv env (S (clock s)) = inr (Frame (Some (JObj kv))) ->
  assoc "data" kv = Some (JObj dkv) ->
  assoc "status" dkv = None ->
  _connect re_match env ws s =
  (Raise (KeyError "status"), after_handshake ws s).
Proof.
  intros Hopen Hsend Hrecv Hdata Hstatus.
  unfold _connect, ws_send, ws_recv, loads, py_in, getitem.
  run_monad. reflexivity.
Qed.

Lemma _connect_authorized ws s kv dkv :
  existsb (Nat.eqb ws) (closed (world s)) = false ->
  on_send env (clock s) = None ->
  on_recv env (S (clock s)) = inr (Frame (Some (JObj kv))) ->
  assoc "data" kv = Some (JObj dkv) ->
  assoc "status" dkv = Some (JStr "authorized") ->
  _connect re_match env ws s =
  match dispatch_items re_match env (_handlers (self s)) "authorized"
          (JObj kv) (with_ws ws (after_handshake ws s)) with
  | (Ok _, s') => (Ok tt, with_task ws s')
  | (Raise e, s') => (Raise e, s')
  end.
Proof.
  intros Hopen Hsend Hrecv Hdata Hstatus.
  unfold _connect, ws_send, ws_recv, loads, py_in, getitem, _dispatch,
    ensure_future.
  run_monad.
  unfold with_ws, after_handshake, extend; cbn.
  destruct (dispatch_items _ _ _ _ _ _) as [[[]|e] s']; reflexivity.
Qed.

#[local] Arguments _connect : simpl never.

Lemma _ensure_ws_connects s :
  _ws (self s) = None ->
  on_connect env (clock s) = None ->
  _ensure_ws re_match env s =
  match _connect re_match env (fresh (world s))
          (after_connect EventsClass (_endpoint (self s)) s) with
  | (Ok _, s') => (Ok tt, with_ws (fresh (world s)) s')
  | (Raise e, s') => (Raise e, s')
  end.
Proof.
  intros Hws Hconn. unfold _ensure_ws, websockets_connect.
  run_monad. unfold after_connect, log; cbn.
  destruct (_connect _ _ _ _) as [[[]|e] s']; reflexivity.
Qed.

Lemma _ensure_data_ws_connects s :
  _data_ws (self s) = None ->
  on_connect env (clock s) = None ->
  _ensure_data_ws re_match env s =
  match _connect re_match env (fresh (world s))
          (after_connect DataClass (_data_endpoint (self s)) s) with
  | (Ok _, s') => (Ok tt, with_data_ws (fresh (world s)) s')
  | (Raise e, s') => (Raise e, s')
  end.
Proof.
  intros Hws Hconn. unfold _ensure_data_ws, websockets_connect.
  run_monad. unfold after_connect, log; cbn.
  destruct (_connect _ _ _ _) as [[[]|e] s']; reflexivity.
Qed.

Lemma _connect_succeeds ws s kv data :
  existsb (Nat.eqb ws) (closed (world s)) = false ->
  on_send env (clock s) = None ->
  on_recv env (S (clock s)) = inr (Frame (Some (JObj kv))) ->
  authorizes kv data ->
  (forall t, S (clock s) < t -> on_handler env t = None) ->
  _connect re_match env ws s = (Ok tt, connected re_match ws data s).
Proof.
  intros Hopen Hsend Hrecv [Hdata [dkv [-> Hstatus]]] Hret.
  rewrite (_connect_authorized ws s kv dkv Hopen Hsend Hrecv Hdata Hstatus).
  rewrite (dispatch_items_returns re_match env _ _ _ _ Hdata).
  - reflexivity.
  - intros t Ht. apply Hret. unfold with_ws, after_handshake in Ht.
    unfold clock in *. cbn in Ht. lia.
Qed.

Lemma _ensure_ws_succeeds s kv data :
  _ws (self s) = None ->
  closed_are_old s ->
  on_connect env (clock s) = None ->
  on_send env (S (clock s)) = None ->
  on_recv env (S (S (clock s))) = inr (Frame (Some (JObj kv))) ->
  authorizes kv data ->
  (forall t, S (S (clock s)) < t -> on_handler env t = None) ->
  _ensure_ws re_match env s =
  (Ok tt,
   with_ws (fresh (world s))
     (connected re_match (fresh (world s)) data
        (after_connect EventsClass (_endpoint (self s)) s))).
Proof.
  intros Hws Hold Hconn Hsend Hrecv Hauth Hret.
  rewrite (_ensure_ws_connects s Hws Hconn).
  rewrite (_connect_succeeds _ _ kv data);
    [reflexivity | exact (fresh_is_open s Hold) | exact Hsend | exact Hrecv
    | exact Hauth | exact Hret].
Qed.

Lemma _ensure_data_ws_succeeds s kv data :
  _data_ws (self s) = None ->
  closed_are_old s ->
  on_connect env (clock s) = None ->
  on_send env (S (clock s)) = None ->
  on_recv env (S (S (clock s))) = inr (Frame (Some (JObj kv))) ->
  authorizes kv data ->
  (forall t, S (S (clock s)) < t -> on_handler env t = None) ->
  _ensure_data_ws re_match env s =
  (Ok tt,
   with_data_ws (fresh (world s))
     (connected re_match (fresh (world s)) data
        (after_connect DataClass (_data_endpoint (self s)) s))).
Proof.
  intros Hws Hold Hconn Hsend Hrecv Hauth Hret.
  rewrite (_ensure_data_ws_connects s Hws Hconn).
  rewrite (_connect_succeeds _ _ kv data);
    [reflexivity | exact (fresh_is_open s Hold) | exact Hsend | exact Hrecv
    | exact Hauth | exact Hret].
Qed.

End Handshake.

(** C4 (what the code does): with no handle stored for a socket class,
    bringing the class up against a peer whose reply is the JSON object
    [kv] ends as follows.  A reply without a data field, and a data object
    whose status is not "authorized", raise the authentication failure
    carrying the reply; a data object without a status field raises
    [KeyError "status"] instead.  In all three cases the state is the one
    after the two handshake messages, with the handle still absent. *)
Theorem handshake_refusal_outcomes (re_match : pattern -> string -> bool)
  (env : Env) (k : conn_class) (s : state) (kv : list (string * json)) :
  k <> FeedClass ->
  handle_present k (self s) = false ->
  closed_are_old s ->
  on_connect env (clock s) = None ->
  on_send env (S (clock s)) = None ->
  on_recv env (S (S (clock s))) = inr (Frame (Some (JObj kv))) ->
  let s' := after_handshake (fresh (world s))
              (after_connect k (endpoint_of k (self s)) s) in
  (assoc "data" kv = None ->
   ensure_connected env re_match k s = (Raise (auth_failure (JObj kv)), s'))
  /\ (forall dkv status,
        assoc "data" kv = Some (JObj dkv) ->
        assoc "status" dkv = Some status ->
        json_is_str "authorized" status = false ->
        ensure_connected env re_match k s =
        (Raise (auth_failure (JObj kv)), s'))
  /\ (forall dkv,
        assoc "data" kv = Some (JObj dkv) ->
        assoc "status" dkv = None ->
        ensure_connected env re_match k s = (Raise (KeyError "status"), s'))
  /\ handle_present k (self s') = false.
Proof.
  intros Hk Habsent Hold Hconn Hsend Hrecv s'.
  pose proof (fresh_is_open s Hold) as Hopen.
  destruct k; [| |congruence]; cbn in Habsent; cbn [ensure_connected endpoint_of].
  - destruct (_ws (self s)) eqn:Hws; [discriminate|].
    repeat split; intros.
    + rewrite (_ensure_ws_connects re_match env s Hws Hconn).
      now rewrite (_connect_refused_no_data re_match env _ _ kv).
    + rewrite (_ensure_ws_connects re_match env s Hws Hconn).
      now rewrite (_connect_refused_status re_match env _ _ kv dkv status).
    + rewrite (_ensure_ws_connects re_match env s Hws Hconn).
      now rewrite (_connect_status_missing re_match env _ _ kv dkv).
    + subst s'. cbn. now rewrite Hws.
  - destruct (_data_ws (self s)) eqn:Hws; [discriminate|].
    repeat split; intros.
    + rewrite (_ensure_data_ws_connects re_match env s Hws Hconn).
      now rewrite (_connect_refused_no_data re_match env _ _ kv).
    + rewrite (_ensure_data_ws_connects re_match env s Hws Hconn).
      now rewrite (_connect_refused_status re_match env _ _ kv dkv status).
    + rewrite (_ensure_data_ws_connects re_match env s Hws Hconn).
      now rewrite (_connect_status_missing re_match env _ _ kv dkv).
    + subst s'. cbn. now rewrite Hws.
Qed.


(** ** Rules of the program logic *)

Lemma hoare_bind {A B : Type} (P : state -> Prop) (m : M A) (k : A -> M B)
  (Q : A -> state -> Prop) (R : B -> state -> Prop) (E : state -> Prop) :
  hoare P m Q E ->
  (forall a, hoare (Q a) (k a) R E) ->
  hoare P (bind m k) R E.
Proof.
  intros Hm Hk s HP. unfold bind. specialize (Hm s HP).
  destruct (m s) as [[a|e] s']; [now apply Hk | exact Hm].
Qed.

Lemma hoare_weaken {A : Type} (P P' : state -> Prop) (m : M A)
  (Q Q' : A -> state -> Prop) (E E' : state -> Prop) :
  hoare P' m Q' E' ->
  (forall s, P s -> P' s) ->
  (forall a s, Q' a s -> Q a s) ->
  (forall s, E' s -> E s) ->
  hoare P m Q E.
Proof.
  intros H HP HQ HE s Hs. specialize (H s (HP s Hs)).
  destruct (m s) as [[a|e] s']; auto.
Qed.

Lemma hoare_ret {A : Type} (a : A) (Q : A -> state -> Prop)
  (E : state -> Prop) :
  hoare (Q a) (ret a) Q E.
Proof. intros s H. exact H. Qed.

Lemma hoare_skip {A : Type} (a : A) (P : state -> Prop) :
  hoare P (ret a) (fun _ => P) P.
Proof. intros s H. exact H. Qed.

Lemma hoare_raise {A : Type} (e : exn) (Q : A -> state -> Prop)
  (E : state -> Prop) :
  hoare E (raise e) Q E.
Proof. intros s H. exact H. Qed.

Lemma hoare_gets {A : Type} (f : StreamConn -> A) (P : state -> Prop)
  (E : state -> Prop) :
  hoare P (gets f) (fun a s => P s /\ a = f (self s)) E.
Proof. intros s H. cbn. auto. Qed.

Lemma hoare_only_logs {A : Type} (m : M A) (P : state -> Prop) :
  only_logs m -> stable P -> hoare P m (fun _ => P) P.
Proof.
  intros Hm HP s Hs. destruct (Hm s) as [tr Htr].
  destruct (m s) as [[a|e] s']; cbn in Htr; subst s'; now apply HP.
Qed.

Lemma only_logs_ret {A : Type} (a : A) : only_logs (ret a).
Proof. intros s. exists []. cbn. now rewrite extend_nil. Qed.

Lemma only_logs_raise {A : Type} (e : exn) : only_logs (@raise A e).
Proof. intros s. exists []. cbn. now rewrite extend_nil. Qed.

Lemma only_logs_gets {A : Type} (f : StreamConn -> A) : only_logs (gets f).
Proof. intros s. exists []. cbn. now rewrite extend_nil. Qed.

Lemma only_logs_now : only_logs now.
Proof. intros s. exists []. cbn. now rewrite extend_nil. Qed.

Lemma only_logs_is_closed ws : only_logs (is_closed ws).
Proof. intros s. exists []. cbn. now rewrite extend_nil. Qed.

Lemma only_logs_emit (e : event) : only_logs (emit e).
Proof. intros s. exists [e]. reflexivity. Qed.

Lemma only_logs_answer (a : option exn) : only_logs (answer a).
Proof. destruct a; [apply only_logs_raise | apply only_logs_ret]. Qed.

Lemma only_logs_bind {A B : Type} (m : M A) (k : A -> M B) :
  only_logs m -> (forall a, only_logs (k a)) -> only_logs (bind m k).
Proof.
  intros Hm Hk s. unfold bind. destruct (Hm s) as [t1 H1].
  destruct (m s) as [[a|e] s']; cbn in H1; subst s'.
  - destruct (Hk a (extend t1 s)) as [t2 H2].
    exists (t1 ++ t2). now rewrite H2, extend_extend.
  - now exists t1.
Qed.

Create HintDb logs discriminated.
#[local] Hint Resolve only_logs_ret only_logs_raise only_logs_gets only_logs_now
  only_logs_is_closed only_logs_emit only_logs_answer : logs.

Ltac logs :=
  repeat first
    [ progress auto with logs
    | apply only_logs_bind; [|intros ?]
    | match goal with
      | |- only_logs (match ?x with _ => _ end) => destruct x
      | |- only_logs (if ?x then _ else _) => destruct x
      end ].

Section OnlyLogs.

Variable re_match : pattern -> string -> bool.
Variable env : Env.

Lemma only_logs_ws_send ws payload : only_logs (ws_send env ws payload).
Proof. unfold ws_send. logs. Qed.

Lemma only_logs_ws_recv ws : only_logs (ws_recv env ws).
Proof. unfold ws_recv. logs. Qed.

Lemma only_logs_call_handler f channel ent :
  only_logs (call_handler env f channel ent).
Proof. unfold call_handler. logs. Qed.

Lemma only_logs_call_handler_nats f subject data :
  only_logs (call_handler_nats env f subject data).
Proof. unfold call_handler_nats. logs. Qed.

Lemma only_logs_polygon_call e : only_logs (polygon_call env e).
Proof. unfold polygon_call. logs. Qed.

Lemma only_logs_feed_subscribe chans : only_logs (feed_subscribe env chans).
Proof. unfold feed_subscribe, polygon_call. logs. Qed.

Lemma only_logs_loads r : only_logs (loads r).
Proof. unfold loads. logs. Qed.

Lemma only_logs_py_in k x : only_logs (py_in k x).
Proof. unfold py_in. logs. Qed.

Lemma only_logs_getitem x k : only_logs (getitem x k).
Proof. unfold getitem. logs. Qed.

Lemma only_logs_dict_get x k : only_logs (dict_get x k).
Proof. unfold dict_get. logs. Qed.

Hint Resolve only_logs_ws_send only_logs_ws_recv only_logs_call_handler
  only_logs_call_handler_nats only_logs_polygon_call only_logs_loads
  only_logs_py_in only_logs_getitem only_logs_dict_get : logs.

Lemma only_logs_dispatch_items items channel msg :
  only_logs (dispatch_items re_match env items channel msg).
Proof. induction items as [|[pat h] rest IH]; cbn [dispatch_items]; logs. Qed.

Lemma only_logs_dispatch_nats_items items subject data :
  only_logs (dispatch_nats_items re_match env items subject data).
Proof.
  induction items as [|[pat h] rest IH]; cbn [dispatch_nats_items]; logs.
Qed.

Hint Resolve only_logs_dispatch_items only_logs_dispatch_nats_items : logs.

Lemma only_logs__dispatch channel msg :
  only_logs (_dispatch re_match env channel msg).
Proof. unfold _dispatch. logs. Qed.

Hint Resolve only_logs__dispatch : logs.

Lemma only_logs_consume_once ws : only_logs (consume_once re_match env ws).
Proof. unfold consume_once. logs. Qed.

Hint Resolve only_logs_consume_once : logs.

Lemma only_logs_consume_loop fuel ws :
  only_logs (consume_loop re_match env fuel ws).
Proof. induction fuel as [|n IH]; cbn [consume_loop]; logs. Qed.

End OnlyLogs.

#[local] Hint Resolve only_logs_ws_send only_logs_ws_recv only_logs_call_handler
  only_logs_call_handler_nats only_logs_polygon_call only_logs_loads
  only_logs_py_in only_logs_getitem only_logs_dict_get
  only_logs_dispatch_items only_logs_dispatch_nats_items only_logs__dispatch
  only_logs_consume_once only_logs_consume_loop : logs.

(** ** The invariant *)

Lemma class_of_in (w : World) (ws : sock) (k : conn_class) :
  class_of w ws = Some k -> In (ws, k) (opened_for w).
Proof.
  unfold class_of. destruct (find _ _) as [[x k']|] eqn:E; [|discriminate].
  intros H; inversion H; subst. apply find_some in E. destruct E as [Hin Hx].
  cbn in Hx. apply Nat.eqb_eq in Hx. now subst.
Qed.

Lemma stable_InvX (p : option sock) : stable (InvX p).
Proof. intros tr s [H1 H2 H3 H4 H5 H6 H7]. constructor; assumption. Qed.

Lemma class_of_after_connect k url s ws :
  class_of (world (after_connect k url s)) ws =
  if Nat.eqb (fresh (world s)) ws then Some k else class_of (world s) ws.
Proof.
  unfold class_of, after_connect; cbn.
  destruct (Nat.eqb (fresh (world s)) ws); reflexivity.
Qed.

Lemma InvX_class_old p s ws k :
  InvX p s -> class_of (world s) ws = Some k -> ws < fresh (world s).
Proof. intros H Hc. apply class_of_in in Hc. exact (inv_opened_old p s H _ _ Hc). Qed.

Lemma class_of_after_connect_old p k url s ws k' :
  InvX p s ->
  class_of (world s) ws = Some k' ->
  class_of (world (after_connect k url s)) ws = Some k'.
Proof.
  intros H Hc. rewrite class_of_after_connect.
  pose proof (InvX_class_old p s ws k' H Hc) as Hlt.
  destruct (Nat.eqb_spec (fresh (world s)) ws); [lia | exact Hc].
Qed.

Lemma InvX_after_connect k url s :
  InvX None s -> InvX None (after_connect k url s).
Proof.
  intros H. constructor; cbn [after_connect world self closed fresh tasks opened_for].
  - intros ws Hin. apply (inv_closed_old _ _ H) in Hin. lia.
  - intros ws k' [Heq|Hin].
    + inversion Heq; subst. lia.
    + apply (inv_opened_old _ _ H) in Hin. lia.
  - intros ws Hin.
    destruct (inv_tasks_class _ _ H ws Hin) as [Hc|Hc];
      [left|right]; now apply (class_of_after_connect_old None).
  - intros ws Hws. apply (inv_ws_old _ _ H) in Hws. lia.
  - intros ws Hws. apply (class_of_after_connect_old None); auto.
    now apply (inv_data_ws_class _ _ H).
  - intros ws Hin Hc.
    destruct (inv_tasks_class _ _ H ws Hin) as [Hc'|Hc'];
      pose proof (class_of_after_connect_old None k url s ws _ H Hc') as Hn;
      change (world (after_connect k url s)) with
        (mkWorld (EvConnect k url :: events (world s)) (S (fresh (world s)))
           (closed (world s)) (tasks (world s))
           ((fresh (world s), k) :: opened_for (world s))) in Hn;
      [congruence | exact (inv_data_tasks _ _ H ws Hin Hc')].
  - congruence.
Qed.

Lemma hoare_seq_logs {A B : Type} (P : state -> Prop) (m : M A)
  (k : A -> M B) (R : B -> state -> Prop) (E : state -> Prop) :
  only_logs m -> stable P -> (forall s, P s -> E s) ->
  (forall a, hoare P (k a) R E) ->
  hoare P (bind m k) R E.
Proof.
  intros Hm HP HE Hk. apply hoare_bind with (Q := fun _ => P); [|exact Hk].
  apply hoare_weaken with (P' := P) (Q' := fun _ => P) (E' := P); auto.
  now apply hoare_only_logs.
Qed.

Lemma hoare_modify_self (f : StreamConn -> StreamConn) (P Q E : state -> Prop) :
  (forall s, P s -> Q (mkState (f (self s)) (world s))) ->
  hoare P (modify_self f) (fun _ => Q) E.
Proof. intros H s Hs. cbn. now apply H. Qed.

Lemma hoare_modify_world (f : World -> World) (P Q E : state -> Prop) :
  (forall s, P s -> Q (mkState (self s) (f (world s)))) ->
  hoare P (modify_world f) (fun _ => Q) E.
Proof. intros H s Hs. cbn. now apply H. Qed.

Lemma stable_ready k ws : stable (ready k ws).
Proof.
  intros tr s (H1 & H2 & H3 & H4 & H5).
  split; [now apply stable_InvX | auto].
Qed.

Lemma ready_Inv k ws s : ready k ws s -> InvX None s.
Proof. now intros [H _]. Qed.

Section Preservation.

Variable re_match : pattern -> string -> bool.
Variable env : Env.

Lemma hoare_websockets_connect k url :
  k <> FeedClass ->
  hoare (fun s => InvX None s /\ (k = DataClass -> _data_ws (self s) = None))
        (websockets_connect env k url)
        (fun ws s => ready k ws s)
        (InvX None).
Proof.
  intros Hk s [HI HD]. unfold websockets_connect, bind, now, emit,
    modify_world, answer; cbn.
  destruct (on_connect env (clock s)); cbn.
  - now apply (stable_InvX None [EvConnect k url] s).
  - change (ready k (fresh (world s)) (after_connect k url s)).
    split; [now apply InvX_after_connect|].
    split; [cbn; lia|].
    split; [|auto].
    rewrite class_of_after_connect. now rewrite Nat.eqb_refl.
Qed.

Lemma ready_with_ws k ws s : ready k ws s -> ready k ws (with_ws ws s).
Proof.
  intros ([H1 H2 H3 H4 H5 H6 H7] & Hlt & Hc & Hk & Hd).
  split; [|auto].
  constructor; auto. cbn. intros x Hx. inversion Hx; subst; auto.
Qed.

Lemma InvX_with_task k ws s :
  ready k ws s -> InvX (pend k ws) (with_task ws s).
Proof.
  intros ([H1 H2 H3 H4 H5 H6 H7] & Hlt & Hc & Hk & Hd).
  assert (Hcl : forall x, class_of (world (with_task ws s)) x =
                          class_of (world s) x) by reflexivity.
  constructor; try setoid_rewrite Hcl; auto.
  - intros x [<-|Hin]; [|now apply H3].
    destruct k; [now left | now right | congruence].
  - intros x [<-|Hin] Hx.
    + right. rewrite Hc in Hx. inversion Hx. reflexivity.
    + left. destruct (H6 x Hin Hx) as [?|?]; [assumption | discriminate].
  - intros Hp. apply Hd. destruct k; cbn in Hp; congruence.
Qed.

Lemma hoare__connect k ws :
  hoare (ready k ws) (_connect re_match env ws)
        (fun _ s => InvX (pend k ws) s /\ ws < fresh (world s) /\
                    class_of (world s) ws = Some k)
        (InvX None).
Proof.
  unfold _connect.
  repeat (apply hoare_seq_logs;
          [solve [logs] | apply stable_ready | apply ready_Inv | intros ?]).
  apply hoare_bind with (Q := fun _ => ready k ws).
  { apply hoare_modify_self. apply ready_with_ws. }
  intros _.
  apply hoare_seq_logs;
    [apply only_logs__dispatch | apply stable_ready | apply ready_Inv | intros _].
  unfold ensure_future.
  apply hoare_seq_logs;
    [logs | apply stable_ready | apply ready_Inv | intros _].
  apply hoare_modify_world. intros s Hs.
  split.
  - apply (InvX_with_task k ws) in Hs.
    destruct Hs as [H1 H2 H3 H4 H5 H6 H7]. constructor; assumption.
  - destruct Hs as (_ & Hlt & Hc & _). split; assumption.
Qed.

Lemma InvX_with_ws p ws s :
  InvX p s -> ws < fresh (world s) -> InvX p (with_ws ws s).
Proof.
  intros [H1 H2 H3 H4 H5 H6 H7] Hlt. constructor; auto.
  cbn. intros x Hx. inversion Hx; subst; auto.
Qed.

Lemma InvX_with_data_ws ws s :
  InvX (Some ws) s -> class_of (world s) ws = Some DataClass ->
  InvX None (with_data_ws ws s).
Proof.
  intros [H1 H2 H3 H4 H5 H6 H7] Hc.
  assert (Hnone : _data_ws (self s) = None) by (apply H7; discriminate).
  constructor; auto.
  - cbn. intros x Hx. inversion Hx; subst. exact Hc.
  - cbn. intros x Hin Hx. left.
    destruct (H6 x Hin Hx) as [Hd|Hd]; [congruence | exact Hd].
  - congruence.
Qed.

Lemma InvX_set_polygon p v s :
  InvX p s -> InvX p (mkState (set_polygon v (self s)) (world s)).
Proof. intros [H1 H2 H3 H4 H5 H6 H7]. constructor; auto. Qed.

Lemma InvX_set_handlers p v s :
  InvX p s -> InvX p (mkState (set_handlers v (self s)) (world s)).
Proof. intros [H1 H2 H3 H4 H5 H6 H7]. constructor; auto. Qed.

Lemma InvX_closed p ws s :
  InvX p s -> ws < fresh (world s) ->
  InvX p (mkState (self s)
            (mkWorld (events (world s)) (fresh (world s))
               (ws :: closed (world s)) (tasks (world s))
               (opened_for (world s)))).
Proof.
  intros [H1 H2 H3 H4 H5 H6 H7] Hlt. constructor; auto.
  cbn. intros x [<-|Hin]; auto.
Qed.

Lemma hoare__ensure_ws :
  hoare Inv (_ensure_ws re_match env) (fun _ => Inv) Inv.
Proof.
  unfold _ensure_ws, Inv.
  apply hoare_seq_logs; [logs | apply stable_InvX | auto | intros [ws|]].
  { apply hoare_skip. }
  apply hoare_seq_logs; [logs | apply stable_InvX | auto | intros url].
  apply hoare_bind with (Q := fun ws s => ready EventsClass ws s).
  { eapply hoare_weaken.
    - apply (hoare_websockets_connect EventsClass url); discriminate.
    - intros s H; split; [exact H | discriminate].
    - auto.
    - auto. }
  intros ws.
  apply hoare_bind with
    (Q := fun _ s => InvX None s /\ ws < fresh (world s) /\
                     class_of (world s) ws = Some EventsClass).
  { apply hoare__connect. }
  intros _. apply hoare_modify_self. intros s (H & Hlt & _).
  now apply InvX_with_ws.
Qed.

Lemma hoare__ensure_data_ws :
  hoare Inv (_ensure_data_ws re_match env) (fun _ => Inv) Inv.
Proof.
  unfold _ensure_data_ws, Inv.
  apply hoare_bind with
    (Q := fun w s => InvX None s /\ w = _data_ws (self s)).
  { apply hoare_gets. }
  intros [ws|].
  { intros s [H _]. exact H. }
  assert (Hst : stable (fun s => InvX None s /\ None = _data_ws (self s))).
  { intros tr s [H E]. split; [now apply stable_InvX | exact E]. }
  apply hoare_seq_logs; [logs | exact Hst | now intros s [H _] | intros url].
  apply hoare_bind with (Q := fun ws s => ready DataClass ws s).
  { eapply hoare_weaken.
    - apply (hoare_websockets_connect DataClass url); discriminate.
    - intros s [H E]; split; [exact H | now intros _].
    - auto.
    - auto. }
  intros ws.
  apply hoare_bind with
    (Q := fun _ s => InvX (Some ws) s /\ ws < fresh (world s) /\
                     class_of (world s) ws = Some DataClass).
  { apply hoare__connect. }
  intros _. apply hoare_modify_self. intros s (H & Hlt & Hc).
  now apply InvX_with_data_ws.
Qed.

Lemma hoare__ensure_nats :
  hoare Inv (_ensure_nats env) (fun _ => Inv) Inv.
Proof.
  unfold _ensure_nats, Inv.
  apply hoare_seq_logs; [logs | apply stable_InvX | auto | intros [p|]].
  { apply hoare_skip. }
  repeat (apply hoare_seq_logs;
          [solve [logs] | apply stable_InvX | auto | intros ?]).
  apply hoare_bind with (Q := fun _ => InvX None).
  { apply hoare_modify_self. intros s H. now apply InvX_set_polygon. }
  intros _.
  apply hoare_weaken with (P' := InvX None) (Q' := fun _ => InvX None)
                          (E' := InvX None); auto.
  apply hoare_only_logs; [logs | apply stable_InvX].
Qed.

Lemma only_logs_field_send field payload :
  only_logs (field_send env field payload).
Proof. unfold field_send. logs. Qed.

Lemma hoare_then_logs {A B : Type} (P : state -> Prop) (m : M A) (k : M B) :
  hoare P m (fun _ => P) P -> only_logs k -> stable P ->
  hoare P (bind m (fun _ => k)) (fun _ => P) P.
Proof.
  intros Hm Hk HP. apply hoare_bind with (Q := fun _ => P); [exact Hm|].
  intros _. now apply hoare_only_logs.
Qed.

Lemma hoare_subscribe channels :
  hoare Inv (subscribe re_match env channels) (fun _ => Inv) Inv.
Proof.
  unfold subscribe, subscribe_ws, subscribe_data, subscribe_nats.
  apply hoare_bind with (Q := fun _ => Inv).
  { destruct (0 <? _)%nat; [|apply hoare_skip].
    apply hoare_then_logs;
      [apply hoare__ensure_ws | apply only_logs_field_send | apply stable_InvX]. }
  intros _. apply hoare_bind with (Q := fun _ => Inv).
  { destruct (0 <? _)%nat; [|apply hoare_skip].
    apply hoare_then_logs;
      [apply hoare__ensure_data_ws | apply only_logs_field_send
      | apply stable_InvX]. }
  intros _. destruct (0 <? _)%nat; [|apply hoare_skip].
  apply hoare_then_logs;
    [apply hoare__ensure_nats | apply only_logs_feed_subscribe | apply stable_InvX].
Qed.

Lemma hoare_ws_close ws :
  hoare (fun s => Inv s /\ ws < fresh (world s)) (ws_close ws)
        (fun _ => Inv) Inv.
Proof.
  intros s [H Hlt]. cbn.
  apply (InvX_closed None ws (extend [EvClose ws] s)); [|exact Hlt].
  now apply stable_InvX.
Qed.

Lemma hoare_register pat func :
  hoare Inv (register pat func) (fun _ => Inv) Inv.
Proof.
  unfold register. destruct (negb _); [(intros s H; exact H)|].
  apply hoare_modify_self. intros s H. now apply InvX_set_handlers.
Qed.

Lemma hoare_deregister pat :
  hoare Inv (deregister pat) (fun _ => Inv) Inv.
Proof.
  unfold deregister.
  apply hoare_seq_logs; [logs | apply stable_InvX | auto | intros items].
  destruct (assoc pat items); [|(intros s H; exact H)].
  apply hoare_modify_self. intros s H. now apply InvX_set_handlers.
Qed.

End Preservation.

(** ** The read loop and reachable states *)

Lemma consume_finally_run ws s :
  consume_finally ws s = (Ok tt, after_loop_exit ws s).
Proof.
  unfold consume_finally, after_loop_exit, ws_close, bind, emit, gets,
    modify_world, modify_self; cbn.
  destruct (option_sock_eqb (_data_ws (self s)) ws); reflexivity.
Qed.

Lemma _consume_msg_run re_match env fuel ws s :
  exists tr,
    consume_loop re_match env fuel ws s =
      (fst (consume_loop re_match env fuel ws s), extend tr s)
    /\ _consume_msg re_match env fuel ws s =
       match fst (consume_loop re_match env fuel ws s) with
       | Ok _ => (Ok tt, extend tr s)
       | Raise e => (Raise e, after_loop_exit ws (extend tr s))
       end.
Proof.
  destruct (only_logs_consume_loop re_match env fuel ws s) as [tr Htr].
  exists tr. unfold _consume_msg.
  destruct (consume_loop re_match env fuel ws s) as [[[]|e] s1];
    cbn [fst snd] in *; subst s1; split; try reflexivity.
  now rewrite consume_finally_run.
Qed.

Lemma Inv_after_loop_exit ws s :
  Inv s -> In ws (tasks (world s)) -> Inv (after_loop_exit ws s).
Proof.
  intros H Hin. pose proof H as [H1 H2 H3 H4 H5 H6 H7].
  assert (Hcl : forall x, class_of (world (after_loop_exit ws s)) x =
                          class_of (world s) x) by reflexivity.
  assert (Hlt : ws < fresh (world s)).
  { destruct (H3 ws Hin) as [Hc|Hc]; exact (InvX_class_old None s ws _ H Hc). }
  constructor; try setoid_rewrite Hcl.
  - cbn. intros x [<-|Hx]; auto.
  - exact H2.
  - cbn. intros x Hx. apply filter_In in Hx. now apply H3.
  - cbn. destruct (option_sock_eqb _ _); cbn; [exact H4 | discriminate].
  - cbn. destruct (option_sock_eqb _ _); cbn; [discriminate | exact H5].
  - cbn. intros x Hx Hc. apply filter_In in Hx. destruct Hx as [Hx Hne].
    left. destruct (H6 x Hx Hc) as [Hd|Hd]; [|discriminate].
    destruct (option_sock_eqb (_data_ws (self s)) ws) eqn:E; cbn; [|exact Hd].
    rewrite Hd in E. cbn in E. rewrite E in Hne. discriminate.
  - congruence.
Qed.

(** ** Shutdown *)

Lemma ws_close_run ws s : ws_close ws s = (Ok tt, after_ws_close ws s).
Proof. reflexivity. Qed.

Lemma polygon_call_state env e s :
  snd (polygon_call env e s) = extend [e] s.
Proof.
  unfold polygon_call, bind, now, emit, modify_world, answer. cbn.
  destruct (on_polygon env _); reflexivity.
Qed.

Lemma polygon_call_result env e s :
  fst (polygon_call env e s) =
  match on_polygon env (clock s) with
  | None => Ok tt
  | Some x => Raise x
  end.
Proof.
  unfold polygon_call, bind, now, emit, modify_world, answer. cbn.
  destruct (on_polygon env _); reflexivity.
Qed.

(** What a run of the event loop preserves: whatever the recording of
    effects and the exit of a live read loop preserve. *)
Lemma serve_preserves re_match env (P : state -> Prop) :
  (forall tr s, P s -> P (extend tr s)) ->
  (forall ws s, P s -> In ws (tasks (world s)) -> P (after_loop_exit ws s)) ->
  forall schedule s, P s -> P (snd (serve re_match env schedule s)).
Proof.
  intros Hlog Hexit schedule.
  induction schedule as [|[ws fuel] rest IH]; intros s Hs; [exact Hs|].
  cbn [serve]. destruct (existsb _ _) eqn:E; [|now apply IH].
  apply IH. apply existsb_exists in E. destruct E as [x [Hin Hx]].
  apply Nat.eqb_eq in Hx. subst x.
  destruct (_consume_msg_run re_match env fuel ws s) as [tr [_ Hrun]].
  rewrite Hrun.
  destruct (fst (consume_loop re_match env fuel ws s)); cbn [snd].
  - now apply Hlog.
  - apply Hexit; [now apply Hlog | exact Hin].
Qed.

Lemma serve_returns re_match env schedule s :
  fst (serve re_match env schedule s) = Ok tt.
Proof.
  revert s. induction schedule as [|[ws fuel] rest IH]; intros s;
    [reflexivity|].
  cbn [serve]. destruct (existsb _ _); apply IH.
Qed.

Lemma close_run re_match env i s :
  close re_match env i s =
  let s2 := closing re_match env _data_ws (during_data_ws i)
              (closing re_match env _ws (during_ws i) s) in
  match polygon (self s2) with
  | Some _ =>
      (match on_polygon env (clock s2) with
       | None => Ok tt
       | Some e => Raise e
       end,
       snd (serve re_match env (during_polygon i)
              (extend [EvPolygonClose] s2)))
  | None => (Ok tt, s2)
  end.
Proof.
  unfold close, closing. unfold bind at 1, gets at 1.
  assert (H1 : forall ws sch st,
             awaiting re_match env (ws_close ws) sch st =
             (Ok tt, snd (serve re_match env sch (after_ws_close ws st))))
    by reflexivity.
  set (s1 := match _ws (self s) with
             | Some ws =>
                 snd (serve re_match env (during_ws i) (after_ws_close ws s))
             | None => s
             end).
  assert (E1 : (match _ws (self s) with
                | Some ws =>
                    awaiting re_match env (ws_close ws) (during_ws i)
                | None => ret tt
                end) s = (Ok tt, s1)).
  { unfold s1. destruct (_ws (self s)); [apply H1 | reflexivity]. }
  unfold bind at 1. rewrite E1.
  unfold bind at 1, gets at 1.
  set (s2 := match _data_ws (self s1) with
             | Some ws =>
                 snd (serve re_match env (during_data_ws i)
                        (after_ws_close ws s1))
             | None => s1
             end).
  assert (E2 : (match _data_ws (self s1) with
                | Some ws =>
                    awaiting re_match env (ws_close ws) (during_data_ws i)
                | None => ret tt
                end) s1 = (Ok tt, s2)).
  { unfold s2. destruct (_data_ws (self s1)); [apply H1 | reflexivity]. }
  unfold bind at 1. rewrite E2.
  unfold bind, gets. cbn zeta.
  destruct (polygon (self s2)); [|reflexivity].
  unfold awaiting.
  rewrite (surjective_pairing (polygon_call env EvPolygonClose s2)),
    polygon_call_state, polygon_call_result.
  reflexivity.
Qed.

(** What [close] preserves: whatever the recording of effects, the closing
    of a stored connection and a run of the event loop preserve. *)
Lemma close_preserves re_match env (P : state -> Prop) :
  (forall tr s, P s -> P (extend tr s)) ->
  (forall ws s,
      P s -> _ws (self s) = Some ws \/ _data_ws (self s) = Some ws ->
      P (after_ws_close ws s)) ->
  (forall schedule s, P s -> P (snd (serve re_match env schedule s))) ->
  forall i s, P s -> P (snd (close re_match env i s)).
Proof.
  intros Hlog Hclose Hserve i s Hs. rewrite close_run. cbn zeta.
  assert (H1 : P (closing re_match env _ws (during_ws i) s)).
  { unfold closing. destruct (_ws (self s)) as [ws|] eqn:E; [|exact Hs].
    apply Hserve, Hclose; auto. }
  set (s1 := closing re_match env _ws (during_ws i) s) in *.
  assert (H2 : P (closing re_match env _data_ws (during_data_ws i) s1)).
  { unfold closing. destruct (_data_ws (self s1)) as [ws|] eqn:E; [|exact H1].
    apply Hserve, Hclose; auto. }
  set (s2 := closing re_match env _data_ws (during_data_ws i) s1) in *.
  destruct (polygon (self s2)); cbn [snd]; [|exact H2].
  now apply Hserve, Hlog.
Qed.

Lemma Inv_after_ws_close ws s :
  Inv s -> _ws (self s) = Some ws \/ _data_ws (self s) = Some ws ->
  Inv (after_ws_close ws s).
Proof.
  intros H Hst.
  assert (Hlt : ws < fresh (world s)).
  { destruct Hst as [E|E]; [now apply (inv_ws_old _ _ H)|].
    apply (InvX_class_old None s ws DataClass H).
    now apply (inv_data_ws_class _ _ H). }
  apply (InvX_closed None ws (extend [EvClose ws] s)); [|exact Hlt].
  now apply stable_InvX.
Qed.

Lemma Inv_serve re_match env schedule s :
  Inv s -> Inv (snd (serve re_match env schedule s)).
Proof.
  apply serve_preserves.
  - intros tr s0. apply stable_InvX.
  - intros ws s0. apply Inv_after_loop_exit.
Qed.

Lemma Inv_close re_match env i s :
  Inv s -> Inv (snd (close re_match env i s)).
Proof.
  apply close_preserves.
  - intros tr s0. apply stable_InvX.
  - apply Inv_after_ws_close.
  - intros schedule s0. apply Inv_serve.
Qed.

Lemma Inv_init key_id secret_key base_url data_url :
  Inv (__init__ key_id secret_key base_url data_url).
Proof. constructor; cbn; try tauto; try discriminate; congruence. Qed.

Lemma hoare_run {A : Type} (P : state -> Prop) (m : M A) (s : state) :
  hoare P m (fun _ => P) P -> P s -> P (snd (m s)).
Proof. intros H Hs. specialize (H s Hs). now destruct (m s) as [[a|e] s']. Qed.

Lemma reachable_Inv re_match env s : reachable re_match env s -> Inv s.
Proof.
  induction 1 as [| s a Hr IH Hen].
  - apply Inv_init.
  - destruct a as [channels|pat func|pat|i|ws fuel]; cbn [run_action].
    + apply hoare_run; [apply hoare_subscribe | exact IH].
    + apply hoare_run; [apply hoare_register | exact IH].
    + apply hoare_run; [apply hoare_deregister | exact IH].
    + now apply Inv_close.
    + cbn in Hen.
      destruct (_consume_msg_run re_match env fuel ws s) as [tr [_ Hrun]].
      rewrite Hrun.
      destruct (fst (consume_loop re_match env fuel ws s)); cbn [snd].
      * now apply stable_InvX.
      * apply Inv_after_loop_exit; [now apply stable_InvX | exact Hen].
Qed.

(** Steps of the transition system, one lemma per operation. *)

Lemma reachable_subscribe re_match env s channels :
  reachable re_match env s ->
  reachable re_match env (snd (subscribe re_match env channels s)).
Proof.
  intros H. exact (reachable_step re_match env s (Subscribe channels) H I).
Qed.

Lemma reachable_register re_match env s pat func :
  reachable re_match env s ->
  reachable re_match env (snd (register pat func s)).
Proof.
  intros H. exact (reachable_step re_match env s (Register pat func) H I).
Qed.

Lemma reachable_close re_match env s i :
  reachable re_match env s ->
  reachable re_match env (snd (close re_match env i s)).
Proof. intros H. exact (reachable_step re_match env s (Close i) H I). Qed.

(** ** What an operation can emit *)

Lemma emits_ret {A : Type} P (a : A) : emits P (ret a).
Proof. intros s. exists []. cbn. auto. Qed.

Lemma emits_raise {A : Type} P (e : exn) : emits P (@raise A e).
Proof. intros s. exists []. cbn. auto. Qed.

Lemma emits_gets {A : Type} P (f : StreamConn -> A) : emits P (gets f).
Proof. intros s. exists []. cbn. auto. Qed.

Lemma emits_now P : emits P now.
Proof. intros s. exists []. cbn. auto. Qed.

Lemma emits_is_closed P ws : emits P (is_closed ws).
Proof. intros s. exists []. cbn. auto. Qed.

Lemma emits_answer P a : emits P (answer a).
Proof. destruct a; [apply emits_raise | apply emits_ret]. Qed.

Lemma emits_modify_self P f : emits P (modify_self f).
Proof. intros s. exists []. cbn. auto. Qed.

Lemma emits_modify_world P f :
  (forall w, events (f w) = events w) -> emits P (modify_world f).
Proof. intros H s. exists []. cbn. rewrite H. auto. Qed.

Lemma emits_emit (P : event -> Prop) e : P e -> emits P (emit e).
Proof. intros H s. exists [e]. cbn. auto. Qed.

Lemma emits_bind {A B : Type} P (m : M A) (k : A -> M B) :
  emits P m -> (forall a, emits P (k a)) -> emits P (bind m k).
Proof.
  intros Hm Hk s. unfold bind. destruct (Hm s) as [t1 [E1 F1]].
  destruct (m s) as [[a|e] s1]; cbn [snd] in E1.
  - destruct (Hk a s1) as [t2 [E2 F2]]. exists (t1 ++ t2). split.
    + now rewrite E2, E1, rev_app_distr, app_assoc.
    + apply Forall_app. now split.
  - exists t1. now split.
Qed.

Lemma emits_weaken {A : Type} (P Q : event -> Prop) (m : M A) :
  (forall e, P e -> Q e) -> emits P m -> emits Q m.
Proof.
  intros H Hm s. destruct (Hm s) as [tr [E F]]. exists tr. split; [exact E|].
  eapply Forall_impl; eauto.
Qed.

Ltac emits_with known :=
  repeat first
    [ known
    | apply emits_ret | apply emits_raise | apply emits_gets | apply emits_now
    | apply emits_is_closed | apply emits_answer | apply emits_modify_self
    | apply emits_emit; solve [cbn; eauto]
    | apply emits_modify_world; reflexivity
    | apply emits_bind; [|intros ?]
    | match goal with
      | |- emits _ (match ?x with _ => _ end) => destruct x
      | |- emits _ (if ?x then _ else _) => destruct x
      end ].

Ltac emits := emits_with fail.

Section Emits.

Variable re_match : pattern -> string -> bool.
Variable env : Env.

Lemma emits_dispatch_items P items channel msg :
  (forall f c e, P (EvHandler f c e)) ->
  emits P (dispatch_items re_match env items channel msg).
Proof.
  intros HP. induction items as [|[pat h] rest IH]; cbn [dispatch_items].
  - emits.
  - unfold call_handler, getitem. emits; try apply HP; exact IH.
Qed.

Lemma emits__connect k chans ws :
  emits (socket_phase_event k chans) (_connect re_match env ws).
Proof.
  unfold _connect, ws_send, ws_recv, loads, py_in, getitem, _dispatch,
    ensure_future.
  emits. now apply emits_dispatch_items.
Qed.

Lemma emits_websockets_connect k chans url :
  emits (socket_phase_event k chans) (websockets_connect env k url).
Proof.
  unfold websockets_connect. emits.
Qed.

Lemma emits_field_send k chans field :
  emits (socket_phase_event k chans)
        (field_send env field (listen_request chans)).
Proof. unfold field_send, ws_send. emits. Qed.

Lemma emits_subscribe_ws chans :
  emits (socket_phase_event EventsClass chans)
        (subscribe_ws re_match env chans).
Proof.
  unfold subscribe_ws, _ensure_ws.
  emits_with ltac:(first [ apply emits_websockets_connect
                         | apply emits__connect | apply emits_field_send ]).
Qed.

Lemma emits_subscribe_data chans :
  emits (socket_phase_event DataClass chans)
        (subscribe_data re_match env chans).
Proof.
  unfold subscribe_data, _ensure_data_ws.
  emits_with ltac:(first [ apply emits_websockets_connect
                         | apply emits__connect | apply emits_field_send ]).
Qed.

End Emits.

Lemma connect_then_emits {B : Type} env k url (K : sock -> M B) s :
  (forall ws, emits (fun _ => True) (K ws)) ->
  exists tr,
    events (world (snd (bind (websockets_connect env k url) K s))) =
    rev (EvConnect k url :: tr) ++ events (world s).
Proof.
  intros HK. unfold websockets_connect, bind, now, emit, modify_world, answer.
  cbn. destruct (on_connect env (clock s)); cbn.
  - exists []. reflexivity.
  - destruct (HK (fresh (world s)) (after_connect k url s)) as [tr [E _]].
    exists tr. unfold after_connect in E at 1. cbn in E.
    unfold after_connect, log in *. cbn in *. rewrite E.
    now rewrite <- app_assoc.
Qed.

Lemma ensure_absent_reconnects re_match env k s :
  k <> FeedClass ->
  handle_present k (self s) = false ->
  exists tr,
    trace_between s (snd (ensure_connected env re_match k s)) =
    EvConnect k (endpoint_of k (self s)) :: tr.
Proof.
  intros Hk Habsent.
  destruct k; [| |congruence]; cbn in Habsent; cbn [ensure_connected endpoint_of].
  - destruct (_ws (self s)) eqn:Hws; [discriminate|].
    destruct (connect_then_emits env EventsClass (_endpoint (self s))
                (fun ws => bind (_connect re_match env ws)
                             (fun _ => modify_self (set_ws (Some ws)))) s)
      as [tr Htr].
    { intros ws. apply emits_bind; [|intros _; apply emits_modify_self].
      apply emits_weaken with (P := socket_phase_event EventsClass []);
        [auto | apply emits__connect]. }
    exists tr. apply trace_between_events. rewrite <- Htr.
    unfold _ensure_ws, bind at 1, gets at 1. rewrite Hws.
    reflexivity.
  - destruct (_data_ws (self s)) eqn:Hws; [discriminate|].
    destruct (connect_then_emits env DataClass (_data_endpoint (self s))
                (fun ws => bind (_connect re_match env ws)
                             (fun _ => modify_self (set_data_ws (Some ws)))) s)
      as [tr Htr].
    { intros ws. apply emits_bind; [|intros _; apply emits_modify_self].
      apply emits_weaken with (P := socket_phase_event DataClass []);
        [auto | apply emits__connect]. }
    exists tr. apply trace_between_events. rewrite <- Htr.
    unfold _ensure_data_ws, bind at 1, gets at 1. rewrite Hws.
    reflexivity.
Qed.

Lemma option_sock_eqb_eq (a : option sock) (ws : sock) :
  option_sock_eqb a ws = true <-> a = Some ws.
Proof.
  destruct a as [x|]; cbn; [|split; discriminate].
  rewrite Nat.eqb_eq. split; congruence.
Qed.

Lemma loop_exit_clears_handle s ws k :
  Inv s -> In ws (tasks (world s)) -> class_of (world s) ws = Some k ->
  k <> FeedClass /\ handle_present k (self (after_loop_exit ws s)) = false.
Proof.
  intros H Hin Hc.
  destruct (inv_tasks_class _ _ H ws Hin) as [Hk|Hk];
    rewrite Hk in Hc; inversion Hc; subst k; (split; [discriminate|]); cbn.
  - destruct (option_sock_eqb (_data_ws (self s)) ws) eqn:E; [|reflexivity].
    apply option_sock_eqb_eq in E.
    apply (inv_data_ws_class _ _ H) in E. congruence.
  - destruct (inv_data_tasks _ _ H ws Hin Hk) as [Hd|Hd]; [|discriminate].
    apply option_sock_eqb_eq in Hd. now rewrite Hd.
Qed.

(** C3: in a reachable state, when the read loop of a connection [ws] of
    class [k] ends (with whatever exception: a receive failure, a payload
    that does not decode, a closed stream), the connection has been closed,
    the handle stored for class [k] is absent, the loop's task is over, and
    the next request to bring class [k] up starts by opening a connection
    to that class's endpoint. *)
Theorem read_loop_exit_clears_handle (re_match : pattern -> string -> bool)
  (env : Env) (s s' : state) (ws : sock) (k : conn_class) (fuel : nat)
  (e : exn) :
  reachable re_match env s ->
  In ws (tasks (world s)) ->
  class_of (world s) ws = Some k ->
  _consume_msg re_match env fuel ws s = (Raise e, s') ->
  existsb (Nat.eqb ws) (closed (world s')) = true
  /\ In (EvClose ws) (trace_between s s')
  /\ handle_present k (self s') = false
  /\ ~ In ws (tasks (world s'))
  /\ exists tr,
       trace_between s' (snd (ensure_connected env re_match k s')) =
       EvConnect k (endpoint_of k (self s')) :: tr.
Proof.
  intros Hreach Hin Hc Hrun. apply reachable_Inv in Hreach.
  destruct (_consume_msg_run re_match env fuel ws s) as [tr [_ Hmsg]].
  rewrite Hmsg in Hrun.
  destruct (fst (consume_loop re_match env fuel ws s)); [discriminate|].
  inversion Hrun; subst e0 s'. clear Hrun.
  destruct (loop_exit_clears_handle (extend tr s) ws k) as [Hk Hh];
    [now apply stable_InvX | exact Hin | exact Hc |].
  split; [cbn; now rewrite Nat.eqb_refl|].
  split.
  { rewrite (trace_between_events s _ (tr ++ [EvClose ws])).
    - apply in_or_app. right. now left.
    - cbn. now rewrite rev_app_distr. }
  split; [exact Hh|].
  split.
  { cbn. intros Hf. apply filter_In in Hf. destruct Hf as [_ Hf].
    now rewrite Nat.eqb_refl in Hf. }
  now apply ensure_absent_reconnects.
Qed.

(** ** Subscribing *)

Section Subscribe.

Variable re_match : pattern -> string -> bool.
Variable env : Env.

Lemma ws_send_succeeds ws payload s :
  existsb (Nat.eqb ws) (closed (world s)) = false ->
  on_send env (clock s) = None ->
  ws_send env ws payload s = (Ok tt, extend [EvSend ws payload] s).
Proof.
  intros Hopen Hsend. unfold ws_send. run_monad. reflexivity.
Qed.

Lemma clock_connected ws data s :
  clock s <= clock (connected re_match ws data s).
Proof.
  unfold connected, with_task, with_ws, after_handshake, clock; cbn.
  rewrite !length_app; cbn. lia.
Qed.

Lemma subscribe_ws_succeeds chans s kv data :
  chans <> [] ->
  _ws (self s) = None ->
  closed_are_old s ->
  on_connect env (clock s) = None ->
  (forall t, clock s <= t -> on_send env t = None) ->
  on_recv env (S (S (clock s))) = inr (Frame (Some (JObj kv))) ->
  authorizes kv data ->
  (forall t, clock s <= t -> on_handler env t = None) ->
  subscribe_ws re_match env chans s =
  (Ok tt,
   extend [EvSend (fresh (world s)) (listen_request chans)]
     (with_ws (fresh (world s))
        (connected re_match (fresh (world s)) data
           (after_connect EventsClass (_endpoint (self s)) s)))).
Proof.
  intros Hne Hws Hold Hconn Hsend Hrecv Hauth Hret.
  destruct chans as [|c chans]; [congruence|].
  assert (Hsend1 : on_send env (S (clock s)) = None) by (apply Hsend; lia).
  assert (Hret1 : forall t, S (S (clock s)) < t -> on_handler env t = None)
    by (intros t Ht; apply Hret; lia).
  unfold subscribe_ws. cbn [List.length Nat.ltb Nat.leb]. unfold bind at 1.
  rewrite (_ensure_ws_succeeds re_match env s kv data
             Hws Hold Hconn Hsend1 Hrecv Hauth Hret1).
  unfold field_send, bind at 1, gets at 1.
  change (_ws (self (with_ws (fresh (world s)) _))) with (Some (fresh (world s))).
  apply ws_send_succeeds.
  - exact (fresh_is_open s Hold).
  - apply Hsend.
    pose proof (clock_connected (fresh (world s)) data
                  (after_connect EventsClass (_endpoint (self s)) s)) as Hc.
    unfold clock in *. cbn in *. lia.
Qed.

Lemma subscribe_data_succeeds chans s kv data :
  chans <> [] ->
  _data_ws (self s) = None ->
  closed_are_old s ->
  on_connect env (clock s) = None ->
  (forall t, clock s <= t -> on_send env t = None) ->
  on_recv env (S (S (clock s))) = inr (Frame (Some (JObj kv))) ->
  authorizes kv data ->
  (forall t, clock s <= t -> on_handler env t = None) ->
  subscribe_data re_match env chans s =
  (Ok tt,
   extend [EvSend (fresh (world s)) (listen_request chans)]
     (with_data_ws (fresh (world s))
        (connected re_match (fresh (world s)) data
           (after_connect DataClass (_data_endpoint (self s)) s)))).
Proof.
  intros Hne Hws Hold Hconn Hsend Hrecv Hauth Hret.
  destruct chans as [|c chans]; [congruence|].
  assert (Hsend1 : on_send env (S (clock s)) = None) by (apply Hsend; lia).
  assert (Hret1 : forall t, S (S (clock s)) < t -> on_handler env t = None)
    by (intros t Ht; apply Hret; lia).
  unfold subscribe_data. cbn [List.length Nat.ltb Nat.leb]. unfold bind at 1.
  rewrite (_ensure_data_ws_succeeds re_match env s kv data
             Hws Hold Hconn Hsend1 Hrecv Hauth Hret1).
  unfold field_send, bind at 1, gets at 1.
  change (_data_ws (self (with_data_ws (fresh (world s)) _)))
    with (Some (fresh (world s))).
  apply ws_send_succeeds.
  - exact (fresh_is_open s Hold).
  - apply Hsend.
    pose proof (clock_connected (fresh (world s)) data
                  (after_connect DataClass (_data_endpoint (self s)) s)) as Hc.
    unfold clock in *. cbn in *. lia.
Qed.

Lemma subscribe_nats_succeeds chans s :
  chans <> [] ->
  polygon (self s) = None ->
  (forall t, clock s <= t -> on_polygon env t = None) ->
  subscribe_nats env chans s =
  (Ok tt,
   extend (feed_phase_trace chans (self s))
     (mkState (set_polygon (Some (feed_key (self s))) (self s)) (world s))).
Proof.
  intros Hne Hp Hpoly.
  destruct chans as [|c chans]; [congruence|].
  unfold subscribe_nats, _ensure_nats, polygon_call.
  cbn [List.length Nat.ltb Nat.leb].
  unfold bind, gets, now, emit, modify_world, modify_self, answer, clock in *.
  rewrite Hp. cbn.
  rewrite Hpoly by lia. cbn. rewrite Hpoly by lia. reflexivity.
Qed.

End Subscribe.

Lemma listen_sends_app (a b : list event) :
  listen_sends (a ++ b) = listen_sends a ++ listen_sends b.
Proof. apply flat_map_app. Qed.

Lemma feed_subscribes_app (a b : list event) :
  feed_subscribes (a ++ b) = feed_subscribes a ++ feed_subscribes b.
Proof. apply flat_map_app. Qed.

Lemma listen_sends_fanout re_match items channel data :
  listen_sends (fanout re_match items channel data) = [].
Proof.
  unfold fanout. induction (matching re_match items channel); cbn; auto.
Qed.

Lemma feed_subscribes_fanout re_match items channel data :
  feed_subscribes (fanout re_match items channel data) = [].
Proof.
  unfold fanout. induction (matching re_match items channel); cbn; auto.
Qed.

Lemma listen_sends_socket_phase re_match k ws data chans c :
  listen_sends (socket_phase_trace re_match k ws data chans c) =
  [(ws, listen_request chans)].
Proof.
  unfold socket_phase_trace.
  rewrite !listen_sends_app, listen_sends_fanout. reflexivity.
Qed.

Lemma feed_subscribes_socket_phase re_match k ws data chans c :
  feed_subscribes (socket_phase_trace re_match k ws data chans c) = [].
Proof.
  unfold socket_phase_trace.
  rewrite !feed_subscribes_app, feed_subscribes_fanout. reflexivity.
Qed.

Lemma events_socket_phase re_match k ws data chans (s s1 : state)
  (c : StreamConn) :
  _key_id (self s1) = _key_id c ->
  _secret_key (self s1) = _secret_key c ->
  _handlers (self s1) = _handlers c ->
  events (world s1) = EvConnect k (endpoint_of k c) :: events (world s) ->
  events (world (extend [EvSend ws (listen_request chans)]
                   (connected re_match ws data s1))) =
  rev (socket_phase_trace re_match k ws data chans c) ++ events (world s).
Proof.
  intros Hkey Hsecret Hhandlers Hev.
  unfold socket_phase_trace, connected, with_task, with_ws,
    after_handshake, extend. cbn. rewrite Hkey, Hsecret, Hhandlers, Hev.
  rewrite !rev_app_distr. cbn. rewrite <- !app_assoc. reflexivity.
Qed.

(** The round trip of a router that holds no connection yet: with peers
    that cooperate, subscribing to trade_updates, T.AAPL and bars/AAPL
    succeeds and sends exactly two listen requests, the first on the
    connection opened for the events class with the stream trade_updates,
    the second on the connection opened for the data class with the stream
    bars/AAPL, and makes exactly one subscribe call on the feed client, with
    T.AAPL. *)
Lemma fresh_router_round_trip (re_match : pattern -> string -> bool)
  (env : Env) (s : state) :
  reachable re_match env s ->
  _ws (self s) = None ->
  _data_ws (self s) = None ->
  polygon (self s) = None ->
  cooperative env (clock s) ->
  let r := subscribe re_match env ["trade_updates"; "T.AAPL"; "bars/AAPL"] s in
  let tr := trace_between s (snd r) in
  let events_ws := fresh (world s) in
  let data_ws := S (fresh (world s)) in
  fst r = Ok tt
  /\ listen_sends tr =
     [(events_ws,
       JObj [("action", JStr "listen");
             ("data", JObj [("streams", JArr [JStr "trade_updates"])])]);
      (data_ws,
       JObj [("action", JStr "listen");
             ("data", JObj [("streams", JArr [JStr "bars/AAPL"])])])]
  /\ feed_subscribes tr = [["T.AAPL"]]
  /\ class_of (world (snd r)) events_ws = Some EventsClass
  /\ class_of (world (snd r)) data_ws = Some DataClass
  /\ In (EvConnect EventsClass (_endpoint (self s))) tr
  /\ In (EvConnect DataClass (_data_endpoint (self s))) tr.
Proof.
  intros Hreach Hws Hdws Hp Hco r tr ews dws.
  pose proof (reachable_Inv _ _ _ Hreach) as HI.
  assert (Hold : closed_are_old s) by exact (inv_closed_old _ _ HI).
  assert (Hconn : forall t, clock s <= t -> on_connect env t = None)
    by (intros t Ht; now destruct (Hco t Ht) as (? & _)).
  assert (Hsend : forall t, clock s <= t -> on_send env t = None)
    by (intros t Ht; now destruct (Hco t Ht) as (_ & ? & _)).
  assert (Hret : forall t, clock s <= t -> on_handler env t = None)
    by (intros t Ht; now destruct (Hco t Ht) as (_ & _ & _ & ? & _)).
  assert (Hpoly : forall t, clock s <= t -> on_polygon env t = None)
    by (intros t Ht; now destruct (Hco t Ht) as (_ & _ & _ & _ & ?)).
  destruct (Hco (S (S (clock s)))) as (_ & _ & (kv1 & d1 & Hr1 & Ha1) & _);
    [lia|].
  pose (s1 := extend [EvSend ews (listen_request ["trade_updates"])]
                (with_ws ews
                   (connected re_match ews d1
                      (after_connect EventsClass (_endpoint (self s)) s)))).
  assert (H1 : subscribe_ws re_match env ["trade_updates"] s = (Ok tt, s1)).
  { apply (subscribe_ws_succeeds re_match env _ s kv1 d1);
      [discriminate | exact Hws | exact Hold | apply Hconn; lia | exact Hsend
      | exact Hr1 | exact Ha1 | exact Hret]. }
  assert (Hev1 : events (world s1) =
                 rev (socket_phase_trace re_match EventsClass ews d1
                        ["trade_updates"] (self s)) ++ events (world s)).
  { exact (events_socket_phase re_match EventsClass ews d1 ["trade_updates"] s
             (after_connect EventsClass (_endpoint (self s)) s) (self s)
             eq_refl eq_refl eq_refl eq_refl). }
  assert (Hc1 : clock s <= clock s1).
  { unfold clock. rewrite Hev1, length_app. lia. }
  destruct (Hco (S (S (clock s1)))) as (_ & _ & (kv2 & d2 & Hr2 & Ha2) & _);
    [lia|].
  pose (s2 := extend [EvSend dws (listen_request ["bars/AAPL"])]
                (with_data_ws dws
                   (connected re_match dws d2
                      (after_connect DataClass (_data_endpoint (self s1)) s1)))).
  assert (H2 : subscribe_data re_match env ["bars/AAPL"] s1 = (Ok tt, s2)).
  { apply (subscribe_data_succeeds re_match env _ s1 kv2 d2);
      [discriminate | exact Hdws | | apply Hconn; lia
      | intros t Ht; apply Hsend; lia | exact Hr2 | exact Ha2
      | intros t Ht; apply Hret; lia].
    intros x Hx. apply Hold in Hx. cbn. lia. }
  assert (Hev2 : events (world s2) =
                 rev (socket_phase_trace re_match DataClass dws d2
                        ["bars/AAPL"] (self s)) ++ events (world s1)).
  { exact (events_socket_phase re_match DataClass dws d2 ["bars/AAPL"] s1
             (after_connect DataClass (_data_endpoint (self s1)) s1) (self s)
             eq_refl eq_refl eq_refl eq_refl). }
  assert (Hc2 : clock s1 <= clock s2).
  { unfold clock. rewrite Hev2, length_app. lia. }
  pose (s3 := extend (feed_phase_trace ["T.AAPL"] (self s2))
                (mkState (set_polygon (Some (feed_key (self s2))) (self s2))
                   (world s2))).
  assert (H3 : subscribe_nats env ["T.AAPL"] s2 = (Ok tt, s3)).
  { apply subscribe_nats_succeeds;
      [discriminate | exact Hp | intros t Ht; apply Hpoly; lia]. }
  assert (Hr : r = (Ok tt, s3)).
  { unfold r, subscribe.
    change (partition_channels ["trade_updates"; "T.AAPL"; "bars/AAPL"])
      with (mkPartitions ["trade_updates"] ["bars/AAPL"] ["T.AAPL"]).
    cbn [ws_channels data_channels nats_channels].
    unfold bind. rewrite H1, H2. exact H3. }
  assert (Htr : tr =
            socket_phase_trace re_match EventsClass ews d1 ["trade_updates"] (self s)
            ++ socket_phase_trace re_match DataClass dws d2 ["bars/AAPL"] (self s)
            ++ feed_phase_trace ["T.AAPL"] (self s)).
  { unfold tr. rewrite Hr. cbn [snd]. apply trace_between_events.
    change (events (world s3))
      with (rev (feed_phase_trace ["T.AAPL"] (self s)) ++ events (world s2)).
    rewrite Hev2, Hev1, !rev_app_distr, <- !app_assoc. reflexivity. }
  rewrite Htr, Hr.
  split; [reflexivity|].
  split.
  { rewrite !listen_sends_app, !listen_sends_socket_phase. reflexivity. }
  split.
  { rewrite !feed_subscribes_app, !feed_subscribes_socket_phase. reflexivity. }
  assert (Hop : opened_for (world s3) =
                (dws, DataClass) :: (ews, EventsClass) :: opened_for (world s))
    by reflexivity.
  cbn [snd]. unfold class_of. rewrite Hop. cbn [find fst].
  assert (Hne : Nat.eqb dws ews = false) by (apply Nat.eqb_neq; unfold dws; lia).
  rewrite Hne, !Nat.eqb_refl.
  split; [reflexivity|].
  split; [reflexivity|].
  split.
  - apply in_or_app. left. now left.
  - apply in_or_app. right. apply in_or_app. left. now left.
Qed.

(** C2 (what the code does): in a reachable state without a data
    connection, bringing the data connection up against a peer that
    authorizes stores the new connection in the data-socket field and, through
    [_connect], in the events-socket field as well: afterwards the two fields
    reference the same connection, and the events-socket field has changed. *)
Theorem data_connection_takes_both_fields
  (re_match : pattern -> string -> bool) (env : Env) (s : state)
  (kv : list (string * json)) (data : json) :
  reachable re_match env s ->
  _data_ws (self s) = None ->
  on_connect env (clock s) = None ->
  on_send env (S (clock s)) = None ->
  on_recv env (S (S (clock s))) = inr (Frame (Some (JObj kv))) ->
  authorizes kv data ->
  (forall t, S (S (clock s)) < t -> on_handler env t = None) ->
  let r := _ensure_data_ws re_match env s in
  fst r = Ok tt
  /\ _data_ws (self (snd r)) = Some (fresh (world s))
  /\ _ws (self (snd r)) = Some (fresh (world s))
  /\ _ws (self (snd r)) = _data_ws (self (snd r))
  /\ _ws (self (snd r)) <> _ws (self s).
Proof.
  intros Hreach Hws Hconn Hsend Hrecv Hauth Hret r. subst r.
  pose proof (reachable_Inv _ _ _ Hreach) as HI.
  rewrite (_ensure_data_ws_succeeds re_match env s kv data Hws
             (inv_closed_old _ _ HI) Hconn Hsend Hrecv Hauth Hret).
  cbn. repeat split.
  intros Heq. symmetry in Heq. apply (inv_ws_old _ _ HI) in Heq. lia.
Qed.

(** ** Failure of a partition *)

Lemma emits_trace {A : Type} (P : event -> Prop) (m : M A) (s : state) :
  emits P m ->
  events (world (snd (m s))) =
    rev (trace_between s (snd (m s))) ++ events (world s)
  /\ Forall P (trace_between s (snd (m s))).
Proof.
  intros Hm. destruct (Hm s) as [tr [E F]].
  rewrite (trace_between_events s _ tr E). now split.
Qed.

Lemma map_JStr_inj (a b : list string) : map JStr a = map JStr b -> a = b.
Proof.
  revert b; induction a as [|x a IH]; intros [|y b] H; try discriminate; auto.
  inversion H; subst. f_equal. now apply IH.
Qed.

Lemma listen_request_inj (a b : list string) :
  listen_request a = listen_request b -> a = b.
Proof. intros H. inversion H. now apply map_JStr_inj. Qed.

Lemma partitions_differ (channels : list string) :
  ws_channels (partition_channels channels) <> [] ->
  ws_channels (partition_channels channels) <>
  data_channels (partition_channels channels).
Proof.
  rewrite partition_channels_filter. cbn. intros Hne Heq.
  destruct (filter (in_class EventsClass) channels) as [|c l] eqn:E;
    [congruence|].
  assert (H1 : In c (filter (in_class EventsClass) channels))
    by (rewrite E; now left).
  assert (H2 : In c (filter (in_class DataClass) channels))
    by (rewrite <- Heq; now left).
  apply filter_In in H1. apply filter_In in H2.
  destruct H1 as [_ H1], H2 as [_ H2]. unfold in_class in *.
  destruct (classify c); discriminate.
Qed.

Lemma subscribe_ws_raise_nonempty re_match env chans s e s1 :
  subscribe_ws re_match env chans s = (Raise e, s1) -> chans <> [].
Proof. intros H ->. discriminate. Qed.

Lemma socket_phase_not_feed k chans chans' ev :
  socket_phase_event k chans ev -> ~ attempts FeedClass chans' ev.
Proof. destruct ev; cbn; intros H H'; try tauto; try discriminate. Qed.

Lemma socket_phase_not_socket k k' chans chans' ev :
  k <> k' -> chans <> chans' ->
  socket_phase_event k chans ev -> ~ attempts k' chans' ev.
Proof.
  intros Hk Hc. destruct ev; cbn; intros H H'; try tauto.
  - destruct H'. congruence.
  - destruct H' as [_ ->]. destruct H as [(key & secret & H)|H].
    + discriminate.
    + apply listen_request_inj in H. congruence.
Qed.

(** C1 (amended): [subscribe] works through the events, data and feed
    partitions in this order and stops at the first failure.  When the
    events block raises, [subscribe] raises the same exception in the same
    state, and nothing has been attempted for the data and feed partitions;
    when the events block succeeds and the data block raises, [subscribe]
    raises that exception, and nothing has been attempted for the feed
    partition. *)
Theorem subscribe_stops_at_first_failure
  (re_match : pattern -> string -> bool) (env : Env)
  (channels : list string) (s : state) :
  let p := partition_channels channels in
  (forall e s1,
      subscribe_ws re_match env (ws_channels p) s = (Raise e, s1) ->
      subscribe re_match env channels s = (Raise e, s1)
      /\ ~ Exists (attempts DataClass (data_channels p)) (trace_between s s1)
      /\ ~ Exists (attempts FeedClass (nats_channels p)) (trace_between s s1))
  /\ (forall e s1 s2,
        subscribe_ws re_match env (ws_channels p) s = (Ok tt, s1) ->
        subscribe_data re_match env (data_channels p) s1 = (Raise e, s2) ->
        subscribe re_match env channels s = (Raise e, s2)
        /\ ~ Exists (attempts FeedClass (nats_channels p))
               (trace_between s s2)).
Proof.
  intros p. split.
  - intros e s1 H.
    pose proof (emits_trace _ _ s (emits_subscribe_ws re_match env (ws_channels p)))
      as [_ HF].
    rewrite H in HF. cbn [snd] in HF.
    split; [unfold subscribe, bind; fold p; now rewrite H|].
    split; intros Hex; apply Exists_exists in Hex; destruct Hex as [ev [Hin Hat]];
      rewrite Forall_forall in HF; specialize (HF ev Hin).
    + revert Hat. apply (socket_phase_not_socket EventsClass DataClass
                           (ws_channels p) (data_channels p)); auto.
      * discriminate.
      * apply partitions_differ.
        now apply (subscribe_ws_raise_nonempty re_match env _ s e s1).
    + revert Hat. now apply (socket_phase_not_feed EventsClass (ws_channels p)).
  - intros e s1 s2 H1 H2.
    pose proof (emits_trace _ _ s (emits_subscribe_ws re_match env (ws_channels p)))
      as [E1 F1].
    pose proof (emits_trace _ _ s1
                  (emits_subscribe_data re_match env (data_channels p)))
      as [E2 F2].
    rewrite H1 in E1, F1. rewrite H2 in E2, F2. cbn [snd] in *.
    split; [unfold subscribe, bind; fold p; now rewrite H1, H2|].
    rewrite (trace_between_events s s2
               (trace_between s s1 ++ trace_between s1 s2))
      by (rewrite E2, E1, rev_app_distr, app_assoc; reflexivity).
    intros Hex. apply Exists_app in Hex.
    destruct Hex as [Hex|Hex]; apply Exists_exists in Hex;
      destruct Hex as [ev [Hin Hat]].
    + rewrite Forall_forall in F1. specialize (F1 ev Hin).
      revert Hat. now apply (socket_phase_not_feed EventsClass (ws_channels p)).
    + rewrite Forall_forall in F2. specialize (F2 ev Hin).
      revert Hat. now apply (socket_phase_not_feed DataClass (data_channels p)).
Qed.

(** ** The round trip *)

Section Handshakes.

Variable re_match : pattern -> string -> bool.
Variable env : Env.

Lemma emits__ensure_ws :
  emits (handshake_event EventsClass) (_ensure_ws re_match env).
Proof.
  unfold _ensure_ws, websockets_connect, _connect, ws_send, ws_recv, loads,
    py_in, getitem, _dispatch, ensure_future.
  emits_with ltac:(apply emits_dispatch_items; solve [intros; exact I]).
Qed.

Lemma emits__ensure_data_ws :
  emits (handshake_event DataClass) (_ensure_data_ws re_match env).
Proof.
  unfold _ensure_data_ws, websockets_connect, _connect, ws_send, ws_recv,
    loads, py_in, getitem, _dispatch, ensure_future.
  emits_with ltac:(apply emits_dispatch_items; solve [intros; exact I]).
Qed.

End Handshakes.

Lemma handshake_event_no_listen k tr :
  Forall (handshake_event k) tr -> listen_sends tr = [].
Proof.
  induction tr as [|ev tr IH]; intros H; [reflexivity|].
  inversion H as [|x xs Hev Hrest]; subst.
  change (ev :: tr) with ([ev] ++ tr).
  rewrite listen_sends_app, (IH Hrest), app_nil_r.
  destruct ev; try reflexivity.
  destruct Hev as (key & secret & ->). reflexivity.
Qed.

Lemma handshake_event_no_feed k tr :
  Forall (handshake_event k) tr -> feed_subscribes tr = [].
Proof.
  induction tr as [|ev tr IH]; intros H; [reflexivity|].
  inversion H as [|x xs Hev Hrest]; subst.
  change (ev :: tr) with ([ev] ++ tr).
  rewrite feed_subscribes_app, (IH Hrest), app_nil_r.
  destruct ev; try reflexivity. destruct Hev.
Qed.

Lemma ws_send_state env ws payload s :
  snd (ws_send env ws payload s) = extend [EvSend ws payload] s.
Proof.
  unfold ws_send, bind, now, emit, modify_world, is_closed, answer. cbn.
  destruct (existsb _ _); cbn; [reflexivity|].
  destruct (on_send env _); reflexivity.
Qed.

Lemma stable_extends (s0 : state) :
  stable (fun s => exists tr, s = extend tr s0).
Proof.
  intros tr s [tr0 ->]. exists (tr0 ++ tr). apply extend_extend.
Qed.

Lemma websockets_connect_returns env k url s ws s1 :
  websockets_connect env k url s = (Ok ws, s1) ->
  ws = fresh (world s) /\ s1 = after_connect k url s.
Proof.
  unfold websockets_connect, bind, now, emit, modify_world, answer. cbn.
  destruct (on_connect env (clock s)); cbn; intros H; inversion H.
  split; reflexivity.
Qed.

Section RoundTrip.

Variable re_match : pattern -> string -> bool.
Variable env : Env.

(** [_connect] that returns has recorded effects, stored the connection in
    the events-socket field and started the read loop. *)
Lemma _connect_shape ws s0 :
  hoare (fun s => exists tr, s = extend tr s0) (_connect re_match env ws)
        (fun _ s => exists tr, s = with_task ws (extend tr (with_ws ws s0)))
        (fun _ => True).
Proof.
  unfold _connect.
  repeat (apply hoare_seq_logs;
          [solve [logs] | apply stable_extends | trivial | intros ?]).
  apply hoare_bind with
    (Q := fun _ s => exists tr, s = extend tr (with_ws ws s0)).
  { apply hoare_modify_self. intros s [tr ->]. now exists tr. }
  intros _.
  apply hoare_seq_logs;
    [solve [logs] | apply stable_extends | trivial | intros _].
  intros s [tr ->]. cbn. now exists tr.
Qed.

Lemma _connect_returns ws s s1 :
  _connect re_match env ws s = (Ok tt, s1) ->
  exists tr, s1 = with_task ws (extend tr (with_ws ws s)).
Proof.
  intros H. pose proof (_connect_shape ws s s) as Hs.
  rewrite H in Hs. apply Hs. exists []. now rewrite extend_nil.
Qed.

Lemma _ensure_ws_returns s s1 :
  _ws (self s) = None ->
  _ensure_ws re_match env s = (Ok tt, s1) ->
  exists tr, s1 = brought_up EventsClass tr s.
Proof.
  intros Hws. unfold _ensure_ws, bind at 1, gets at 1. rewrite Hws.
  unfold bind at 1, gets at 1. unfold bind at 1.
  destruct (websockets_connect env EventsClass (_endpoint (self s)) s)
    as [[ws|e] sc] eqn:Ec; [|discriminate].
  apply websockets_connect_returns in Ec. destruct Ec as [-> ->].
  unfold bind.
  destruct (_connect re_match env (fresh (world s)) _) as [[[]|e] s2] eqn:E2;
    [|discriminate].
  apply _connect_returns in E2. destruct E2 as [tr ->].
  intros H. inversion H. now exists tr.
Qed.

Lemma _ensure_data_ws_returns s s1 :
  _data_ws (self s) = None ->
  _ensure_data_ws re_match env s = (Ok tt, s1) ->
  exists tr, s1 = brought_up DataClass tr s.
Proof.
  intros Hws. unfold _ensure_data_ws, bind at 1, gets at 1. rewrite Hws.
  unfold bind at 1, gets at 1. unfold bind at 1.
  destruct (websockets_connect env DataClass (_data_endpoint (self s)) s)
    as [[ws|e] sc] eqn:Ec; [|discriminate].
  apply websockets_connect_returns in Ec. destruct Ec as [-> ->].
  unfold bind.
  destruct (_connect re_match env (fresh (world s)) _) as [[[]|e] s2] eqn:E2;
    [|discriminate].
  apply _connect_returns in E2. destruct E2 as [tr ->].
  intros H. inversion H. now exists tr.
Qed.

Lemma trace_brought_up k tr s :
  trace_between s (brought_up k tr s) =
  EvConnect k (endpoint_of k (self s)) :: tr ++ [EvSpawn (fresh (world s))].
Proof.
  apply trace_between_events. destruct k; cbn; rewrite rev_app_distr;
    cbn; now rewrite <- app_assoc.
Qed.

Lemma socket_phase_stored k chans s ws :
  socket_handle k (self s) = Some ws ->
  socket_phase_done k chans s (extend [EvSend ws (listen_request chans)] s)
    [EvSend ws (listen_request chans)].
Proof.
  intros H. constructor; unfold phase_target; cbn; rewrite ?H;
    try reflexivity; try discriminate; try exact H.
Qed.

Lemma socket_phase_opened k chans tr s :
  k <> FeedClass ->
  socket_handle k (self s) = None ->
  Forall (handshake_event k) (trace_between s (brought_up k tr s)) ->
  socket_phase_done k chans s
    (extend [EvSend (fresh (world s)) (listen_request chans)]
       (brought_up k tr s))
    (trace_between s (brought_up k tr s)
     ++ [EvSend (fresh (world s)) (listen_request chans)]).
Proof.
  intros Hk H HF.
  pose proof (handshake_event_no_listen k _ HF) as HL.
  pose proof (handshake_event_no_feed k _ HF) as HN.
  rewrite trace_brought_up in *.
  destruct k; [| |congruence].
  all: constructor; unfold phase_target; rewrite ?H.
  all: try (rewrite listen_sends_app, HL; reflexivity).
  all: try (rewrite feed_subscribes_app, HN; reflexivity).
  all: try reflexivity.
  all: try (intros _; first [reflexivity | now left]).
  all: try discriminate.
  all: cbn; rewrite !rev_app_distr; cbn; rewrite ?rev_app_distr; cbn;
    now rewrite <- ?app_assoc.
Qed.

Lemma subscribe_ws_done chans s s1 :
  chans <> [] ->
  subscribe_ws re_match env chans s = (Ok tt, s1) ->
  socket_phase_done EventsClass chans s s1 (trace_between s s1).
Proof.
  intros Hne. destruct chans as [|c chans]; [congruence|].
  unfold subscribe_ws. cbn [List.length Nat.ltb Nat.leb].
  destruct (_ws (self s)) as [w|] eqn:Hw.
  - unfold _ensure_ws, field_send, bind, gets, ret. rewrite Hw. cbn [fst snd].
    rewrite Hw. intros H.
    assert (E : s1 = extend [EvSend w (listen_request (c :: chans))] s).
    { rewrite <- (ws_send_state env). now rewrite H. }
    rewrite E, trace_between_extend. now apply socket_phase_stored.
  - unfold bind at 1.
    pose proof (emits_trace _ _ s (emits__ensure_ws re_match env)) as [_ HF].
    destruct (_ensure_ws re_match env s) as [[[]|e] se] eqn:Ee; [|discriminate].
    cbn [snd] in HF.
    apply _ensure_ws_returns in Ee; [|exact Hw]. destruct Ee as [tr ->].
    unfold field_send, bind, gets.
    change (_ws (self (brought_up EventsClass tr s)))
      with (Some (fresh (world s))).
    intros H.
    assert (E : s1 = extend [EvSend (fresh (world s))
                               (listen_request (c :: chans))]
                       (brought_up EventsClass tr s)).
    { rewrite <- (ws_send_state env). now rewrite H. }
    rewrite E.
    rewrite (trace_between_events s _
               (trace_between s (brought_up EventsClass tr s)
                ++ [EvSend (fresh (world s)) (listen_request (c :: chans))])).
    + apply socket_phase_opened; [discriminate | exact Hw | exact HF].
    + rewrite trace_brought_up. cbn. rewrite !rev_app_distr. cbn.
      rewrite ?rev_app_distr. cbn. now rewrite <- ?app_assoc.
Qed.

Lemma subscribe_data_done chans s s1 :
  chans <> [] ->
  subscribe_data re_match env chans s = (Ok tt, s1) ->
  socket_phase_done DataClass chans s s1 (trace_between s s1).
Proof.
  intros Hne. destruct chans as [|c chans]; [congruence|].
  unfold subscribe_data. cbn [List.length Nat.ltb Nat.leb].
  destruct (_data_ws (self s)) as [w|] eqn:Hw.
  - unfold _ensure_data_ws, field_send, bind, gets, ret. rewrite Hw.
    cbn [fst snd]. rewrite Hw. intros H.
    assert (E : s1 = extend [EvSend w (listen_request (c :: chans))] s).
    { rewrite <- (ws_send_state env). now rewrite H. }
    rewrite E, trace_between_extend. now apply socket_phase_stored.
  - unfold bind at 1.
    pose proof (emits_trace _ _ s (emits__ensure_data_ws re_match env))
      as [_ HF].
    destruct (_ensure_data_ws re_match env s) as [[[]|e] se] eqn:Ee;
      [|discriminate].
    cbn [snd] in HF.
    apply _ensure_data_ws_returns in Ee; [|exact Hw]. destruct Ee as [tr ->].
    unfold field_send, bind, gets.
    change (_data_ws (self (brought_up DataClass tr s)))
      with (Some (fresh (world s))).
    intros H.
    assert (E : s1 = extend [EvSend (fresh (world s))
                               (listen_request (c :: chans))]
                       (brought_up DataClass tr s)).
    { rewrite <- (ws_send_state env). now rewrite H. }
    rewrite E.
    rewrite (trace_between_events s _
               (trace_between s (brought_up DataClass tr s)
                ++ [EvSend (fresh (world s)) (listen_request (c :: chans))])).
    + apply socket_phase_opened; [discriminate | exact Hw | exact HF].
    + rewrite trace_brought_up. cbn. rewrite !rev_app_distr. cbn.
      rewrite ?rev_app_distr. cbn. now rewrite <- ?app_assoc.
Qed.

Lemma subscribe_nats_done chans s s1 :
  chans <> [] ->
  subscribe_nats env chans s = (Ok tt, s1) ->
  feed_phase_done chans s s1 (trace_between s s1).
Proof.
  intros Hne. destruct chans as [|c chans]; [congruence|].
  unfold subscribe_nats, _ensure_nats, feed_subscribe, polygon_call.
  cbn [List.length Nat.ltb Nat.leb].
  unfold bind, gets, now, emit, modify_world, modify_self, answer, ret.
  destruct (polygon (self s)) as [key|] eqn:Hp; cbn [fst snd].
  - rewrite Hp. destruct (on_polygon env _); [discriminate|].
    intros H. inversion H.
    change (mkState (self s) (log (EvPolygonSubscribe (c :: chans)) (world s)))
      with (extend [EvPolygonSubscribe (c :: chans)] s).
    rewrite trace_between_extend.
    constructor; cbn; rewrite ?Hp; try reflexivity. discriminate.
  - cbn. destruct (on_polygon env _); [discriminate|]. cbn.
    destruct (on_polygon env _); [discriminate|].
    intros H. inversion H.
    match goal with
    | |- feed_phase_done _ _ ?st _ =>
        change st
          with (extend (feed_phase_trace (c :: chans) (self s))
                  (mkState (set_polygon (Some (feed_key (self s))) (self s))
                     (world s)))
    end.
    rewrite (trace_between_events s _ (feed_phase_trace (c :: chans) (self s)))
      by reflexivity.
    constructor; cbn; rewrite ?Hp; try reflexivity.
    intros _. split; [now left | right; right; now left].
Qed.

End RoundTrip.

Lemma class_of_same_opened (w1 w0 : World) (x : sock) :
  opened_for w1 = opened_for w0 -> class_of w1 x = class_of w0 x.
Proof. intros H. unfold class_of. now rewrite H. Qed.

Lemma spd_class_old k chans s s1 t x :
  socket_phase_done k chans s s1 t ->
  x < fresh (world s) ->
  class_of (world s1) x = class_of (world s) x.
Proof.
  intros D Hlt. unfold class_of. rewrite (spd_opened _ _ _ _ _ D).
  destruct (socket_handle k (self s)); [reflexivity|].
  cbn [find fst]. destruct (Nat.eqb_spec (fresh (world s)) x); [lia|].
  reflexivity.
Qed.

Lemma spd_class_new k chans s s1 t :
  socket_phase_done k chans s s1 t ->
  socket_handle k (self s) = None ->
  class_of (world s1) (fresh (world s)) = Some k.
Proof.
  intros D H. unfold class_of. rewrite (spd_opened _ _ _ _ _ D), H.
  cbn [find fst]. now rewrite Nat.eqb_refl.
Qed.

Lemma spd_fresh_le k chans s s1 t :
  socket_phase_done k chans s s1 t -> fresh (world s) <= fresh (world s1).
Proof.
  intros D. rewrite (spd_fresh _ _ _ _ _ D).
  destruct (socket_handle k (self s)); lia.
Qed.

Lemma spd_clock k chans s s1 t :
  socket_phase_done k chans s s1 t -> clock s <= clock s1.
Proof.
  intros D. unfold clock. rewrite (spd_events _ _ _ _ _ D), length_app. lia.
Qed.

Section RoundTripReturns.

Variable re_match : pattern -> string -> bool.
Variable env : Env.

Lemma Inv_subscribe_ws chans s s1 :
  Inv s -> subscribe_ws re_match env chans s = (Ok tt, s1) -> Inv s1.
Proof.
  intros HI E.
  assert (H : hoare Inv (subscribe_ws re_match env chans) (fun _ => Inv) Inv).
  { unfold subscribe_ws. destruct (0 <? _)%nat; [|apply hoare_skip].
    apply hoare_then_logs;
      [apply hoare__ensure_ws | apply only_logs_field_send
      | apply stable_InvX]. }
  specialize (H s HI). now rewrite E in H.
Qed.

Lemma Inv_subscribe_data chans s s1 :
  Inv s -> subscribe_data re_match env chans s = (Ok tt, s1) -> Inv s1.
Proof.
  intros HI E.
  assert (H : hoare Inv (subscribe_data re_match env chans) (fun _ => Inv) Inv).
  { unfold subscribe_data. destruct (0 <? _)%nat; [|apply hoare_skip].
    apply hoare_then_logs;
      [apply hoare__ensure_data_ws | apply only_logs_field_send
      | apply stable_InvX]. }
  specialize (H s HI). now rewrite E in H.
Qed.

Lemma subscribe_ws_cooperates chans s :
  chans <> [] -> Inv s -> cooperative env (clock s) ->
  (forall ws, _ws (self s) = Some ws ->
              existsb (Nat.eqb ws) (closed (world s)) = false) ->
  fst (subscribe_ws re_match env chans s) = Ok tt.
Proof.
  intros Hne HI Hco Hopen.
  destruct (_ws (self s)) as [w|] eqn:Hw.
  - destruct chans as [|c chans]; [congruence|].
    unfold subscribe_ws, _ensure_ws, field_send. cbn [List.length Nat.ltb Nat.leb].
    unfold bind, gets, ret. rewrite Hw. cbn [fst snd]. rewrite Hw.
    rewrite (ws_send_succeeds env); [reflexivity | now apply Hopen|].
    now destruct (Hco (clock s) (le_n _)) as (_ & ? & _).
  - destruct (Hco (S (S (clock s)))) as (_ & _ & (kv & d & Hr & Ha) & _);
      [lia|].
    rewrite (subscribe_ws_succeeds re_match env chans s kv d); auto.
    + exact (inv_closed_old _ _ HI).
    + now destruct (Hco (clock s) (le_n _)) as (? & _).
    + intros t Ht. now destruct (Hco t Ht) as (_ & ? & _).
    + intros t Ht. now destruct (Hco t Ht) as (_ & _ & _ & ? & _).
Qed.

Lemma subscribe_data_cooperates chans s :
  chans <> [] -> Inv s -> cooperative env (clock s) ->
  (forall ws, _data_ws (self s) = Some ws ->
              existsb (Nat.eqb ws) (closed (world s)) = false) ->
  fst (subscribe_data re_match env chans s) = Ok tt.
Proof.
  intros Hne HI Hco Hopen.
  destruct (_data_ws (self s)) as [w|] eqn:Hw.
  - destruct chans as [|c chans]; [congruence|].
    unfold subscribe_data, _ensure_data_ws, field_send.
    cbn [List.length Nat.ltb Nat.leb].
    unfold bind, gets, ret. rewrite Hw. cbn [fst snd]. rewrite Hw.
    rewrite (ws_send_succeeds env); [reflexivity | now apply Hopen|].
    now destruct (Hco (clock s) (le_n _)) as (_ & ? & _).
  - destruct (Hco (S (S (clock s)))) as (_ & _ & (kv & d & Hr & Ha) & _);
      [lia|].
    rewrite (subscribe_data_succeeds re_match env chans s kv d); auto.
    + exact (inv_closed_old _ _ HI).
    + now destruct (Hco (clock s) (le_n _)) as (? & _).
    + intros t Ht. now destruct (Hco t Ht) as (_ & ? & _).
    + intros t Ht. now destruct (Hco t Ht) as (_ & _ & _ & ? & _).
Qed.

Lemma subscribe_nats_cooperates chans s :
  chans <> [] -> cooperative env (clock s) ->
  fst (subscribe_nats env chans s) = Ok tt.
Proof.
  intros Hne Hco.
  assert (Hpoly : forall t, clock s <= t -> on_polygon env t = None)
    by (intros t Ht; now destruct (Hco t Ht) as (_ & _ & _ & _ & ?)).
  destruct (polygon (self s)) as [key|] eqn:Hp.
  - destruct chans as [|c chans]; [congruence|].
    unfold subscribe_nats, _ensure_nats, feed_subscribe.
    cbn [List.length Nat.ltb Nat.leb].
    unfold bind, gets, ret. rewrite Hp. cbn [fst snd]. rewrite Hp.
    rewrite polygon_call_result, Hpoly; [reflexivity | lia].
  - now rewrite (subscribe_nats_succeeds env chans s Hne Hp Hpoly).
Qed.

End RoundTripReturns.

(** C5 (what the code does): the round trip from any reachable state.  A
    call of [subscribe] with trade_updates, T.AAPL and bars/AAPL returns when
    the peers cooperate and the stored connections are open.  When it
    returns, it has sent exactly two listen requests: the one for
    trade_updates on the connection that the events-socket field holds (the
    one stored there before the call, or the one that the call opens for the
    events class when the field is empty), and the one for bars/AAPL on the
    connection of the data class that the data-socket field holds
    afterwards; and it has made exactly one subscribe call, with T.AAPL, on
    the feed client, which the polygon field holds afterwards (created and
    connected by the call when the field was empty).  A connection that the
    events-socket field held before the call is of the class it was opened
    for, which need not be the events class. *)
Theorem subscribe_round_trip (re_match : pattern -> string -> bool)
  (env : Env) (s : state) :
  reachable re_match env s ->
  let r := subscribe re_match env ["trade_updates"; "T.AAPL"; "bars/AAPL"] s in
  let tr := trace_between s (snd r) in
  let events_ws :=
    match _ws (self s) with
    | Some ws => ws
    | None => fresh (world s)
    end in
  let data_ws :=
    match _data_ws (self s), _ws (self s) with
    | Some ws, _ => ws
    | None, Some _ => fresh (world s)
    | None, None => S (fresh (world s))
    end in
  let key :=
    match polygon (self s) with
    | Some key => key
    | None => feed_key (self s)
    end in
  (cooperative env (clock s) -> stored_open s -> fst r = Ok tt)
  /\ (fst r = Ok tt ->
      listen_sends tr =
        [(events_ws,
          JObj [("action", JStr "listen");
                ("data", JObj [("streams", JArr [JStr "trade_updates"])])]);
         (data_ws,
          JObj [("action", JStr "listen");
                ("data", JObj [("streams", JArr [JStr "bars/AAPL"])])])]
      /\ feed_subscribes tr = [["T.AAPL"]]
      /\ _data_ws (self (snd r)) = Some data_ws
      /\ class_of (world (snd r)) data_ws = Some DataClass
      /\ polygon (self (snd r)) = Some key
      /\ (_ws (self s) = None ->
          class_of (world (snd r)) events_ws = Some EventsClass
          /\ In (EvConnect EventsClass (_endpoint (self s))) tr)
      /\ (_ws (self s) <> None ->
          class_of (world (snd r)) events_ws = class_of (world s) events_ws)
      /\ (_data_ws (self s) = None ->
          In (EvConnect DataClass (_data_endpoint (self s))) tr)
      /\ (polygon (self s) = None ->
          In (EvPolygonStream key) tr /\ In EvPolygonConnect tr)).
Proof.
  intros Hreach r tr ews dws key.
  pose proof (reachable_Inv _ _ _ Hreach) as HI.
  assert (Hsub : r =
            bind (subscribe_ws re_match env ["trade_updates"])
              (fun _ => bind (subscribe_data re_match env ["bars/AAPL"])
                          (fun _ => subscribe_nats env ["T.AAPL"])) s)
    by reflexivity.
  assert (N1 : ["trade_updates"] <> @nil string) by discriminate.
  assert (N2 : ["bars/AAPL"] <> @nil string) by discriminate.
  assert (N3 : ["T.AAPL"] <> @nil string) by discriminate.
  split.
  - intros Hco Hopen. rewrite Hsub. unfold bind.
    pose proof (subscribe_ws_cooperates re_match env _ s N1 HI Hco) as R1.
    destruct (subscribe_ws re_match env ["trade_updates"] s)
      as [[[]|e1] s1] eqn:E1;
      [|(cbn in R1; apply R1; intros ws Hws; apply Hopen; now left)].
    pose proof (subscribe_ws_done re_match env _ s s1 N1 E1) as D1.
    pose proof (Inv_subscribe_ws re_match env _ s s1 HI E1) as HI1.
    pose proof (spd_clock _ _ _ _ _ D1) as Hc1.
    assert (Hco1 : cooperative env (clock s1))
      by (intros t Ht; apply Hco; lia).
    pose proof (subscribe_data_cooperates re_match env _ s1 N2 HI1 Hco1)
      as R2.
    destruct (subscribe_data re_match env ["bars/AAPL"] s1)
      as [[[]|e2] s2] eqn:E2.
    + pose proof (subscribe_data_done re_match env _ s1 s2 N2 E2) as D2.
      pose proof (spd_clock _ _ _ _ _ D2) as Hc2.
      apply subscribe_nats_cooperates; [exact N3|].
      intros t Ht. apply Hco. lia.
    + cbn in R2. apply R2. intros ws Hws.
      rewrite (spd_closed _ _ _ _ _ D1). apply Hopen. right.
      now rewrite <- (spd_data _ _ _ _ _ D1 eq_refl).
  - intros Hok. unfold tr. rewrite Hsub in Hok |- *. unfold bind in Hok |- *.
    destruct (subscribe_ws re_match env ["trade_updates"] s)
      as [[[]|e1] s1] eqn:E1; [|discriminate Hok].
    destruct (subscribe_data re_match env ["bars/AAPL"] s1)
      as [[[]|e2] s2] eqn:E2; [|discriminate Hok].
    destruct (subscribe_nats env ["T.AAPL"] s2) as [[[]|e3] s3] eqn:E3;
      [|discriminate Hok].
    cbn [snd].
    pose proof (subscribe_ws_done re_match env _ s s1 N1 E1) as D1.
    pose proof (subscribe_data_done re_match env _ s1 s2 N2 E2) as D2.
    pose proof (subscribe_nats_done env _ s2 s3 N3 E3) as D3.
    pose proof (Inv_subscribe_ws re_match env _ s s1 HI E1) as HI1.
    set (t1 := trace_between s s1) in *.
    set (t2 := trace_between s1 s2) in *.
    set (t3 := trace_between s2 s3) in *.
    assert (Htr : trace_between s s3 = t1 ++ t2 ++ t3).
    { apply trace_between_events.
      rewrite (fpd_events _ _ _ _ D3), (spd_events _ _ _ _ _ D2),
        (spd_events _ _ _ _ _ D1), !rev_app_distr, <- !app_assoc.
      reflexivity. }
    assert (Hd1 : _data_ws (self s1) = _data_ws (self s))
      by exact (spd_data _ _ _ _ _ D1 eq_refl).
    assert (Hf1 : fresh (world s1) =
                  match _ws (self s) with
                  | Some _ => fresh (world s)
                  | None => S (fresh (world s))
                  end) by exact (spd_fresh _ _ _ _ _ D1).
    assert (Hews : phase_target EventsClass s = ews) by reflexivity.
    assert (Hdws : phase_target DataClass s1 = dws).
    { unfold phase_target, dws. cbn [socket_handle]. rewrite Hd1, Hf1.
      destruct (_data_ws (self s)), (_ws (self s)); reflexivity. }
    assert (Hp2 : polygon (self s2) = polygon (self s)).
    { transitivity (polygon (self s1)).
      - exact (f_equal polygon (spd_rest _ _ _ _ _ D2)).
      - exact (f_equal polygon (spd_rest _ _ _ _ _ D1)). }
    assert (Hk2 : feed_key (self s2) = feed_key (self s)).
    { transitivity (feed_key (self s1)).
      - exact (f_equal feed_key (spd_rest _ _ _ _ _ D2)).
      - exact (f_equal feed_key (spd_rest _ _ _ _ _ D1)). }
    assert (Hc3 : forall x, class_of (world s3) x = class_of (world s2) x)
      by (intros x; apply class_of_same_opened; exact (fpd_opened _ _ _ _ D3)).
    rewrite Htr.
    split.
    { rewrite !listen_sends_app, (spd_listen _ _ _ _ _ D1),
        (spd_listen _ _ _ _ _ D2), (fpd_listen _ _ _ _ D3), Hews, Hdws.
      reflexivity. }
    split.
    { rewrite !feed_subscribes_app, (spd_feed _ _ _ _ _ D1),
        (spd_feed _ _ _ _ _ D2), (fpd_feed _ _ _ _ D3). reflexivity. }
    split.
    { rewrite (fpd_data_ws _ _ _ _ D3), <- Hdws.
      exact (spd_handle _ _ _ _ _ D2). }
    split.
    { rewrite Hc3, <- Hdws. unfold phase_target. cbn [socket_handle].
      destruct (_data_ws (self s1)) as [d|] eqn:Ed.
      - pose proof (inv_data_ws_class _ _ HI1 d Ed) as Hcl.
        rewrite (spd_class_old _ _ _ _ _ d D2); [exact Hcl|].
        exact (InvX_class_old None s1 d DataClass HI1 Hcl).
      - now apply (spd_class_new _ _ _ _ _ D2). }
    split.
    { rewrite (fpd_polygon _ _ _ _ D3), Hp2, Hk2. reflexivity. }
    split.
    { intros Hnone. split.
      - rewrite Hc3. unfold ews. rewrite Hnone.
        rewrite (spd_class_old _ _ _ _ _ (fresh (world s)) D2).
        + now apply (spd_class_new _ _ _ _ _ D1).
        + rewrite Hf1, Hnone. lia.
      - apply in_or_app. left. now apply (spd_connect _ _ _ _ _ D1). }
    split.
    { intros Hsome. unfold ews.
      destruct (_ws (self s)) as [w|] eqn:Hw; [|congruence].
      pose proof (inv_ws_old _ _ HI w Hw) as Hlt.
      pose proof (spd_fresh_le _ _ _ _ _ D1) as Hle.
      rewrite Hc3, (spd_class_old _ _ _ _ _ w D2) by lia.
      now apply (spd_class_old _ _ _ _ _ w D1). }
    split.
    { intros Hnone. apply in_or_app. right. apply in_or_app. left.
      assert (He : _data_endpoint (self s1) = _data_endpoint (self s))
        by exact (f_equal _data_endpoint (spd_rest _ _ _ _ _ D1)).
      rewrite <- He.
      apply (spd_connect _ _ _ _ _ D2). cbn [socket_handle]. congruence. }
    intros Hnone. unfold key. rewrite Hnone, <- Hk2.
    assert (Hn2 : polygon (self s2) = None) by congruence.
    destruct (fpd_created _ _ _ _ D3 Hn2) as [A B].
    split; apply in_or_app; right; apply in_or_app; right; assumption.
Qed.

(** ** How a read loop ends *)

Lemma consume_loop_stops (re_match : pattern -> string -> bool) (env : Env)
  (fuel : nat) (ws : sock) (s : state) :
  (existsb (Nat.eqb ws) (closed (world s)) = true ->
   consume_loop re_match env (S fuel) ws s =
   (Raise ConnectionClosed, extend [EvRecv ws] s))
  /\ (forall e,
        existsb (Nat.eqb ws) (closed (world s)) = false ->
        on_recv env (clock s) = inl e ->
        consume_loop re_match env (S fuel) ws s =
        (Raise e, extend [EvRecv ws] s))
  /\ (existsb (Nat.eqb ws) (closed (world s)) = false ->
      on_recv env (clock s) = inr (Frame None) ->
      consume_loop re_match env (S fuel) ws s =
      (Raise DecodeError, extend [EvRecv ws] s)).
Proof.
  repeat split; intros; cbn [consume_loop];
    unfold consume_once, ws_recv, loads; run_monad; reflexivity.
Qed.

(** The loop ends at its next receive when the connection has been closed
    on this side, when the receive fails, and when the payload does not
    decode; the [finally] block then runs. *)
Lemma read_loop_exits (re_match : pattern -> string -> bool) (env : Env)
  (fuel : nat) (ws : sock) (s : state) :
  (existsb (Nat.eqb ws) (closed (world s)) = true ->
   _consume_msg re_match env (S fuel) ws s =
   (Raise ConnectionClosed, after_loop_exit ws (extend [EvRecv ws] s)))
  /\ (forall e,
        existsb (Nat.eqb ws) (closed (world s)) = false ->
        on_recv env (clock s) = inl e ->
        _consume_msg re_match env (S fuel) ws s =
        (Raise e, after_loop_exit ws (extend [EvRecv ws] s)))
  /\ (existsb (Nat.eqb ws) (closed (world s)) = false ->
      on_recv env (clock s) = inr (Frame None) ->
      _consume_msg re_match env (S fuel) ws s =
      (Raise DecodeError, after_loop_exit ws (extend [EvRecv ws] s))).
Proof.
  destruct (consume_loop_stops re_match env fuel ws s) as (H1 & H2 & H3).
  repeat split; intros; unfold _consume_msg;
    [rewrite H1 | rewrite (H2 e) | rewrite H3]; auto;
    now rewrite consume_finally_run.
Qed.

(** ** Shutdown and the handles *)

Lemma winds_down_refl s : winds_down s s.
Proof.
  constructor; auto.
  now exists [].
Qed.

Lemma winds_down_trans s1 s2 s3 :
  winds_down s1 s2 -> winds_down s2 s3 -> winds_down s1 s3.
Proof.
  intros [A1 A2 A3 A4 A5 A6 A7 [ta A8] A9 A10]
         [B1 B2 B3 B4 B5 B6 B7 [tb B8] B9 B10].
  constructor.
  - congruence.
  - destruct B2 as [B2|B2]; [rewrite B2; exact A2 | now right].
  - destruct B3 as [B3|B3]; [rewrite B3; exact A3 | now right].
  - auto.
  - auto.
  - intros H.
    assert (E1 : self s2 = self s1) by (apply A6; intros x Hx; auto).
    assert (E2 : self s3 = self s2) by (apply B6; intros x Hx; auto).
    congruence.
  - intros d Hd. destruct (A7 d Hd) as [H|H]; [now apply B7 | right; auto].
  - exists (ta ++ tb). rewrite B8, A8, rev_app_distr, app_assoc. reflexivity.
  - congruence.
  - congruence.
Qed.

Lemma winds_down_extend tr s : winds_down s (extend tr s).
Proof.
  constructor; cbn; auto.
  now exists tr.
Qed.

Lemma winds_down_after_ws_close ws s : winds_down s (after_ws_close ws s).
Proof.
  constructor; cbn; auto.
  now exists [EvClose ws].
Qed.

Lemma winds_down_after_loop_exit ws s :
  In ws (tasks (world s)) -> winds_down s (after_loop_exit ws s).
Proof.
  intros Hin. constructor; cbn.
  - destruct (option_sock_eqb _ _); reflexivity.
  - destruct (option_sock_eqb _ _); cbn; auto.
  - destruct (option_sock_eqb _ _); cbn; auto.
  - auto.
  - intros x Hx. now apply filter_In in Hx.
  - intros H. specialize (H ws Hin). apply filter_In in H.
    destruct H as [_ H]. now rewrite Nat.eqb_refl in H.
  - intros d Hd. rewrite Hd. cbn. destruct (Nat.eqb_spec d ws) as [->|Hne].
    + right. now left.
    + left. exact Hd.
  - now exists [EvClose ws].
  - reflexivity.
  - reflexivity.
Qed.

Lemma winds_down_serve re_match env schedule s :
  winds_down s (snd (serve re_match env schedule s)).
Proof.
  apply (serve_preserves re_match env (winds_down s)).
  - intros tr s0 H. exact (winds_down_trans _ _ _ H (winds_down_extend tr s0)).
  - intros ws s0 H Hin.
    exact (winds_down_trans _ _ _ H (winds_down_after_loop_exit ws s0 Hin)).
  - apply winds_down_refl.
Qed.

Lemma winds_down_closing re_match env field schedule s :
  winds_down s (closing re_match env field schedule s).
Proof.
  unfold closing. destruct (field (self s)) as [ws|];
    [|apply winds_down_refl].
  exact (winds_down_trans _ _ _ (winds_down_after_ws_close ws s)
           (winds_down_serve re_match env schedule _)).
Qed.

Lemma winds_down_close re_match env i s :
  winds_down s (snd (close re_match env i s)).
Proof.
  apply (close_preserves re_match env (winds_down s)).
  - intros tr s0 H. exact (winds_down_trans _ _ _ H (winds_down_extend tr s0)).
  - intros ws s0 H _.
    exact (winds_down_trans _ _ _ H (winds_down_after_ws_close ws s0)).
  - intros schedule s0 H.
    exact (winds_down_trans _ _ _ H (winds_down_serve re_match env schedule s0)).
  - apply winds_down_refl.
Qed.

Lemma winds_down_polygon s s' :
  winds_down s s' -> polygon (self s') = polygon (self s).
Proof. intros H. exact (f_equal polygon (wd_rest _ _ H)). Qed.

Lemma winds_down_handlers s s' :
  winds_down s s' -> _handlers (self s') = _handlers (self s).
Proof. intros H. exact (f_equal _handlers (wd_rest _ _ H)). Qed.

Lemma feed_closed_winds_down s s' :
  winds_down s s' -> feed_closed s = true -> feed_closed s' = true.
Proof.
  intros H Hc. destruct (wd_events _ _ H) as [tr E].
  unfold feed_closed in *. rewrite E, existsb_app, Hc. apply orb_true_r.
Qed.

Lemma In_existsb_eqb (x : nat) (l : list nat) :
  In x l -> existsb (Nat.eqb x) l = true.
Proof.
  intros H. apply existsb_exists. exists x. split; [exact H|].
  apply Nat.eqb_refl.
Qed.

Lemma closing_closes re_match env field schedule s ws :
  field (self s) = Some ws ->
  In ws (closed (world (closing re_match env field schedule s))).
Proof.
  intros H. unfold closing. rewrite H.
  apply (wd_closed _ _ (winds_down_serve re_match env schedule _)).
  now left.
Qed.

Lemma close_closes re_match env i s ws :
  _ws (self s) = Some ws \/ _data_ws (self s) = Some ws ->
  In ws (closed (world (snd (close re_match env i s)))).
Proof.
  intros Hst.
  pose proof (close_run re_match env i s) as Hrun. cbn zeta in Hrun.
  set (s1 := closing re_match env _ws (during_ws i) s) in *.
  set (s2 := closing re_match env _data_ws (during_data_ws i) s1) in *.
  pose proof (winds_down_closing re_match env _ws (during_ws i) s) as W1.
  pose proof (winds_down_closing re_match env _data_ws (during_data_ws i) s1)
    as W2.
  fold s1 in W1. fold s2 in W2.
  assert (H2 : In ws (closed (world s2))).
  { destruct Hst as [E|E].
    - apply (wd_closed _ _ W2). now apply closing_closes.
    - destruct (wd_data_closed _ _ W1 ws E) as [E1|E1].
      + now apply closing_closes.
      + now apply (wd_closed _ _ W2). }
  rewrite Hrun. destruct (polygon (self s2)); cbn [snd]; [|exact H2].
  apply (wd_closed _ _ (winds_down_serve re_match env _ _)). exact H2.
Qed.

Lemma close_closes_feed re_match env i s :
  polygon (self s) <> None ->
  feed_closed (snd (close re_match env i s)) = true.
Proof.
  intros Hp.
  pose proof (close_run re_match env i s) as Hrun. cbn zeta in Hrun.
  set (s2 := closing re_match env _data_ws (during_data_ws i)
               (closing re_match env _ws (during_ws i) s)) in *.
  assert (W : winds_down s s2).
  { exact (winds_down_trans _ _ _
             (winds_down_closing re_match env _ws (during_ws i) s)
             (winds_down_closing re_match env _data_ws (during_data_ws i) _)). }
  rewrite Hrun. rewrite (winds_down_polygon _ _ W).
  destruct (polygon (self s)); [|congruence]. cbn [snd].
  apply (feed_closed_winds_down (extend [EvPolygonClose] s2));
    [apply winds_down_serve | reflexivity].
Qed.

Lemma subscribe_nats_present env chans s :
  chans <> [] ->
  polygon (self s) <> None ->
  snd (subscribe_nats env chans s) = extend [EvPolygonSubscribe chans] s.
Proof.
  intros Hne Hp. destruct chans as [|c chans]; [congruence|].
  unfold subscribe_nats, _ensure_nats, feed_subscribe.
  cbn [List.length Nat.ltb Nat.leb].
  unfold bind, gets, ret. destruct (polygon (self s)) eqn:E; [|congruence].
  cbn [fst snd]. rewrite E. apply polygon_call_state.
Qed.

(** C10 (amended): [close] itself writes no handle.  The feed handle is as
    before.  An events or data handle is as before or empty, and it is as
    before when every read loop that was alive is still alive: a handle is
    emptied only by a read loop that ended while [close] was waiting.
    Every connection that was stored is closed, and so is the feed client.
    A class whose handle is still present is therefore taken as connected:
    bringing it up returns at once without reconnecting; for the two socket
    classes the listen request of the next [subscribe] is sent on the closed
    connection and fails there, and for the feed the subscribe call goes to
    the closed client.  A socket class whose handle is empty reconnects. *)
Theorem close_writes_no_handle (re_match : pattern -> string -> bool)
  (env : Env) (i : interleaving) (s : state) :
  let s' := snd (close re_match env i s) in
  polygon (self s') = polygon (self s)
  /\ (_ws (self s') = _ws (self s) \/ _ws (self s') = None)
  /\ (_data_ws (self s') = _data_ws (self s) \/ _data_ws (self s') = None)
  /\ ((forall x, In x (tasks (world s)) -> In x (tasks (world s'))) ->
      self s' = self s)
  /\ (forall ws,
        _ws (self s) = Some ws \/ _data_ws (self s) = Some ws ->
        existsb (Nat.eqb ws) (closed (world s')) = true)
  /\ (polygon (self s) <> None -> feed_closed s' = true)
  /\ (forall k env',
        handle_present k (self s') = true ->
        ensure_connected env' re_match k s' = (Ok tt, s'))
  /\ (forall ws chans env',
        chans <> [] ->
        (_ws (self s') = Some ws ->
         subscribe_ws re_match env' chans s' =
         (Raise ConnectionClosed,
          extend [EvSend ws (listen_request chans)] s'))
        /\ (_data_ws (self s') = Some ws ->
            subscribe_data re_match env' chans s' =
            (Raise ConnectionClosed,
             extend [EvSend ws (listen_request chans)] s')))
  /\ (forall chans env',
        chans <> [] -> polygon (self s) <> None ->
        snd (subscribe_nats env' chans s') =
        extend [EvPolygonSubscribe chans] s')
  /\ (forall k env',
        k <> FeedClass -> handle_present k (self s') = false ->
        exists tr,
          trace_between s' (snd (ensure_connected env' re_match k s')) =
          EvConnect k (endpoint_of k (self s')) :: tr).
Proof.
  intros s'.
  pose proof (winds_down_close re_match env i s) as W. fold s' in W.
  pose proof (winds_down_polygon _ _ W) as Hp.
  split; [exact Hp|].
  split; [exact (wd_ws _ _ W)|].
  split; [exact (wd_data_ws _ _ W)|].
  split; [exact (wd_alive _ _ W)|].
  split.
  { intros ws Hst. apply In_existsb_eqb. now apply close_closes. }
  split; [apply close_closes_feed|].
  split; [intros k env'; apply ensure_present|].
  split.
  { intros ws chans env' Hne. split; intros Hws.
    - apply subscribe_ws_on_closed; auto.
      apply In_existsb_eqb, close_closes. left.
      destruct (wd_ws _ _ W) as [E|E]; congruence.
    - apply subscribe_data_on_closed; auto.
      apply In_existsb_eqb, close_closes. right.
      destruct (wd_data_ws _ _ W) as [E|E]; congruence. }
  split.
  { intros chans env' Hne Hpol. apply subscribe_nats_present; [exact Hne|].
    now rewrite Hp. }
  intros k env'. apply ensure_absent_reconnects.
Qed.

(** * Worked instances *)

(** C1, as stated, fails: the events partition is refused by the peer, and
    the data partition, which is not empty, is not attempted at all. *)
Lemma subscribe_failure_skips_data_partition :
  data_channels (partition_channels ["trade_updates"; "bars/AAPL"])
    = ["bars/AAPL"]
  /\ fst refused_run = Raise (auth_failure unauthorized_reply)
  /\ trace_between demo (snd refused_run) =
     [EvConnect EventsClass "wss://api.alpaca.markets/stream";
      EvSend 0 (authenticate_request "KEY" "SECRET"); EvRecv 0]
  /\ ~ Exists (attempts DataClass ["bars/AAPL"])
        (trace_between demo (snd refused_run)).
Proof.
  assert (Htr : trace_between demo (snd refused_run) =
                [EvConnect EventsClass "wss://api.alpaca.markets/stream";
                 EvSend 0 (authenticate_request "KEY" "SECRET"); EvRecv 0])
    by reflexivity.
  repeat split; try reflexivity.
  rewrite Htr. intros H. apply Exists_exists in H.
  destruct H as [ev [Hin Hat]].
  destruct Hin as [<-|[<-|[<-|[]]]]; cbn in Hat.
  - destruct Hat; discriminate.
  - destruct Hat; discriminate.
  - exact Hat.
Qed.

Lemma subscribe_stops_at_first_failure_witness :
  fst refused_run = Raise (auth_failure unauthorized_reply)
  /\ ~ Exists (attempts DataClass ["bars/AAPL"])
        (trace_between demo (snd refused_run)).
Proof.
  destruct (subscribe_stops_at_first_failure simple_match
              (steady_env unauthorized_reply)
              ["trade_updates"; "bars/AAPL"] demo) as [H _].
  destruct (H (auth_failure unauthorized_reply)
              (snd (subscribe_ws simple_match (steady_env unauthorized_reply)
                      ["trade_updates"] demo))
              eq_refl) as (H1 & H2 & _).
  unfold refused_run. rewrite H1. split; [reflexivity | exact H2].
Defined.

Lemma data_connection_takes_both_fields_witness :
  _ws (self (snd shared_run)) = Some 0
  /\ _data_ws (self (snd shared_run)) = Some 0.
Proof.
  destruct (data_connection_takes_both_fields simple_match
              (steady_env authorized_reply) demo
              [("stream", JStr "authorization");
               ("data", JObj [("status", JStr "authorized");
                              ("action", JStr "authenticate")])]
              (JObj [("status", JStr "authorized");
                     ("action", JStr "authenticate")]))
    as (_ & Hd & Hw & _).
  - apply reachable_init.
  - reflexivity.
  - reflexivity.
  - reflexivity.
  - reflexivity.
  - split; [reflexivity|]. eexists. split; reflexivity.
  - intros t _. reflexivity.
  - split; [exact Hw | exact Hd].
Defined.

(** The shared connection in a reachable state: a fresh router that
    subscribes to a data channel. *)
Lemma shared_connection_is_reachable :
  exists s,
    reachable simple_match (steady_env authorized_reply) s
    /\ _ws (self s) = Some 0 /\ _data_ws (self s) = Some 0.
Proof.
  exists (snd (subscribe simple_match (steady_env authorized_reply)
                 ["bars/AAPL"] demo)).
  split; [|split; reflexivity].
  apply (reachable_step simple_match (steady_env authorized_reply) demo
           (Subscribe ["bars/AAPL"])); [apply reachable_init | exact I].
Qed.

(** With the shared connection, the listen request for an events channel
    goes out on the data connection. *)
Lemma events_listen_on_data_connection :
  listen_sends
    (trace_between (snd (subscribe simple_match (steady_env authorized_reply)
                           ["bars/AAPL"] demo))
       (snd (subscribe simple_match (steady_env authorized_reply)
               ["trade_updates"]
               (snd (subscribe simple_match (steady_env authorized_reply)
                       ["bars/AAPL"] demo))))) =
  [(0, listen_request ["trade_updates"])]
  /\ class_of (world (snd (subscribe simple_match
                             (steady_env authorized_reply)
                             ["bars/AAPL"] demo))) 0 = Some DataClass.
Proof. split; reflexivity. Qed.

Lemma read_loop_exit_clears_handle_witness :
  fst dropped_run = Raise ConnectionClosed
  /\ existsb (Nat.eqb 0) (closed (world (snd dropped_run))) = true
  /\ handle_present EventsClass (self (snd dropped_run)) = false.
Proof.
  destruct (read_loop_exit_clears_handle simple_match
              (dropping_env authorized_reply 5)
              (listening (dropping_env authorized_reply 5))
              (snd dropped_run) 0 EventsClass 1 ConnectionClosed)
    as (H1 & _ & H3 & _).
  - apply (reachable_step simple_match (dropping_env authorized_reply 5) demo
             (Subscribe ["trade_updates"]));
      [apply reachable_init | exact I].
  - left. reflexivity.
  - reflexivity.
  - vm_compute. reflexivity.
  - split; [reflexivity|]. split; [exact H1 | exact H3].
Defined.

Lemma handshake_refusal_outcomes_witness :
  fst statusless_run = Raise (KeyError "status")
  /\ handle_present EventsClass (self (snd statusless_run)) = false.
Proof.
  destruct (handshake_refusal_outcomes simple_match
              (steady_env statusless_reply) EventsClass demo
              [("data", JObj [])]) as (_ & _ & H & Hh).
  - discriminate.
  - reflexivity.
  - intros ws [].
  - reflexivity.
  - reflexivity.
  - reflexivity.
  - unfold statusless_run. rewrite (H [] eq_refl eq_refl).
    split; [reflexivity | exact Hh].
Defined.

Lemma fresh_router_round_trip_example :
  listen_sends (trace_between demo (snd round_trip_run)) =
    [(0, listen_request ["trade_updates"]); (1, listen_request ["bars/AAPL"])]
  /\ feed_subscribes (trace_between demo (snd round_trip_run)) = [["T.AAPL"]].
Proof.
  destruct (fresh_router_round_trip simple_match (steady_env authorized_reply)
              demo) as (_ & H1 & H2 & _).
  - apply reachable_init.
  - reflexivity.
  - reflexivity.
  - reflexivity.
  - intros t _. repeat split; try reflexivity.
    do 2 eexists. split; [reflexivity|]. split; [reflexivity|].
    eexists. split; reflexivity.
  - split; [exact H1 | exact H2].
Qed.

(** C5 at a router that already holds both sockets: the events-socket field
    holds the data connection, and the listen request for trade_updates goes
    out on it. *)
Lemma subscribe_round_trip_witness :
  fst second_round_trip_run = Ok tt
  /\ _ws (self both_sockets) = Some 1
  /\ listen_sends (trace_between both_sockets (snd second_round_trip_run)) =
     [(1, listen_request ["trade_updates"]); (1, listen_request ["bars/AAPL"])]
  /\ class_of (world (snd second_round_trip_run)) 1 = Some DataClass
  /\ feed_subscribes (trace_between both_sockets (snd second_round_trip_run))
     = [["T.AAPL"]].
Proof.
  destruct (subscribe_round_trip simple_match (steady_env authorized_reply)
              both_sockets) as [Hret Hacc].
  - unfold both_sockets. apply reachable_subscribe, reachable_init.
  - assert (Hco : cooperative (steady_env authorized_reply)
                    (clock both_sockets)).
    { intros t _. repeat split; try reflexivity.
      do 2 eexists. split; [reflexivity|]. split; [reflexivity|].
      eexists. split; reflexivity. }
    assert (Hopen : stored_open both_sockets).
    { intros ws H.
      assert (E : ws = 1)
        by (destruct H as [H|H]; vm_compute in H; congruence).
      subst ws. vm_compute. reflexivity. }
    pose proof (Hret Hco Hopen) as Hok.
    destruct (Hacc Hok) as (H1 & H2 & _ & H4 & _).
    split; [exact Hok|]. split; [vm_compute; reflexivity|].
    split; [vm_compute in H1; vm_compute; exact H1|].
    split; [vm_compute in H4; vm_compute; exact H4
           | vm_compute in H2; vm_compute; exact H2].
Defined.


(** Why the fan-out statement asks that the handlers return: a handler that
    raises ends the fan-out, and the entries after it are not served. *)
Lemma raising_handler_ends_fanout :
  fst aborted_fanout_run = Raise (OtherError 1)
  /\ trace_between routed (snd aborted_fanout_run) =
     [EvHandler (AsyncDef 1) "T.AAPL" (Entity (JObj [("p", JNum 190)]))].
Proof. split; reflexivity. Qed.

Lemma ensure_connected_idempotent_witness :
  ensure_connected (steady_env authorized_reply) simple_match EventsClass
    (listening (steady_env authorized_reply))
  = (Ok tt, listening (steady_env authorized_reply)).
Proof.
  exact (proj1 (ensure_connected_idempotent simple_match
                  (steady_env authorized_reply) EventsClass
                  (listening (steady_env authorized_reply)) eq_refl)).
Defined.

Lemma account_updates_cast_witness :
  trace_between account_listening (snd account_run) =
  [EvRecv 0;
   EvHandler (AsyncDef 7) "account_updates"
     (Account (JObj [("cash", JStr "100")]))].
Proof.
  destruct (account_updates_cast simple_match (steady_env account_message)
              account_listening 0 "account_updates"
              [("stream", JStr "account_updates");
               ("data", JObj [("cash", JStr "100")])]
              (JObj [("cash", JStr "100")])) as [_ H].
  - reflexivity.
  - reflexivity.
  - reflexivity.
  - reflexivity.
  - apply H. intros t _. reflexivity.
Defined.

(** C10, as stated, fails: while [close] waits for the events connection
    to close, the read loop of that connection wakes, ends and empties the
    handle; the handle is absent when [close] returns, and the next
    [subscribe] reconnects. *)
Lemma close_wakes_read_loop :
  handle_present EventsClass
    (self (listening (steady_env authorized_reply))) = true
  /\ fst woken_close_run = Ok tt
  /\ trace_between (listening (steady_env authorized_reply))
       (snd woken_close_run) = [EvClose 0; EvRecv 0; EvClose 0]
  /\ handle_present EventsClass (self (snd woken_close_run)) = false
  /\ trace_between (snd woken_close_run) (snd reconnect_run) =
     [EvConnect EventsClass "wss://api.alpaca.markets/stream";
      EvSend 1 (authenticate_request "KEY" "SECRET"); EvRecv 1; EvSpawn 1;
      EvSend 1 (listen_request ["trade_updates"])].
Proof. repeat split; vm_compute; reflexivity. Qed.

Lemma close_writes_no_handle_witness :
  _ws (self closed_router) = Some 0
  /\ existsb (Nat.eqb 0) (closed (world closed_router)) = true
  /\ ensure_connected (steady_env authorized_reply) simple_match EventsClass
       closed_router = (Ok tt, closed_router)
  /\ subscribe_ws simple_match (steady_env authorized_reply)
       ["trade_updates"] closed_router =
     (Raise ConnectionClosed,
      extend [EvSend 0 (listen_request ["trade_updates"])] closed_router).
Proof.
  destruct (close_writes_no_handle simple_match (steady_env authorized_reply)
              undisturbed (listening (steady_env authorized_reply)))
    as (_ & _ & _ & Ha & Hc & _ & He & Hs & _).
  assert (Hself : self closed_router =
                  self (listening (steady_env authorized_reply))).
  { apply Ha. intros x Hx. exact Hx. }
  split; [now rewrite Hself|].
  split; [apply (Hc 0); left; reflexivity|].
  split; [apply He; reflexivity|].
  destruct (Hs 0 ["trade_updates"] (steady_env authorized_reply)) as [Hsend _];
    [discriminate|].
  exact (Hsend eq_refl).
Defined.

(** * Further properties *)

(** ** The handler table *)



Lemma assoc_none_not_key {A : Type} pat (d : list (string * A)) :
  assoc pat d = None <-> ~ In pat (map fst d).
Proof.
  induction d as [|[p g] d IH]; cbn; [tauto|].
  destruct (String.eqb_spec pat p) as [->|Hne].
  - split; [discriminate | tauto].
  - rewrite IH. split; intros H; [intros [?|?]; [congruence | tauto] | tauto].
Qed.

Lemma dict_set_keys pat f d :
  map fst (dict_set pat f d) =
  match assoc pat d with
  | Some _ => map fst d
  | None => map fst d ++ [pat]
  end.
Proof.
  induction d as [|[p g] d IH]; cbn; [reflexivity|].
  destruct (String.eqb pat p) eqn:E; cbn; [reflexivity|].
  rewrite IH. now destruct (assoc pat d).
Qed.


Lemma dict_set_NoDup pat f d :
  NoDup (map fst d) -> NoDup (map fst (dict_set pat f d)).
Proof.
  intros H. rewrite dict_set_keys. destruct (assoc pat d) eqn:E; [exact H|].
  apply assoc_none_not_key in E.
  apply NoDup_app; [exact H | repeat constructor; cbn; tauto |].
  intros x Hx [<-|[]]. contradiction.
Qed.

Lemma dict_set_in pat f d q g :
  In (q, g) (dict_set pat f d) -> In (q, g) d \/ (q, g) = (pat, f).
Proof.
  induction d as [|[p h] d IH]; cbn.
  - intros [H|[]]; auto.
  - destruct (String.eqb_spec pat p) as [->|Hne]; cbn.
    + intros [H|H]; auto.
    + intros [H|H]; auto. destruct (IH H); auto.
Qed.

Lemma dict_del_filter pat d :
  NoDup (map fst d) ->
  dict_del pat d = filter (fun entry => negb (String.eqb pat (fst entry))) d.
Proof.
  induction d as [|[p g] d IH]; cbn; [reflexivity|].
  intros H. inversion H as [|x xs Hx Hrest]; subst.
  destruct (String.eqb_spec pat p) as [->|Hne]; cbn.
  - symmetry. apply forallb_filter_id. apply forallb_forall.
    intros [q h] Hin. cbn.
    destruct (String.eqb_spec p q) as [->|]; [|reflexivity].
    exfalso. apply Hx. now apply (in_map fst) in Hin.
  - now rewrite IH.
Qed.













(** ** Frames *)

Lemma keeps_self_bind {A B C : Type} (g : StreamConn -> C) (m : M A)
  (k : A -> M B) :
  keeps_self g m -> (forall a, keeps_self g (k a)) -> keeps_self g (bind m k).
Proof.
  intros Hm Hk s. unfold bind. specialize (Hm s).
  destruct (m s) as [[a|e] s1]; cbn [snd] in *; [|exact Hm].
  now rewrite Hk.
Qed.

Lemma keeps_self_same {A C : Type} (g : StreamConn -> C) (m : M A) :
  (forall s, self (snd (m s)) = self s) -> keeps_self g m.
Proof. intros H s. now rewrite H. Qed.

Lemma keeps_self_logs {A C : Type} (g : StreamConn -> C) (m : M A) :
  only_logs m -> keeps_self g m.
Proof. intros H s. destruct (H s) as [tr ->]. reflexivity. Qed.

Lemma keeps_self_modify_self {C : Type} (g : StreamConn -> C) h :
  (forall c, g (h c) = g c) -> keeps_self g (modify_self h).
Proof. intros H s. cbn. apply H. Qed.

Lemma keeps_self_modify_world {C : Type} (g : StreamConn -> C) h :
  keeps_self g (modify_world h).
Proof. intros s. reflexivity. Qed.

Lemma keeps_closed_bind {A B : Type} (m : M A) (k : A -> M B) :
  keeps_closed m -> (forall a, keeps_closed (k a)) -> keeps_closed (bind m k).
Proof.
  intros Hm Hk s. unfold bind. specialize (Hm s).
  destruct (m s) as [[a|e] s1]; cbn [snd] in *; [|exact Hm].
  now rewrite Hk.
Qed.

Lemma keeps_closed_logs {A : Type} (m : M A) : only_logs m -> keeps_closed m.
Proof. intros H s. destruct (H s) as [tr ->]. reflexivity. Qed.

Lemma keeps_closed_modify_self h : keeps_closed (modify_self h).
Proof. intros s. reflexivity. Qed.

Ltac frames_with known :=
  repeat first
    [ known
    | apply keeps_self_logs; solve [logs]
    | apply keeps_closed_logs; solve [logs]
    | apply keeps_self_modify_self; solve [intros []; reflexivity]
    | apply keeps_self_modify_world
    | apply keeps_closed_modify_self
    | apply keeps_self_bind; [|intros ?]
    | apply keeps_closed_bind; [|intros ?]
    | match goal with
      | |- keeps_self _ (match ?x with _ => _ end) => destruct x
      | |- keeps_self _ (if ?x then _ else _) => destruct x
      | |- keeps_closed (match ?x with _ => _ end) => destruct x
      | |- keeps_closed (if ?x then _ else _) => destruct x
      end
    | solve [intros ?; reflexivity] ].

Section Frames.

Variable re_match : pattern -> string -> bool.
Variable env : Env.

Lemma keeps_self_websockets_connect {C : Type} (g : StreamConn -> C) k url :
  keeps_self g (websockets_connect env k url).
Proof. unfold websockets_connect. frames_with fail. Qed.


Lemma keeps_self__connect {C : Type} (g : StreamConn -> C) ws :
  (forall v c, g (set_ws v c) = g c) ->
  keeps_self g (_connect re_match env ws).
Proof.
  intros Hg. unfold _connect, ensure_future.
  frames_with ltac:(apply keeps_self_modify_self; solve [intros; apply Hg]).
Qed.


Lemma keeps_self_subscribe_ws {C : Type} (g : StreamConn -> C) chans :
  (forall v c, g (set_ws v c) = g c) ->
  keeps_self g (subscribe_ws re_match env chans).
Proof.
  intros Hg. unfold subscribe_ws, _ensure_ws, field_send.
  frames_with ltac:(first
    [ apply keeps_self_websockets_connect
    | apply keeps_self__connect; exact Hg
    | apply keeps_self_modify_self; solve [intros; apply Hg] ]).
Qed.

Lemma keeps_self_subscribe_data {C : Type} (g : StreamConn -> C) chans :
  (forall v c, g (set_ws v c) = g c) ->
  (forall v c, g (set_data_ws v c) = g c) ->
  keeps_self g (subscribe_data re_match env chans).
Proof.
  intros Hg Hd. unfold subscribe_data, _ensure_data_ws, field_send.
  frames_with ltac:(first
    [ apply keeps_self_websockets_connect
    | apply keeps_self__connect; exact Hg
    | apply keeps_self_modify_self; solve [intros; apply Hd] ]).
Qed.

Lemma keeps_self_subscribe_nats {C : Type} (g : StreamConn -> C) chans :
  (forall v c, g (set_polygon v c) = g c) ->
  keeps_self g (subscribe_nats env chans).
Proof.
  intros Hg. unfold subscribe_nats, _ensure_nats.
  frames_with ltac:(apply keeps_self_modify_self; solve [intros; apply Hg]).
Qed.


Lemma keeps_handlers_subscribe channels :
  keeps_self _handlers (subscribe re_match env channels).
Proof.
  unfold subscribe.
  frames_with ltac:(first
    [ apply keeps_self_subscribe_ws; solve [intros ? []; reflexivity]
    | apply keeps_self_subscribe_data; solve [intros ? []; reflexivity]
    | apply keeps_self_subscribe_nats; solve [intros ? []; reflexivity] ]).
Qed.

End Frames.

(** ** What [subscribe] touches *)

Lemma self__consume_msg re_match env fuel ws s :
  _handlers (self (snd (_consume_msg re_match env fuel ws s))) =
  _handlers (self s).
Proof.
  destruct (_consume_msg_run re_match env fuel ws s) as [tr [_ H]].
  rewrite H. destruct (fst (consume_loop re_match env fuel ws s)); cbn.
  - reflexivity.
  - now destruct (option_sock_eqb _ _).
Qed.

Lemma table_ok_dict_set pat f d :
  iscoroutinefunction f = true -> table_ok d -> table_ok (dict_set pat f d).
Proof.
  intros Hf [Hnd Hco]. split; [now apply dict_set_NoDup|].
  intros q g Hin. apply dict_set_in in Hin. destruct Hin as [Hin|Heq].
  - now apply (Hco q).
  - inversion Heq. subst. exact Hf.
Qed.

Lemma NoDup_map_filter {A B : Type} (h : A -> B) (P : A -> bool) (l : list A) :
  NoDup (map h l) -> NoDup (map h (filter P l)).
Proof.
  induction l as [|a l IH]; cbn; intros H; [constructor|].
  inversion H as [|x xs Hx Hrest]; subst.
  destruct (P a); cbn; [|now apply IH].
  constructor; [|now apply IH].
  intros Hin. apply Hx. apply in_map_iff in Hin.
  destruct Hin as [b [Hb Hin]]. apply filter_In in Hin.
  apply in_map_iff. exists b. tauto.
Qed.

Lemma table_ok_dict_del pat d : table_ok d -> table_ok (dict_del pat d).
Proof.
  intros [Hnd Hco]. rewrite (dict_del_filter pat d Hnd). split.
  - now apply NoDup_map_filter.
  - intros q g Hin. apply filter_In in Hin. now apply (Hco q).
Qed.

(** X5: in every reachable state the handler table has one entry per
    pattern and holds coroutine functions only: [register] refuses anything
    else, and no other operation writes to the table. *)
Theorem handler_table_well_formed (re_match : pattern -> string -> bool)
  (env : Env) (s : state) :
  reachable re_match env s ->
  NoDup (map fst (_handlers (self s)))
  /\ forall pat f,
       In (pat, f) (_handlers (self s)) -> iscoroutinefunction f = true.
Proof.
  intros H. change (table_ok (_handlers (self s))).
  induction H as [| s a Hr IH Hen].
  - split; [constructor | intros pat f []].
  - destruct a as [channels|pat func|pat|i|ws fuel]; cbn [run_action].
    + now rewrite (keeps_handlers_subscribe re_match env channels s).
    + unfold register. destruct (iscoroutinefunction func) eqn:E; cbn.
      * now apply table_ok_dict_set.
      * exact IH.
    + unfold deregister, bind, gets.
      destruct (assoc pat (_handlers (self s))); cbn.
      * now apply table_ok_dict_del.
      * exact IH.
    + now rewrite (winds_down_handlers _ _ (winds_down_close re_match env i s)).
    + now rewrite self__consume_msg.
Qed.

Section SubscribeScope.

Variable re_match : pattern -> string -> bool.
Variable env : Env.



End SubscribeScope.



(** X8: no listen request without a connection.  When bringing the events
    socket (or the data socket) up raises, the block of [subscribe] for that
    class raises the same exception in the same state, and no listen request
    has been sent: until the handshake has succeeded, the only message sent
    on a connection is the authenticate request. *)
Theorem no_listen_before_handshake (re_match : pattern -> string -> bool)
  (env : Env) (chans : list string) (s s1 : state) (e : exn) :
  chans <> [] ->
  (_ensure_ws re_match env s = (Raise e, s1) ->
   subscribe_ws re_match env chans s = (Raise e, s1)
   /\ listen_sends (trace_between s s1) = []
   /\ Forall (handshake_event EventsClass) (trace_between s s1))
  /\ (_ensure_data_ws re_match env s = (Raise e, s1) ->
      subscribe_data re_match env chans s = (Raise e, s1)
      /\ listen_sends (trace_between s s1) = []
      /\ Forall (handshake_event DataClass) (trace_between s s1)).
Proof.
  intros Hne. destruct chans as [|c chans]; [congruence|]. split; intros H.
  - destruct (emits_trace _ _ s (emits__ensure_ws re_match env)) as [_ HF].
    rewrite H in HF. cbn [snd] in HF.
    split; [unfold subscribe_ws; cbn [List.length Nat.ltb Nat.leb];
            unfold bind at 1; now rewrite H|].
    split; [now apply (handshake_event_no_listen EventsClass) | exact HF].
  - destruct (emits_trace _ _ s (emits__ensure_data_ws re_match env)) as [_ HF].
    rewrite H in HF. cbn [snd] in HF.
    split; [unfold subscribe_data; cbn [List.length Nat.ltb Nat.leb];
            unfold bind at 1; now rewrite H|].
    split; [now apply (handshake_event_no_listen DataClass) | exact HF].
Qed.

(** ** The feed client *)

Lemma contains_iff (needle hay : string) :
  contains needle hay = true <->
  exists pre post, hay = (pre ++ needle ++ post)%string.
Proof.
  induction hay as [|c hay IH].
  - cbn [contains]. rewrite orb_false_r, prefix_iff_append. split.
    + intros [r Hr]. exists EmptyString, r. exact Hr.
    + intros [[|a pre] [post H]]; [now exists post | discriminate].
  - cbn [contains]. rewrite orb_true_iff, prefix_iff_append, IH. split.
    + intros [[r Hr]|[pre [post H]]].
      * exists EmptyString, r. exact Hr.
      * exists (String c pre), post. cbn. now rewrite H.
    + intros [[|a pre] [post H]].
      * left. now exists post.
      * right. cbn in H. inversion H. now exists pre, post.
Qed.

(** X9: the feed client is stored before it is connected.  With no feed
    client yet, [_ensure_nats] creates one with the key id (followed by
    -staging exactly when the base URL contains staging somewhere),
    registers the catch-all pattern and connects, and the client is stored
    whatever the connect does; when the connect raises, the exception
    reaches the caller, and a later [_ensure_nats] returns at once without
    another connect. *)
Theorem feed_client_stored_before_connect (env : Env) (s : state) :
  polygon (self s) = None ->
  let r := _ensure_nats env s in
  let key := feed_key (self s) in
  polygon (self (snd r)) = Some key
  /\ trace_between s (snd r) =
     [EvPolygonStream key; EvPolygonRegister ".*"; EvPolygonConnect]
  /\ ((exists pre post,
          _base_url (self s) = (pre ++ "staging" ++ post)%string) ->
      key = (_key_id (self s) ++ "-staging")%string)
  /\ (~ (exists pre post,
            _base_url (self s) = (pre ++ "staging" ++ post)%string) ->
      key = _key_id (self s))
  /\ (forall e, on_polygon env (S (S (clock s))) = Some e -> fst r = Raise e)
  /\ (on_polygon env (S (S (clock s))) = None -> fst r = Ok tt)
  /\ forall env', _ensure_nats env' (snd r) = (Ok tt, snd r).
Proof.
  intros Hp r key.
  assert (Hr : r =
    (match on_polygon env (S (S (clock s))) with
     | Some e => Raise e
     | None => Ok tt
     end,
     extend [EvPolygonStream key; EvPolygonRegister ".*"; EvPolygonConnect]
       (mkState (set_polygon (Some key) (self s)) (world s)))).
  { unfold r, key, feed_key, _ensure_nats, polygon_call, bind, gets, now, emit,
      modify_world, modify_self, answer, clock. rewrite Hp. cbn.
    destruct (on_polygon env _); reflexivity. }
  rewrite Hr. cbn [fst snd].
  split; [reflexivity|].
  split; [apply trace_between_events; reflexivity|].
  split.
  { intros H. apply contains_iff in H. unfold key, feed_key. now rewrite H. }
  split.
  { intros H. unfold key, feed_key.
    destruct (contains "staging" (_base_url (self s))) eqn:E; [|reflexivity].
    apply contains_iff in E. contradiction. }
  split; [intros e ->; reflexivity|].
  split; [intros ->; reflexivity|].
  intros env'. reflexivity.
Qed.

(** ** Messages that are not dispatched *)

Lemma dispatch_items_without_data re_match env items channel kv s :
  assoc "data" kv = None ->
  dispatch_items re_match env items channel (JObj kv) s =
  if existsb (fun entry => re_match (fst entry) channel) items
  then (Raise (KeyError "data"), s)
  else (Ok tt, s).
Proof.
  intros Hd. induction items as [|[pat h] rest IH]; cbn; [reflexivity|].
  unfold bind at 1. destruct (re_match pat channel); cbn.
  - unfold bind. cbn. now rewrite Hd.
  - exact IH.
Qed.

(** X10: a message without a data body.  [_dispatch] raises [KeyError] for
    it as soon as one pattern of the table matches the channel, before any
    handler is invoked, and returns normally when no pattern matches; the
    state is unchanged either way. *)
Theorem dispatch_without_data_body (re_match : pattern -> string -> bool)
  (env : Env) (channel : string) (kv : list (string * json)) (s : state) :
  assoc "data" kv = None ->
  _dispatch re_match env channel (JObj kv) s =
  if existsb (fun entry => re_match (fst entry) channel) (_handlers (self s))
  then (Raise (KeyError "data"), s)
  else (Ok tt, s).
Proof.
  intros Hd. rewrite _dispatch_items.
  now apply dispatch_items_without_data.
Qed.

(** X11: what one pass of the read loop does with a payload that is not an
    event.  An object without a stream field, or whose stream is null, is
    dropped and the loop goes on; a stream that is neither a string nor null
    is dropped when the handler table is empty and raises [TypeError]
    otherwise; a decoded value that is not an object raises
    [AttributeError].  No handler is invoked in any of these cases: only an
    object with a string stream reaches [_dispatch]. *)
Theorem read_loop_drops_non_events (re_match : pattern -> string -> bool)
  (env : Env) (ws : sock) (s : state) (msg : json) :
  existsb (Nat.eqb ws) (closed (world s)) = false ->
  on_recv env (clock s) = inr (Frame (Some msg)) ->
  consume_once re_match env ws s =
  match msg with
  | JObj kv =>
      match assoc "stream" kv with
      | Some (JStr channel) =>
          _dispatch re_match env channel msg (extend [EvRecv ws] s)
      | None | Some JNull => (Ok tt, extend [EvRecv ws] s)
      | Some _ =>
          (match _handlers (self s) with
           | [] => Ok tt
           | _ :: _ => Raise TypeError
           end, extend [EvRecv ws] s)
      end
  | _ => (Raise AttributeError, extend [EvRecv ws] s)
  end.
Proof.
  intros Hopen Hrecv.
  unfold consume_once, ws_recv, loads, dict_get, _dispatch.
  unfold bind, ret, raise, gets, now, emit, modify_world, is_closed, clock in *.
  cbn. rewrite Hopen, Hrecv. cbn.
  destruct msg as [| b | n | str | l | kv]; try reflexivity.
  destruct (assoc "stream" kv) as [[| b | n | str | l | kv']|]; cbn;
    try reflexivity; destruct (_handlers (self s)); reflexivity.
Qed.

(** ** Construction *)

Lemma substring_all (r : string) : substring 0 (String.length r) r = r.
Proof. induction r as [|c r IH]; cbn; [reflexivity | now rewrite IH]. Qed.

Lemma http_to_ws_http (rest : string) :
  http_to_ws ("http" ++ rest) = ("ws" ++ rest)%string.
Proof.
  unfold http_to_ws.
  replace (String.prefix "http" ("http" ++ rest)) with true
    by (symmetry; apply prefix_iff_append; now exists rest).
  cbn. now rewrite Nat.sub_0_r, substring_all.
Qed.

(** X12: the endpoints of a new router.  A base URL that starts with http
    has that prefix, and only that prefix, replaced by ws (so https becomes
    wss), any other URL is taken as it is, and replacing twice is the same as
    once; the events endpoint and the data endpoint are the two normalized
    URLs followed by /stream.  A new router holds no connection, no feed
    client and no handler. *)
Theorem new_router_endpoints (key_id secret_key base data url rest : string) :
  http_to_ws ("http" ++ rest) = ("ws" ++ rest)%string
  /\ (String.prefix "http" url = false -> http_to_ws url = url)
  /\ http_to_ws (http_to_ws url) = http_to_ws url
  /\ let s := __init__ key_id secret_key ("http" ++ base) ("http" ++ data) in
     _endpoint (self s) = ("ws" ++ base ++ "/stream")%string
     /\ _data_endpoint (self s) = ("ws" ++ data ++ "/stream")%string
     /\ _base_url (self s) = ("ws" ++ base)%string
     /\ (_ws (self s), _data_ws (self s), polygon (self s), _handlers (self s))
        = (None, None, None, [])
     /\ events (world s) = [].
Proof.
  split; [apply http_to_ws_http|].
  split; [intros H; unfold http_to_ws; now rewrite H|].
  split.
  { destruct (String.prefix "http" url) eqn:E.
    - apply prefix_iff_append in E. destruct E as [r ->].
      rewrite http_to_ws_http. unfold http_to_ws. now destruct r.
    - unfold http_to_ws. now rewrite !E. }
  unfold __init__. cbn [self world _endpoint _data_endpoint _base_url _ws
                         _data_ws polygon _handlers events].
  rewrite !http_to_ws_http. repeat split.
Qed.

(** ** Shutdown and the read loops *)

(** X13: shutdown reaches the read loops.  From a reachable state, the read
    loop of a connection that was stored in one of the two socket fields and
    is still alive when [close] returns ends at its next receive with
    [ConnectionClosed]: it attempts the receive, closes again, clears the
    handle of its class and is over.  A handle that [close] leaves in place
    is thus cleared by the read loop. *)
Theorem shutdown_ends_read_loop (re_match : pattern -> string -> bool)
  (env : Env) (i : interleaving) (s : state) (ws : sock) (k : conn_class)
  (fuel : nat) :
  reachable re_match env s ->
  class_of (world s) ws = Some k ->
  _ws (self s) = Some ws \/ _data_ws (self s) = Some ws ->
  let s1 := snd (close re_match env i s) in
  In ws (tasks (world s1)) ->
  let r := _consume_msg re_match env (S fuel) ws s1 in
  fst r = Raise ConnectionClosed
  /\ trace_between s1 (snd r) = [EvRecv ws; EvClose ws]
  /\ handle_present k (self (snd r)) = false
  /\ ~ In ws (tasks (world (snd r))).
Proof.
  intros Hreach Hc Hstored s1 Hin1 r.
  assert (HI : Inv s1)
    by (apply Inv_close; now apply (reachable_Inv re_match env)).
  pose proof (winds_down_close re_match env i s) as W. fold s1 in W.
  assert (Hc1 : class_of (world s1) ws = Some k)
    by (unfold class_of in *; now rewrite (wd_opened _ _ W)).
  destruct (read_loop_exits re_match env fuel ws s1) as [Hexit _].
  assert (Hr : r = (Raise ConnectionClosed,
                    after_loop_exit ws (extend [EvRecv ws] s1))).
  { apply Hexit. apply In_existsb_eqb. now apply close_closes. }
  rewrite Hr. cbn [fst snd].
  split; [reflexivity|].
  split; [apply trace_between_events; reflexivity|].
  split.
  - apply (loop_exit_clears_handle (extend [EvRecv ws] s1) ws k);
      [now apply stable_InvX | exact Hin1 | exact Hc1].
  - cbn. intros Hf. apply filter_In in Hf. destruct Hf as [_ Hf].
    now rewrite Nat.eqb_refl in Hf.
Qed.

Lemma close_never_raises_without_feed re_match env i s :
  polygon (self s) = None -> fst (close re_match env i s) = Ok tt.
Proof.
  intros Hp. rewrite close_run. cbn zeta.
  set (s2 := closing re_match env _data_ws (during_data_ws i)
               (closing re_match env _ws (during_ws i) s)).
  assert (W : winds_down s s2).
  { exact (winds_down_trans _ _ _
             (winds_down_closing re_match env _ws (during_ws i) s)
             (winds_down_closing re_match env _data_ws (during_data_ws i) _)). }
  rewrite (winds_down_polygon _ _ W), Hp. reflexivity.
Qed.

Lemma try_finally_run {A : Type} (body : M A) (fin : M unit) (s : state) :
  snd (try_finally body fin s) = snd (fin (snd (body s)))
  /\ fst (try_finally body fin s) =
     match fst (fin (snd (body s))) with
     | Ok _ => fst (body s)
     | Raise e => Raise e
     end.
Proof.
  unfold try_finally. destruct (body s) as [r s1]. cbn [snd fst].
  destruct (fin s1) as [[[]|e] s2]; split; reflexivity.
Qed.

(** X14: [run] closes on the way out.  Whatever [subscribe] and the event
    loop did, [run] ends with [close]: every connection stored in one of the
    two socket fields when [run] ends has been closed.  When [subscribe]
    raises, no read loop is served before [close], [close] runs in the state
    that [subscribe] left, and [run] raises the exception of [subscribe] (if
    no feed client is stored, so that [close] cannot raise). *)
Theorem run_closes_on_exit (re_match : pattern -> string -> bool) (env : Env)
  (initial_channels : list string) (schedule : list (sock * nat))
  (stop : option exn) (i : interleaving) (s : state) :
  let r := run re_match env initial_channels schedule stop i s in
  (forall ws,
      _ws (self (snd r)) = Some ws \/ _data_ws (self (snd r)) = Some ws ->
      existsb (Nat.eqb ws) (closed (world (snd r))) = true)
  /\ (forall e s1,
        subscribe re_match env initial_channels s = (Raise e, s1) ->
        snd r = snd (close re_match env i s1)
        /\ (polygon (self s1) = None -> fst r = Raise e)).
Proof.
  intros r.
  destruct (try_finally_run
              (bind (subscribe re_match env initial_channels)
                 (fun _ => run_forever re_match env schedule stop))
              (close re_match env i) s) as [Hsnd Hfst].
  fold (run re_match env initial_channels schedule stop i) in Hsnd, Hfst.
  fold r in Hsnd, Hfst.
  split.
  - intros ws Hws. rewrite Hsnd in *. apply In_existsb_eqb, close_closes.
    match type of Hws with
    | context [close re_match env i ?s0] =>
        pose proof (winds_down_close re_match env i s0) as W
    end.
    destruct Hws as [E|E]; [left | right].
    + destruct (wd_ws _ _ W) as [E1|E1]; congruence.
    + destruct (wd_data_ws _ _ W) as [E1|E1]; congruence.
  - intros e s1 Hsub.
    assert (Hbody : bind (subscribe re_match env initial_channels)
                      (fun _ => run_forever re_match env schedule stop) s
                    = (Raise e, s1)) by (unfold bind; now rewrite Hsub).
    rewrite Hbody in Hsnd, Hfst. cbn [fst snd] in Hsnd, Hfst.
    split; [exact Hsnd|].
    intros Hp. rewrite Hfst. now rewrite close_never_raises_without_feed.
Qed.

(** ** One read loop per class *)

Lemma stable_EventsInv : stable EventsInv.
Proof. intros tr s [H1 H2 H3]. constructor; assumption. Qed.

Lemma stable_Inv2 : stable Inv2.
Proof.
  intros tr s [H1 H2]. split; [now apply stable_InvX | now apply stable_EventsInv].
Qed.

Lemma stable_ready2 k ws : stable (ready2 k ws).
Proof.
  intros tr s (H1 & H2 & H3 & H4).
  split; [now apply stable_ready|]. split; [now apply stable_EventsInv|].
  split; assumption.
Qed.

Lemma ready2_Inv2 k ws s : ready2 k ws s -> Inv2 s.
Proof. intros ((H & _) & H2 & _). now split. Qed.

Lemma hoare_conj {A : Type} (P1 P2 : state -> Prop) (m : M A)
  (Q1 Q2 : A -> state -> Prop) (E1 E2 : state -> Prop) :
  hoare P1 m Q1 E1 -> hoare P2 m Q2 E2 ->
  hoare (fun s => P1 s /\ P2 s) m (fun a s => Q1 a s /\ Q2 a s)
        (fun s => E1 s /\ E2 s).
Proof.
  intros H1 H2 s [Hs1 Hs2]. specialize (H1 s Hs1). specialize (H2 s Hs2).
  destruct (m s) as [[a|e] s']; now split.
Qed.

Lemma task_class_after_connect k url s x :
  InvX None s -> In x (tasks (world s)) ->
  class_of (world (after_connect k url s)) x = class_of (world s) x.
Proof.
  intros H Hin.
  destruct (inv_tasks_class _ _ H x Hin) as [Hc|Hc]; rewrite Hc;
    now apply (class_of_after_connect_old None).
Qed.

Section OneLoop.

Variable re_match : pattern -> string -> bool.
Variable env : Env.

Lemma hoare_websockets_connect2 k url :
  k <> FeedClass ->
  hoare (fun s => Inv2 s /\ (k = DataClass -> _data_ws (self s) = None)
                  /\ (k = EventsClass -> _ws (self s) = None))
        (websockets_connect env k url)
        (fun ws s => ready2 k ws s)
        Inv2.
Proof.
  intros Hk s ([HI HE] & HD & HW).
  pose proof (hoare_websockets_connect env k url Hk s (conj HI HD)) as Hready.
  unfold websockets_connect, bind, now, emit, modify_world, answer in *.
  cbn in *. destruct (on_connect env (clock s)); cbn in *.
  - apply (stable_Inv2 [EvConnect k url] s). now split.
  - change (ready2 k (fresh (world s)) (after_connect k url s)).
    change (ready k (fresh (world s)) (after_connect k url s)) in Hready.
    assert (Hcl : forall x, In x (tasks (world s)) ->
              class_of (world (after_connect k url s)) x = class_of (world s) x)
      by (intros x Hx; now apply task_class_after_connect).
    destruct HE as [E1 E2 E3].
    split; [exact Hready|]. split; [|split].
    + constructor.
      * intros x y Hx Hy. rewrite (Hcl x Hx), (Hcl y Hy). now apply E1.
      * intros Hnone x Hx. rewrite (Hcl x Hx). now apply E2.
      * exact E3.
    + intros Hin.
      destruct (inv_tasks_class _ _ HI _ Hin) as [Hc|Hc];
        apply (InvX_class_old None s _ _ HI) in Hc; lia.
    + intros -> x Hx. rewrite (Hcl x Hx). apply E2; auto.
Qed.

Lemma ready2_with_ws k ws s :
  ready2 k ws s -> ready2 k ws (with_ws ws s) /\ _ws (self (with_ws ws s)) = Some ws.
Proof.
  intros (H1 & [E1 E2 E3] & H3 & H4).
  split; [|reflexivity].
  split; [now apply ready_with_ws|]. split; [|split; assumption].
  constructor; try assumption. cbn. discriminate.
Qed.

Lemma Inv2_with_task k ws s :
  ready2 k ws s -> _ws (self s) = Some ws ->
  InvX (pend k ws) (with_task ws s) /\ EventsInv (with_task ws s).
Proof.
  intros (H1 & [E1 E2 E3] & H3 & H4) Hws.
  split; [now apply InvX_with_task|].
  assert (Hcl : forall x, class_of (world (with_task ws s)) x =
                          class_of (world s) x) by reflexivity.
  destruct H1 as (_ & _ & Hc & Hk & _).
  constructor; try setoid_rewrite Hcl.
  - cbn [with_task world tasks]. intros x y [<-|Hx] [<-|Hy] Cx Cy; auto.
    + exfalso. assert (k = EventsClass) by congruence. subst k.
      exact (H4 eq_refl y Hy Cy).
    + exfalso. assert (k = EventsClass) by congruence. subst k.
      exact (H4 eq_refl x Hx Cx).
  - cbn [with_task self]. rewrite Hws. discriminate.
  - cbn [with_task world tasks]. now constructor.
Qed.

Lemma hoare__connect2 k ws :
  hoare (ready2 k ws) (_connect re_match env ws)
        (fun _ s => InvX (pend k ws) s /\ EventsInv s /\
                    ws < fresh (world s) /\ class_of (world s) ws = Some k)
        Inv2.
Proof.
  unfold _connect.
  repeat (apply hoare_seq_logs;
          [solve [logs] | apply stable_ready2 | apply ready2_Inv2 | intros ?]).
  apply hoare_bind with
    (Q := fun _ s => ready2 k ws s /\ _ws (self s) = Some ws).
  { apply hoare_modify_self. apply ready2_with_ws. }
  intros _.
  assert (Hst : stable (fun s => ready2 k ws s /\ _ws (self s) = Some ws)).
  { intros tr s [H E]. split; [now apply stable_ready2 | exact E]. }
  apply hoare_seq_logs;
    [apply only_logs__dispatch | exact Hst
    | intros s [H _]; now apply (ready2_Inv2 k ws) | intros _].
  unfold ensure_future.
  apply hoare_seq_logs;
    [logs | exact Hst | intros s [H _]; now apply (ready2_Inv2 k ws) | intros _].
  apply hoare_modify_world. intros s [Hs Hws].
  destruct (Inv2_with_task k ws s Hs Hws) as [HI HE].
  destruct Hs as ((_ & Hlt & Hc & _) & _).
  split; [|split; [|split; assumption]].
  - destruct HI as [H1 H2 H3 H4 H5 H6 H7]. constructor; assumption.
  - destruct HE as [E1 E2 E3]. constructor; assumption.
Qed.

Lemma EventsInv_set_ws_some ws s :
  EventsInv s -> EventsInv (with_ws ws s).
Proof. intros [E1 E2 E3]. constructor; try assumption. cbn. discriminate. Qed.

Lemma EventsInv_same_ws s (c : StreamConn) :
  _ws c = _ws (self s) -> EventsInv s -> EventsInv (mkState c (world s)).
Proof.
  intros Hc [E1 E2 E3]. constructor; try assumption. cbn. rewrite Hc. exact E2.
Qed.

Lemma hoare__ensure_ws2 :
  hoare Inv2 (_ensure_ws re_match env) (fun _ => Inv2) Inv2.
Proof.
  unfold _ensure_ws.
  apply hoare_bind with (Q := fun w s => Inv2 s /\ w = _ws (self s));
    [apply hoare_gets | intros [ws|]].
  { now intros s [H _]. }
  assert (Hst : stable (fun s => Inv2 s /\ None = _ws (self s))).
  { intros tr s [H E]. split; [now apply stable_Inv2 | exact E]. }
  apply hoare_seq_logs; [logs | exact Hst | now intros s [H _] | intros url].
  apply hoare_bind with (Q := fun ws s => ready2 EventsClass ws s).
  { eapply hoare_weaken.
    - apply (hoare_websockets_connect2 EventsClass url); discriminate.
    - intros s [H E]. split; [exact H|]. split; [discriminate | now intros _].
    - auto.
    - auto. }
  intros ws.
  apply hoare_bind with
    (Q := fun _ s => InvX None s /\ EventsInv s /\ ws < fresh (world s) /\
                     class_of (world s) ws = Some EventsClass).
  { apply hoare__connect2. }
  intros _. apply hoare_modify_self. intros s (H & HE & Hlt & _).
  split; [now apply InvX_with_ws | now apply EventsInv_set_ws_some].
Qed.

Lemma hoare__ensure_data_ws2 :
  hoare Inv2 (_ensure_data_ws re_match env) (fun _ => Inv2) Inv2.
Proof.
  unfold _ensure_data_ws.
  apply hoare_bind with (Q := fun w s => Inv2 s /\ w = _data_ws (self s));
    [apply hoare_gets | intros [ws|]].
  { now intros s [H _]. }
  assert (Hst : stable (fun s => Inv2 s /\ None = _data_ws (self s))).
  { intros tr s [H E]. split; [now apply stable_Inv2 | exact E]. }
  apply hoare_seq_logs; [logs | exact Hst | now intros s [H _] | intros url].
  apply hoare_bind with (Q := fun ws s => ready2 DataClass ws s).
  { eapply hoare_weaken.
    - apply (hoare_websockets_connect2 DataClass url); discriminate.
    - intros s [H E]. split; [exact H|]. split; [now intros _ | discriminate].
    - auto.
    - auto. }
  intros ws.
  apply hoare_bind with
    (Q := fun _ s => InvX (Some ws) s /\ EventsInv s /\ ws < fresh (world s) /\
                     class_of (world s) ws = Some DataClass).
  { apply hoare__connect2. }
  intros _. apply hoare_modify_self. intros s (H & HE & Hlt & Hc).
  split; [now apply InvX_with_data_ws|].
  now apply (EventsInv_same_ws s).
Qed.

Lemma hoare__ensure_nats2 :
  hoare Inv2 (_ensure_nats env) (fun _ => Inv2) Inv2.
Proof.
  unfold _ensure_nats.
  apply hoare_seq_logs; [logs | apply stable_Inv2 | auto | intros [p|]].
  { apply hoare_skip. }
  repeat (apply hoare_seq_logs;
          [solve [logs] | apply stable_Inv2 | auto | intros ?]).
  apply hoare_bind with (Q := fun _ => Inv2).
  { apply hoare_modify_self. intros s [H HE].
    split; [now apply InvX_set_polygon | now apply (EventsInv_same_ws s)]. }
  intros _. apply hoare_only_logs; [logs | apply stable_Inv2].
Qed.

Lemma hoare_subscribe2 channels :
  hoare Inv2 (subscribe re_match env channels) (fun _ => Inv2) Inv2.
Proof.
  unfold subscribe, subscribe_ws, subscribe_data, subscribe_nats.
  apply hoare_bind with (Q := fun _ => Inv2).
  { destruct (0 <? _)%nat; [|apply hoare_skip].
    apply hoare_then_logs;
      [apply hoare__ensure_ws2 | apply only_logs_field_send | apply stable_Inv2]. }
  intros _. apply hoare_bind with (Q := fun _ => Inv2).
  { destruct (0 <? _)%nat; [|apply hoare_skip].
    apply hoare_then_logs;
      [apply hoare__ensure_data_ws2 | apply only_logs_field_send
      | apply stable_Inv2]. }
  intros _. destruct (0 <? _)%nat; [|apply hoare_skip].
  apply hoare_then_logs;
    [apply hoare__ensure_nats2 | apply only_logs_feed_subscribe | apply stable_Inv2].
Qed.

End OneLoop.

Lemma EventsInv_register pat func s :
  EventsInv s -> EventsInv (snd (register pat func s)).
Proof.
  unfold register. destruct (negb _); cbn; [auto|].
  intros H. now apply (EventsInv_same_ws s).
Qed.

Lemma EventsInv_deregister pat s :
  EventsInv s -> EventsInv (snd (deregister pat s)).
Proof.
  unfold deregister, bind, gets. destruct (assoc pat _); cbn; [|auto].
  intros H. now apply (EventsInv_same_ws s).
Qed.

Lemma EventsInv_after_loop_exit ws s :
  Inv s -> EventsInv s -> In ws (tasks (world s)) ->
  EventsInv (after_loop_exit ws s).
Proof.
  intros HI [E1 E2 E3] Hin.
  assert (Hcl : forall x, class_of (world (after_loop_exit ws s)) x =
                          class_of (world s) x) by reflexivity.
  constructor; try setoid_rewrite Hcl.
  - cbn. intros x y Hx Hy. apply filter_In in Hx, Hy. now apply E1.
  - cbn. destruct (option_sock_eqb (_data_ws (self s)) ws) eqn:Ed; cbn.
    + intros Hnone x Hx. apply filter_In in Hx. now apply E2.
    + intros _ x Hx Hc. apply filter_In in Hx. destruct Hx as [Hx Hne].
      assert (Hws : class_of (world s) ws = Some EventsClass).
      { destruct (inv_tasks_class _ _ HI ws Hin) as [Hk|Hk]; [exact Hk|].
        destruct (inv_data_tasks _ _ HI ws Hin Hk) as [Hd|Hd]; [|discriminate].
        apply option_sock_eqb_eq in Hd. congruence. }
      rewrite (E1 x ws Hx Hin Hc Hws), Nat.eqb_refl in Hne. discriminate.
  - cbn. now apply NoDup_filter.
Qed.

Lemma Inv2_after_loop_exit ws s :
  Inv2 s -> In ws (tasks (world s)) -> Inv2 (after_loop_exit ws s).
Proof.
  intros [HI HE] Hin. split.
  - now apply Inv_after_loop_exit.
  - now apply EventsInv_after_loop_exit.
Qed.

Lemma Inv2_serve re_match env schedule s :
  Inv2 s -> Inv2 (snd (serve re_match env schedule s)).
Proof.
  apply serve_preserves.
  - intros tr s0. apply stable_Inv2.
  - apply Inv2_after_loop_exit.
Qed.

Lemma Inv2_close re_match env i s :
  Inv2 s -> Inv2 (snd (close re_match env i s)).
Proof.
  apply close_preserves.
  - intros tr s0. apply stable_Inv2.
  - intros ws s0 [HI [E1 E2 E3]] Hst. split.
    + now apply Inv_after_ws_close.
    + constructor; assumption.
  - intros schedule s0. apply Inv2_serve.
Qed.

Lemma Inv2_init key_id secret_key base_url data_url :
  Inv2 (__init__ key_id secret_key base_url data_url).
Proof.
  split; [apply Inv_init|].
  constructor; cbn; try tauto. constructor.
Qed.

Lemma reachable_Inv2 re_match env s : reachable re_match env s -> Inv2 s.
Proof.
  induction 1 as [| s a Hr IH Hen].
  - apply Inv2_init.
  - destruct a as [channels|pat func|pat|i|ws fuel]; cbn [run_action].
    + apply hoare_run; [apply hoare_subscribe2 | exact IH].
    + destruct IH as [HI HE]. split.
      * apply hoare_run; [apply hoare_register | exact HI].
      * now apply EventsInv_register.
    + destruct IH as [HI HE]. split.
      * apply hoare_run; [apply hoare_deregister | exact HI].
      * now apply EventsInv_deregister.
    + now apply Inv2_close.
    + cbn in Hen.
      destruct (_consume_msg_run re_match env fuel ws s) as [tr [_ Hrun]].
      rewrite Hrun.
      destruct (fst (consume_loop re_match env fuel ws s)); cbn [snd].
      * now apply stable_Inv2.
      * apply Inv2_after_loop_exit; [now apply stable_Inv2 | exact Hen].
Qed.

Lemma live_loops_In k s x :
  In x (live_loops k s) <->
  In x (tasks (world s)) /\ class_of (world s) x = Some k.
Proof.
  unfold live_loops. rewrite filter_In.
  destruct (class_of (world s) x) as [k'|]; cbn.
  - destruct k, k'; cbn; split; intros [H1 H2]; split; auto; discriminate.
  - split; intros [H1 H2]; discriminate.
Qed.

Lemma at_most_one {A : Type} (l : list A) :
  NoDup l -> (forall x y, In x l -> In y l -> x = y) -> List.length l <= 1.
Proof.
  intros Hnd H. destruct l as [|a [|b l]]; cbn; try lia.
  exfalso. inversion Hnd as [|x xs Hx _]; subst.
  apply Hx. rewrite (H a b); [now left | now left | right; now left].
Qed.

(** X15: at most one live read loop per class.  In every reachable state no
    two read loops that are alive serve the same connection class; the live
    data read loop, if there is one, serves the connection stored in the
    data-socket field; no events read loop is alive while the events-socket
    field is empty; and no read loop serves the feed class. *)
Theorem one_read_loop_per_class (re_match : pattern -> string -> bool)
  (env : Env) (s : state) (k : conn_class) :
  reachable re_match env s ->
  List.length (live_loops k s) <= 1
  /\ (forall ws, In ws (live_loops DataClass s) -> _data_ws (self s) = Some ws)
  /\ (_ws (self s) = None -> live_loops EventsClass s = [])
  /\ live_loops FeedClass s = [].
Proof.
  intros Hreach. destruct (reachable_Inv2 _ _ _ Hreach) as [HI [E1 E2 E3]].
  assert (Hdata : forall ws, In ws (live_loops DataClass s) ->
                    _data_ws (self s) = Some ws).
  { intros ws Hin. apply live_loops_In in Hin. destruct Hin as [Hin Hc].
    destruct (inv_data_tasks _ _ HI ws Hin Hc) as [H|H]; [exact H | discriminate]. }
  assert (Hfeed : live_loops FeedClass s = []).
  { destruct (live_loops FeedClass s) as [|x l] eqn:E; [reflexivity|].
    assert (Hx : In x (live_loops FeedClass s)) by (rewrite E; now left).
    apply live_loops_In in Hx. destruct Hx as [Hx Hc].
    destruct (inv_tasks_class _ _ HI x Hx); congruence. }
  split; [|split; [exact Hdata | split; [|exact Hfeed]]].
  - apply at_most_one; [now apply NoDup_filter|].
    intros x y Hx Hy. destruct k.
    + apply live_loops_In in Hx, Hy. destruct Hx, Hy. now apply E1.
    + apply Hdata in Hx. apply Hdata in Hy. congruence.
    + rewrite Hfeed in Hx. contradiction.
  - intros Hnone. destruct (live_loops EventsClass s) as [|x l] eqn:E;
      [reflexivity|].
    assert (Hx : In x (live_loops EventsClass s)) by (rewrite E; now left).
    apply live_loops_In in Hx. destruct Hx as [Hx Hc].
    exfalso. exact (E2 Hnone x Hx Hc).
Qed.

(** ** Handles are stored, not cleared, by [subscribe] *)

Section Handles.

Variable re_match : pattern -> string -> bool.
Variable env : Env.

(** A property of the fields that storing a handle does not destroy. *)
Variable G : StreamConn -> Prop.
Hypothesis G_ws : forall ws c, G c -> G (set_ws (Some ws) c).
Hypothesis G_data_ws : forall ws c, G c -> G (set_data_ws (Some ws) c).
Hypothesis G_polygon : forall key c, G c -> G (set_polygon (Some key) c).

Let P : state -> Prop := fun s => G (self s).








End Handles.













(** ** Subscribing again *)





(** ** A handler that fails during the handshake *)

Lemma dispatch_items_first_raises re_match env items channel kv data pat h
  rest e s :
  assoc "data" kv = Some data ->
  matching re_match items channel = (pat, h) :: rest ->
  on_handler env (clock s) = Some e ->
  dispatch_items re_match env items channel (JObj kv) s =
  (Raise e, extend [EvHandler h channel (_cast channel data)] s).
Proof.
  intros Hdata Hm He. induction items as [|[q g] items IH]; [discriminate|].
  unfold matching in Hm. cbn [filter fst] in Hm. cbn [dispatch_items].
  unfold bind at 1. destruct (re_match q channel).
  - inversion Hm; subst. cbn [getitem]. rewrite Hdata.
    unfold bind, ret, call_handler, now, emit, modify_world, answer. cbn.
    now rewrite He.
  - unfold ret. now apply IH.
Qed.

(** X18: a handler of the authorized event that raises.  [_connect] stores
    the connection in the events-socket field before it dispatches the
    authorized event, and starts the read loop only after.  So when the
    first matching handler raises while the events socket is being brought
    up, the exception reaches the caller, the connection stays stored and
    open but has no read loop, and bringing the events socket up again
    returns at once: nothing will read from that connection.  For the data
    socket the connection ends up in the events-socket field, and the
    data-socket field stays empty. *)
Theorem authorized_handler_failure (re_match : pattern -> string -> bool)
  (env : Env) (s : state) (kv : list (string * json)) (data : json)
  (pat : pattern) (h : callable) (rest : list (pattern * callable))
  (e : exn) :
  reachable re_match env s ->
  on_connect env (clock s) = None ->
  on_send env (S (clock s)) = None ->
  on_recv env (S (S (clock s))) = inr (Frame (Some (JObj kv))) ->
  authorizes kv data ->
  matching re_match (_handlers (self s)) "authorized" = (pat, h) :: rest ->
  on_handler env (S (S (S (clock s)))) = Some e ->
  let ws := fresh (world s) in
  (_ws (self s) = None ->
   let r := _ensure_ws re_match env s in
   fst r = Raise e
   /\ _ws (self (snd r)) = Some ws
   /\ ~ In ws (tasks (world (snd r)))
   /\ existsb (Nat.eqb ws) (closed (world (snd r))) = false
   /\ forall env', _ensure_ws re_match env' (snd r) = (Ok tt, snd r))
  /\ (_data_ws (self s) = None ->
      let r := _ensure_data_ws re_match env s in
      fst r = Raise e
      /\ _ws (self (snd r)) = Some ws
      /\ _data_ws (self (snd r)) = None
      /\ ~ In ws (tasks (world (snd r)))).
Proof.
  intros Hreach Hconn Hsend Hrecv [Hdata [dkv [-> Hstatus]]] Hm He ws.
  pose proof (reachable_Inv _ _ _ Hreach) as HI.
  pose proof (fresh_is_open s (inv_closed_old _ _ HI)) as Hopen.
  assert (Hnt : ~ In ws (tasks (world s))).
  { intros Hin. destruct (inv_tasks_class _ _ HI _ Hin) as [Hc|Hc];
      apply (InvX_class_old None s _ _ HI) in Hc; unfold ws in Hc; lia. }
  assert (Hcon : forall k url,
    _connect re_match env ws (after_connect k url s) =
    (Raise e,
     extend [EvHandler h "authorized" (_cast "authorized" (JObj dkv))]
       (with_ws ws (after_handshake ws (after_connect k url s))))).
  { intros k url.
    rewrite (_connect_authorized re_match env ws (after_connect k url s)
               kv dkv Hopen Hsend Hrecv Hdata Hstatus).
    rewrite (dispatch_items_first_raises re_match env
               (_handlers (self (after_connect k url s))) "authorized" kv
               (JObj dkv) pat h rest e
               (with_ws ws (after_handshake ws (after_connect k url s)))
               Hdata Hm He).
    reflexivity. }
  split; intros Hnone r.
  - unfold r. rewrite (_ensure_ws_connects re_match env s Hnone Hconn).
    fold ws. rewrite Hcon. cbn [fst snd].
    repeat split; try reflexivity; try exact Hnt; exact Hopen.
  - unfold r. rewrite (_ensure_data_ws_connects re_match env s Hnone Hconn).
    fold ws. rewrite Hcon. cbn [fst snd].
    repeat split; try reflexivity; try exact Hnt. exact Hnone.
Qed.

(** * Worked instances of the further properties *)

Lemma routed_reachable (env : Env) : reachable simple_match env routed.
Proof.
  unfold routed. apply reachable_register, reachable_register,
    reachable_register, reachable_init.
Qed.

Lemma listening_reachable (env : Env) :
  reachable simple_match env (listening env).
Proof. unfold listening. apply reachable_subscribe, reachable_init. Qed.





Lemma handler_table_well_formed_witness :
  NoDup (map fst (_handlers (self routed))).
Proof.
  exact (proj1 (handler_table_well_formed simple_match
                  (steady_env authorized_reply) routed
                  (routed_reachable (steady_env authorized_reply)))).
Defined.



Lemma no_listen_before_handshake_witness :
  subscribe_ws simple_match (steady_env unauthorized_reply) ["trade_updates"]
    demo = (Raise (auth_failure unauthorized_reply), snd refused_connect)
  /\ listen_sends (trace_between demo (snd refused_connect)) = [].
Proof.
  assert (Hne : ["trade_updates"] <> @nil string) by discriminate.
  destruct (no_listen_before_handshake simple_match
              (steady_env unauthorized_reply) ["trade_updates"] demo
              (snd refused_connect) (auth_failure unauthorized_reply) Hne)
    as [H _].
  assert (Hrun : _ensure_ws simple_match (steady_env unauthorized_reply) demo
                 = (Raise (auth_failure unauthorized_reply),
                    snd refused_connect)) by (vm_compute; reflexivity).
  destruct (H Hrun) as (H1 & H2 & _).
  split; [exact H1 | exact H2].
Defined.

Lemma feed_client_stored_before_connect_witness :
  polygon (self (snd feed_down_run)) = Some "KEY-staging"
  /\ fst feed_down_run = Raise (OtherError 2)
  /\ _ensure_nats (steady_env authorized_reply) (snd feed_down_run) =
     (Ok tt, snd feed_down_run).
Proof.
  destruct (feed_client_stored_before_connect (feed_down_env 2) staging_demo
              eq_refl) as (H1 & _ & _ & _ & H5 & _ & H7).
  split; [exact H1|].
  split; [exact (H5 (OtherError 2) eq_refl) | exact (H7 _)].
Defined.

Lemma dispatch_without_data_body_witness :
  _dispatch simple_match (steady_env authorized_reply) "T.AAPL"
    bodiless_message routed = (Raise (KeyError "data"), routed).
Proof.
  pose proof (dispatch_without_data_body simple_match
                (steady_env authorized_reply) "T.AAPL"
                [("stream", JStr "T.AAPL")] routed eq_refl) as H.
  exact H.
Defined.

Lemma read_loop_drops_non_events_witness :
  heartbeat_run =
  (Ok tt, extend [EvRecv 0] (listening (steady_env authorized_reply))).
Proof.
  exact (read_loop_drops_non_events simple_match (steady_env heartbeat) 0
           (listening (steady_env authorized_reply)) heartbeat
           eq_refl eq_refl).
Defined.

Lemma new_router_endpoints_witness :
  http_to_ws "wss://api.alpaca.markets" = "wss://api.alpaca.markets"
  /\ _endpoint (self demo) = "wss://api.alpaca.markets/stream".
Proof.
  destruct (new_router_endpoints "KEY" "SECRET" "s://api.alpaca.markets"
              "s://data.alpaca.markets" "wss://api.alpaca.markets" "")
    as (_ & H2 & _ & H4 & _).
  split; [exact (H2 eq_refl) | exact H4].
Defined.

Lemma shutdown_ends_read_loop_witness :
  fst shutdown_run = Raise ConnectionClosed
  /\ handle_present EventsClass (self (snd shutdown_run)) = false.
Proof.
  destruct (shutdown_ends_read_loop simple_match
              (steady_env authorized_reply) undisturbed
              (listening (steady_env authorized_reply)) 0 EventsClass 0
              (listening_reachable (steady_env authorized_reply))
              eq_refl (or_introl eq_refl) (or_introl eq_refl))
    as (H1 & _ & H3 & _).
  split; [exact H1 | exact H3].
Defined.

Lemma run_closes_on_exit_witness :
  fst refused_driver_run = Raise (auth_failure unauthorized_reply).
Proof.
  destruct (run_closes_on_exit simple_match (steady_env unauthorized_reply)
              ["trade_updates"] [] None undisturbed demo) as [_ H].
  destruct (H (auth_failure unauthorized_reply)
              (snd (subscribe simple_match (steady_env unauthorized_reply)
                      ["trade_updates"] demo))
              ltac:(vm_compute; reflexivity)) as [_ H2].
  exact (H2 eq_refl).
Defined.

Lemma one_read_loop_per_class_witness :
  List.length (live_loops DataClass (snd round_trip_run)) <= 1.
Proof.
  destruct (one_read_loop_per_class simple_match
              (steady_env authorized_reply) (snd round_trip_run) DataClass)
    as [H _].
  - unfold round_trip_run. apply reachable_subscribe, reachable_init.
  - exact H.
Defined.



Lemma authorized_handler_failure_witness :
  fst greeting_fails_run = Raise (OtherError 1)
  /\ _ws (self (snd greeting_fails_run)) = Some 0
  /\ ~ In 0 (tasks (world (snd greeting_fails_run))).
Proof.
  destruct (authorized_handler_failure simple_match
              (failing_handler_env authorized_reply 3) greeted
              [("stream", JStr "authorization");
               ("data", JObj [("status", JStr "authorized");
                              ("action", JStr "authenticate")])]
              (JObj [("status", JStr "authorized");
                     ("action", JStr "authenticate")])
              "authorized" (AsyncDef 9) [] (OtherError 1)) as [H _].
  - unfold greeted. apply reachable_register, reachable_init.
  - reflexivity.
  - reflexivity.
  - reflexivity.
  - split; [reflexivity|]. eexists. split; reflexivity.
  - vm_compute. reflexivity.
  - reflexivity.
  - destruct (H eq_refl) as (H1 & H2 & H3 & _).
    split; [exact H1|]. split; [exact H2 | exact H3].
Defined.
